(** * knowledge_storm.utils.ArticleTextProcessing

    A shallow embedding of the text utilities of [ArticleTextProcessing]
    (src/knowledge_storm/utils.py): the paragraph sanitizer
    [preprocess_content], the heading parser [parse_article_into_dict], the
    sentence trimmer [remove_uncompleted_sentences_with_citations] and the
    citation remapper [update_citation_index].

    Python text is modelled as a list of characters.  A character is an
    8-bit code read as the code point U+0000..U+00FF, and the character
    classes below are Python's classes restricted to that range. *)

From Stdlib Require Import Ascii String DecimalString DecimalZ.
From Stdlib Require Import List ZArith Lia Bool Arith Permutation Sorted.
Import ListNotations.

(** ** Python strings *)

Module PyStr.

Abbreviation text := (list ascii).

Definition str (s : string) : text := list_ascii_of_string s.

Definition code (c : ascii) : nat := nat_of_ascii c.

Definition nl : ascii := ascii_of_nat 10.
Definition cr : ascii := ascii_of_nat 13.

Definition in_range (lo hi : nat) (c : ascii) : bool :=
  (lo <=? code c) && (code c <=? hi).

Definition one_of (l : list nat) (c : ascii) : bool :=
  existsb (Nat.eqb (code c)) l.

(** [str.isspace] on one character, which is also the class [\s] of [re]
    and the set removed by [str.strip()]. *)
Definition isspace (c : ascii) : bool :=
  in_range 9 13 c || in_range 28 32 c || one_of [133; 160] c.

(** The class [\d] of [re]: the decimal digits. *)
Definition isdecimal (c : ascii) : bool := in_range 48 57 c.

(** [str.isalnum] on one character. *)
Definition isalnum (c : ascii) : bool :=
  isdecimal c || in_range 65 90 c || in_range 97 122 c
  || one_of [170; 178; 179; 181; 185; 186; 188; 189; 190] c
  || in_range 192 214 c || in_range 216 246 c || in_range 248 255 c.

(** The class [\w] of [re]. *)
Definition isword (c : ascii) : bool := isalnum c || Ascii.eqb c "_".

(** The line boundaries of [str.splitlines]. *)
Definition is_linebreak (c : ascii) : bool :=
  in_range 10 13 c || in_range 28 30 c || one_of [133] c.

Fixpoint text_eqb (a b : text) : bool :=
  match a, b with
  | [], [] => true
  | x :: a', y :: b' => Ascii.eqb x y && text_eqb a' b'
  | _, _ => false
  end.

(** [s.startswith(p)] *)
Fixpoint startswith (p s : text) : bool :=
  match p, s with
  | [], _ => true
  | x :: p', y :: s' => Ascii.eqb x y && startswith p' s'
  | _ :: _, [] => false
  end.

(** [c in s] for a one-character [c] *)
Definition contains_char (c : ascii) (s : text) : bool :=
  existsb (Ascii.eqb c) s.

(** [p in s] *)
Fixpoint contains (p s : text) : bool :=
  startswith p s ||
  match s with
  | [] => false
  | _ :: s' => contains p s'
  end.

(** [s.count(c)] for a one-character [c] *)
Definition count_char (c : ascii) (s : text) : nat :=
  length (filter (Ascii.eqb c) s).

Fixpoint dropwhile (p : ascii -> bool) (s : text) : text :=
  match s with
  | [] => []
  | c :: s' => if p c then dropwhile p s' else s
  end.

Definition strip_by (p : ascii -> bool) (s : text) : text :=
  rev (dropwhile p (rev (dropwhile p s))).

(** [s.strip()] *)
Definition strip (s : text) : text := strip_by isspace s.

(** [s.strip(chars)] *)
Definition strip_chars (chars s : text) : text :=
  strip_by (fun c => contains_char c chars) s.

(** [sep.join(parts)] *)
Fixpoint join (sep : text) (parts : list text) : text :=
  match parts with
  | [] => []
  | [p] => p
  | p :: rest => p ++ sep ++ join sep rest
  end.

(** [s.splitlines()]: the lines of [s] without their boundaries; CR LF is
    one boundary, and a boundary at the very end opens no further line.
    [cur] is the line being read, reversed. *)
Fixpoint splitlines_go (cur s : text) : list text :=
  match s with
  | [] => match cur with [] => [] | _ => [rev cur] end
  | c :: s' =>
      if Ascii.eqb c cr then
        match s' with
        | d :: s'' =>
            if Ascii.eqb d nl then rev cur :: splitlines_go [] s''
            else rev cur :: splitlines_go [] s'
        | [] => rev cur :: splitlines_go [] s'
        end
      else if is_linebreak c then rev cur :: splitlines_go [] s'
      else splitlines_go (c :: cur) s'
  end.

Definition splitlines (s : text) : list text := splitlines_go [] s.

(** [list(dict.fromkeys(l))]: the first occurrence of every element, in
    order.  [seen] holds the keys already in the dict. *)
Fixpoint fromkeys_go (seen l : list text) : list text :=
  match l with
  | [] => []
  | x :: l' =>
      if existsb (text_eqb x) seen then fromkeys_go seen l'
      else x :: fromkeys_go (x :: seen) l'
  end.

Definition fromkeys (l : list text) : list text := fromkeys_go [] l.

(** [s.replace(old, new)] for a non-empty [old]: the occurrences of [old]
    are found from the left and do not overlap.  [skip] counts the
    characters of the current occurrence still to be passed over. *)
Fixpoint replace_go (old new : text) (skip : nat) (s : text) : text :=
  match s with
  | [] => []
  | c :: s' =>
      match skip with
      | S n => replace_go old new n s'
      | O =>
          if startswith old s
          then new ++ replace_go old new (length old - 1) s'
          else c :: replace_go old new 0 s'
      end
  end.

(** [s.replace(old, new)]; an empty [old] matches before every character
    and at the end. *)
Definition replace (old new s : text) : text :=
  match old with
  | [] => new ++ flat_map (fun c => c :: new) s
  | _ :: _ => replace_go old new 0 s
  end.

(** [s.split(sep)] for a non-empty [sep]. *)
Fixpoint split_go (sep : text) (skip : nat) (cur s : text) : list text :=
  match s with
  | [] => [rev cur]
  | c :: s' =>
      match skip with
      | S n => split_go sep n cur s'
      | O =>
          if startswith sep s
          then rev cur :: split_go sep (length sep - 1) [] s'
          else split_go sep 0 (c :: cur) s'
      end
  end.

Definition split (sep s : text) : list text := split_go sep 0 [] s.

(** [str(n)] for an integer [n]: its decimal digits, after a minus sign
    when it is negative. *)
Definition str_of_int (n : Z) : text :=
  str (NilZero.string_of_int (Z.to_int n)).

(** [int(s)] for a string of decimal digits. *)
Definition digit_value (c : ascii) : Z := Z.of_nat (code c) - 48.

Definition int_of_digits (s : text) : Z :=
  fold_left (fun acc c => 10 * acc + digit_value c)%Z s 0%Z.

End PyStr.

Import PyStr.

(** ** Regular expressions

    The patterns of the source are written in the syntax below and run by
    a backtracking matcher that tries the alternatives in the order of
    Python's [re]: a greedy repetition takes one more round before it
    gives up, a lazy one gives up first.  No pattern of the source repeats
    a body that can match the empty string, and none matches the empty
    string as a whole; a round of a repetition that consumes nothing is
    refused, and a match of length zero is treated as no match. *)

Module Re.

Inductive regex : Type :=
| Chr (p : ascii -> bool)     (* one character of a class *)
| Seq (a b : regex)           (* ab *)
| Opt (a : regex)             (* a? *)
| Star (a : regex)            (* a* *)
| StarLazy (a : regex)        (* a*? *)
| Bol                         (* ^ *)
| Eol.                        (* $ *)

Definition Lit (c : ascii) : regex := Chr (Ascii.eqb c).
Definition Plus (a : regex) : regex := Seq a (Star a).
Definition Any : regex := Chr (fun c => negb (Ascii.eqb c nl)).       (* . *)

(** The characters of [w], one after the other; for no character, a
    pattern that matches the empty string only. *)
Fixpoint Word (w : text) : regex :=
  match w with
  | [] => Opt (Chr (fun _ => false))
  | [c] => Lit c
  | c :: w' => Seq (Lit c) (Word w')
  end.

Definition or_else {A} (x : option A) (y : option A) : option A :=
  match x with
  | Some v => Some v
  | None => y
  end.

Section Backtrack.

Context {A : Type}.

(** [total] is the length of the whole subject, so that the matcher is at
    position [total - length s] when [s] is what is left to read. *)
Variable total : nat.

(** [bt r s k]: match [r] at the head of [s] and hand what is left to
    [k]; when [k] refuses, fall back to the next alternative. *)
Fixpoint bt (r : regex) (s : text) (k : text -> option A) {struct r}
  : option A :=
  match r with
  | Chr p =>
      match s with
      | c :: s' => if p c then k s' else None
      | [] => None
      end
  | Seq a b => bt a s (fun s' => bt b s' k)
  | Opt a => or_else (bt a s k) (k s)
  | Star a =>
      (fix rounds (n : nat) (s : text) {struct n} : option A :=
         match n with
         | O => k s
         | S n' =>
             or_else
               (bt a s (fun s' =>
                  if length s' <? length s then rounds n' s' else None))
               (k s)
         end) (length s) s
  | StarLazy a =>
      (fix rounds (n : nat) (s : text) {struct n} : option A :=
         match n with
         | O => k s
         | S n' =>
             or_else
               (k s)
               (bt a s (fun s' =>
                  if length s' <? length s then rounds n' s' else None))
         end) (length s) s
  | Bol => if length s =? total then k s else None
  | Eol =>
      match s with
      | [] => k s
      | [c] => if Ascii.eqb c nl then k s else None
      | _ => None
      end
  end.

End Backtrack.

(** The length of the match of [r] at the head of [s], if there is one. *)
Definition match_at (total : nat) (r : regex) (s : text) : option nat :=
  bt total r s (fun rest => Some (length s - length rest)).

(** [re.match(r, s)] as a truth value. *)
Definition re_match (r : regex) (s : text) : bool :=
  match match_at (length s) r s with
  | Some _ => true
  | None => false
  end.

(** [re.finditer(r, s)]: the spans [(start, end)] of the matches, found
    from the left, not overlapping. *)
Fixpoint finditer_go (r : regex) (total skip pos : nat) (s : text)
  : list (nat * nat) :=
  match s with
  | [] => []
  | _ :: s' =>
      match skip with
      | S n => finditer_go r total n (S pos) s'
      | O =>
          match match_at total r s with
          | Some (S n) => (pos, pos + S n) :: finditer_go r total n (S pos) s'
          | _ => finditer_go r total 0 (S pos) s'
          end
      end
  end.

Definition finditer (r : regex) (s : text) : list (nat * nat) :=
  finditer_go r (length s) 0 0 s.

(** [s[a:b]] *)
Definition slice (a b : nat) (s : text) : text := skipn a (firstn b s).

(** [re.findall(r, s)] for a pattern without groups. *)
Definition findall (r : regex) (s : text) : list text :=
  map (fun m => slice (fst m) (snd m) s) (finditer r s).

(** [re.sub(r, repl, s)] where [repl] is a function of the matched text. *)
Fixpoint sub_go (r : regex) (repl : text -> text) (total skip : nat)
  (s : text) : text :=
  match s with
  | [] => []
  | c :: s' =>
      match skip with
      | S n => sub_go r repl total n s'
      | O =>
          match match_at total r s with
          | Some (S n) => repl (firstn (S n) s) ++ sub_go r repl total n s'
          | _ => c :: sub_go r repl total 0 s'
          end
      end
  end.

Definition sub (r : regex) (repl : text -> text) (s : text) : text :=
  sub_go r repl (length s) 0 s.

(** [re.split(r, s)]: the pieces between the matches; [cur] is the piece
    being read, reversed. *)
Fixpoint split_go (r : regex) (total skip : nat) (cur s : text)
  : list text :=
  match s with
  | [] => [rev cur]
  | c :: s' =>
      match skip with
      | S n => split_go r total n cur s'
      | O =>
          match match_at total r s with
          | Some (S n) => rev cur :: split_go r total n [] s'
          | _ => split_go r total 0 (c :: cur) s'
          end
      end
  end.

Definition split (r : regex) (s : text) : list text :=
  split_go r (length s) 0 [] s.

End Re.

Import Re.

(** ** Results of code that can raise *)

Inductive exn : Type :=
| IndexError      (* [l[-1]] on an empty list *)
| DanglingRef.    (* a reference to no object of the store; Python has none *)

Inductive result (A : Type) : Type :=
| Ok (a : A)
| Raise (e : exn).

Arguments Ok {A} a.
Arguments Raise {A} e.

Definition bind {A B} (x : result A) (f : A -> result B) : result B :=
  match x with
  | Ok a => f a
  | Raise e => Raise e
  end.

Notation "x <- c ;; k" := (bind c (fun x => k))
  (at level 61, c at next level, right associativity).

(** ** Ordered dictionaries with string keys

    A dict is the list of its items in insertion order; [d[k] = v] keeps
    the place of a key that is already there. *)

Module Dict.

Definition dict (V : Type) : Type := list (text * V).

Fixpoint get {V} (k : text) (d : dict V) : option V :=
  match d with
  | [] => None
  | (k', v) :: d' => if text_eqb k k' then Some v else get k d'
  end.

Fixpoint set {V} (k : text) (v : V) (d : dict V) : dict V :=
  match d with
  | [] => [(k, v)]
  | (k', v') :: d' =>
      if text_eqb k k' then (k', v) :: d' else (k', v') :: set k v d'
  end.

Definition keys {V} (d : dict V) : list text := map fst d.

End Dict.

(** ** The class ArticleTextProcessing *)

Module ArticleTextProcessing.

(** *** preprocess_content *)

Definition space : regex := Chr isspace.                         (* \s *)
Definition punct : regex :=                                      (* [^\w\s] *)
  Chr (fun c => negb (isword c || isspace c)).

(** r"^\s*[^\w\s]+\s*$" *)
Definition orphaned_punctuation : regex :=
  Seq Bol (Seq (Star space) (Seq (Plus punct) (Seq (Star space) Eol))).

Definition artifact_patterns : list regex :=
  [ (* r"^\s*//.*$" *)
    Seq Bol (Seq (Star space) (Seq (Word (str "//")) (Seq (Star Any) Eol)));
    (* r"^\s*/\*.*?\*/\s*$" *)
    Seq Bol (Seq (Star space) (Seq (Word (str "/*")) (Seq (StarLazy Any)
      (Seq (Word (str "*/")) (Seq (Star space) Eol)))));
    (* r"^\s*TODO:.*$" *)
    Seq Bol (Seq (Star space) (Seq (Word (str "TODO:")) (Seq (Star Any) Eol)));
    (* r"^\s*FIXME:.*$" *)
    Seq Bol (Seq (Star space) (Seq (Word (str "FIXME:")) (Seq (Star Any) Eol)));
    (* r"^\s*DEBUG:.*$" *)
    Seq Bol (Seq (Star space) (Seq (Word (str "DEBUG:")) (Seq (Star Any) Eol)))
  ].

(** The truth value of a string: it is not empty. *)
Definition truthy (s : text) : bool :=
  match s with
  | [] => false
  | _ :: _ => true
  end.

Definition clean_paragraph (paragraph : text) : text :=
  let lines := splitlines paragraph in
  if existsb (contains_char "|") lines then
    join [nl] lines
  else
    let lines := fromkeys lines in
    let lines := map strip (filter (fun line => truthy (strip line)) lines) in
    let lines := map (Re.sub orphaned_punctuation (fun _ => [])) lines in
    let lines :=
      fold_left
        (fun lines pattern =>
           filter (fun line => negb (re_match pattern line)) lines)
        artifact_patterns lines in
    join (str " ") lines.

(** r"\n{2,}" *)
Definition blank_lines : regex := Seq (Lit nl) (Seq (Lit nl) (Star (Lit nl))).

Definition preprocess_content (content : text) : list text :=
  let paragraphs := Re.split blank_lines content in
  map clean_paragraph (filter (fun p => truthy (strip p)) paragraphs).

(** *** parse_article_into_dict

    The sections are Python dicts that the parser reaches through the
    references it keeps in [current_path] and changes in place.  The store
    holds the dict objects; a reference is an index in the store. *)

Abbreviation ref := nat (only parsing).

(** The object [{"content": ..., "subsections": {...}}]. *)
Record section : Type := mk_section {
  content : text;
  subsections : Dict.dict ref
}.

Definition store : Type := list section.

Definition new_section : section :=
  {| content := []; subsections := [] |}.

Fixpoint update_at {A} (i : nat) (f : A -> A) (l : list A) : list A :=
  match l with
  | [] => []
  | x :: l' =>
      match i with
      | O => f x :: l'
      | S i' => x :: update_at i' f l'
      end
  end.

(** The parser's variables: the store and the list [current_path] of the
    pairs (section, level), its last item first. *)
Record state : Type := mk_state {
  objects : store;
  current_path : list (ref * Z)
}.

Definition root : ref := 0.

Definition initial : state :=
  {| objects := [new_section]; current_path := [(root, (-1)%Z)] |}.

(** while current_path and current_path[-1][1] >= level: current_path.pop() *)
Fixpoint pop_while (level : Z) (path : list (ref * Z)) : list (ref * Z) :=
  match path with
  | [] => []
  | (r, l) :: rest =>
      if (l >=? level)%Z then pop_while level rest else path
  end.

Definition heading_level (line : text) : Z := Z.of_nat (count_char "#" line).

Definition heading_title (line : text) : text :=
  strip (strip_chars (str "# ") line).

(** current_path[-1][0] *)
Definition top (path : list (ref * Z)) : result ref :=
  match path with
  | [] => Raise IndexError
  | (r, _) :: _ => Ok r
  end.

Definition deref (h : store) (r : ref) : result section :=
  match nth_error h r with
  | Some o => Ok o
  | None => Raise DanglingRef
  end.

(** The body of the loop for a line that starts with '#'. *)
Definition heading_step (line : text) (st : state) : result state :=
  let level := heading_level line in
  let title := heading_title line in
  let fresh := length (objects st) in
  let h := objects st ++ [new_section] in
  let path := pop_while level (current_path st) in
  parent <- top path ;;
  _ <- deref h parent ;;
  Ok {| objects :=
          update_at parent
            (fun o => {| content := content o;
                         subsections := Dict.set title fresh (subsections o) |})
            h;
        current_path := (fresh, level) :: path |}.

(** The body of the loop for any other line. *)
Definition text_step (line : text) (st : state) : result state :=
  cur <- top (current_path st) ;;
  _ <- deref (objects st) cur ;;
  Ok {| objects :=
          update_at cur
            (fun o => {| content := content o ++ line ++ [nl; nl];
                         subsections := subsections o |})
            (objects st);
        current_path := current_path st |}.

Definition step (st : state) (line : text) : result state :=
  if startswith (str "#") line then heading_step line st
  else text_step line st.

Fixpoint run (lines : list text) (st : state) : result state :=
  match lines with
  | [] => Ok st
  | line :: rest => st' <- step st line ;; run rest st'
  end.

(** The value returned is the dict [root["subsections"]], whose values are
    references into the store. *)
Definition parse_article_into_dict (input_string : text)
  : result (store * Dict.dict ref) :=
  let cleaned_input := preprocess_content input_string in
  st <- run cleaned_input initial ;;
  o <- deref (objects st) root ;;
  Ok (objects st, subsections o).

(** The nested dicts behind a dict of references, read as a tree. *)
#[warnings="-register-all"]
Inductive tree : Type :=
| Section (content : text) (subsections : list (text * tree)).

Fixpoint reify (fuel : nat) (h : store) (d : Dict.dict ref) {struct fuel}
  : option (list (text * tree)) :=
  match fuel with
  | O => match d with [] => Some [] | _ => None end
  | S fuel' =>
      (fix items (d : Dict.dict ref) : option (list (text * tree)) :=
         match d with
         | [] => Some []
         | (t, r) :: d' =>
             match nth_error h r, items d' with
             | Some o, Some rest =>
                 match reify fuel' h (subsections o) with
                 | Some kids => Some ((t, Section (content o) kids) :: rest)
                 | None => None
                 end
             | _, _ => None
             end
         end) d
  end.

Definition parse_tree (input_string : text) : option (list (text * tree)) :=
  match parse_article_into_dict input_string with
  | Ok (h, d) => reify (length h) h d
  | Raise _ => None
  end.

(** *** remove_uncompleted_sentences_with_citations *)

Definition digit : regex := Chr isdecimal.                       (* \d *)

(** r"\[\d+\]" *)
Definition citation : regex := Seq (Lit "[") (Seq (Plus digit) (Lit "]")).

Definition number_list_char (c : ascii) : bool :=                (* [0-9, ] *)
  in_range 48 57 c || Ascii.eqb c "," || Ascii.eqb c " ".

(** r"\[([0-9, ]+)\]" *)
Definition grouped_citation : regex :=
  Seq (Lit "[") (Seq (Plus (Chr number_list_char)) (Lit "]")).

(** r"(\[\d+\])+" *)
Definition adjacent_citations : regex := Plus citation.

(** [.!?] *)
Definition terminator (c : ascii) : bool :=
  Ascii.eqb c "." || Ascii.eqb c "!" || Ascii.eqb c "?".

(** r"([.!?])\s*(\[\d+\])?\s*" *)
Definition eos_pattern : regex :=
  Seq (Chr terminator) (Seq (Star space) (Seq (Opt citation) (Star space))).

(** [match.group(1)] of a match of [grouped_citation]: the match without its
    brackets. *)
Definition group1 (m : text) : text := removelast (tl m).

Definition replace_with_individual_brackets (m : text) : text :=
  let numbers := PyStr.split (str ", ") (group1 m) in
  join (str " ") (map (fun n => str "[" ++ n ++ str "]") numbers).

(** [sorted(l, key=key)]: a stable sort. *)
Fixpoint insert_by {A} (key : A -> Z) (x : A) (l : list A) : list A :=
  match l with
  | [] => [x]
  | y :: l' =>
      if (key x <=? key y)%Z then x :: l else y :: insert_by key x l'
  end.

Definition sorted {A} (key : A -> Z) (l : list A) : list A :=
  fold_right (insert_by key) [] l.

Definition citation_key (x : text) : Z :=
  int_of_digits (strip_chars (str "[]") x).

(** [set_order l] stands for [list(set(l))].  Python fixes the members of
    the set and not their order, so the order is left to the caller. *)
Definition deduplicate_group (set_order : list text -> list text)
  (m : text) : text :=
  let citations := m in
  let unique_citations := set_order (findall citation citations) in
  let sorted_citations := sorted citation_key unique_citations in
  join [] sorted_citations.

Definition split_groups (text0 : text) : text :=
  Re.sub grouped_citation replace_with_individual_brackets text0.

Definition dedupe_adjacent (set_order : list text -> list text)
  (text0 : text) : text :=
  Re.sub adjacent_citations (deduplicate_group set_order) text0.

Definition remove_uncompleted_sentences_with_citations
  (set_order : list text -> list text) (text0 : text) : text :=
  let text1 := split_groups text0 in
  let text2 := dedupe_adjacent set_order text1 in
  let matches := finditer eos_pattern text2 in
  match rev matches with
  | last_match :: _ => strip (firstn (snd last_match) text2)
  | [] => text2
  end.

(** *** update_citation_index *)

Definition marker (n : Z) : text := str "[" ++ str_of_int n ++ str "]".

Definition placeholder (n : Z) : text :=
  str "__PLACEHOLDER_" ++ str_of_int n ++ str "__".

(** [citation_map] is the list of the items of the dict, in the order of
    its iteration. *)
Definition update_citation_index (s : text) (citation_map : list (Z * Z))
  : text :=
  let s1 :=
    fold_left
      (fun s original_citation =>
         replace (marker original_citation) (placeholder original_citation) s)
      (map fst citation_map) s in
  fold_left
    (fun s item =>
       replace (placeholder (fst item)) (marker (snd item)) s)
    citation_map s1.

End ArticleTextProcessing.

Import ArticleTextProcessing.

(** * Definitions of the statements and of their proofs *)

(** ** Inputs of the examples *)

Definition depth_skip_input : text :=
  str "# A" ++ [nl] ++ str "### B" ++ [nl] ++ str "text".

Definition table_input : text :=
  str "| a | b |" ++ [nl] ++ str "| 1 | 2 |".

Definition only_newline_breaks (p : text) : bool :=
  forallb (fun c => negb (is_linebreak c) || Ascii.eqb c nl) p.

Definition ends_with_newline (p : text) : bool :=
  match rev p with
  | c :: _ => Ascii.eqb c nl
  | [] => false
  end.

(** ** Well-formed parser states

    What holds of every state the parser reaches: the root entry is at the
    bottom of [current_path], every reference points into the store, and
    every dict has distinct keys and distinct values. *)

Definition refs_below (n : nat) (d : Dict.dict ref) : Prop :=
  Forall (fun kv => snd kv < n) d.

Definition wf_section (n : nat) (o : section) : Prop :=
  NoDup (Dict.keys (subsections o))
  /\ NoDup (map snd (subsections o))
  /\ refs_below n (subsections o).

Record wf_state (st : state) : Prop := mk_wf {
  wf_root : exists rest, current_path st = rest ++ [(root, (-1)%Z)];
  wf_path : Forall (fun e => fst e < length (objects st)) (current_path st);
  wf_objs : Forall (wf_section (length (objects st))) (objects st)
}.



(** A state the parser reaches, after the lines "# A", "x", "## B". *)
Definition reached_lines : list text := [str "# A"; str "x"; str "## B"].

Definition reached_state : state :=
  {| objects :=
       [ {| content := []; subsections := [(str "A", 1)] |};
         {| content := str "x" ++ [nl; nl]; subsections := [(str "B", 2)] |};
         new_section ];
     current_path := [(2, 2%Z); (1, 1%Z); (root, (-1)%Z)] |}.

(** ** The rounds of a repetition, by name *)

Definition star_rounds {A} (total : nat) (a : regex) (k : text -> option A)
  : nat -> text -> option A :=
  fix rounds (n : nat) (s : text) {struct n} : option A :=
    match n with
    | O => k s
    | S n' =>
        or_else
          (bt total a s (fun s' =>
             if length s' <? length s then rounds n' s' else None))
          (k s)
    end.

Definition lazy_rounds {A} (total : nat) (a : regex) (k : text -> option A)
  : nat -> text -> option A :=
  fix rounds (n : nat) (s : text) {struct n} : option A :=
    match n with
    | O => k s
    | S n' =>
        or_else
          (k s)
          (bt total a s (fun s' =>
             if length s' <? length s then rounds n' s' else None))
    end.

(** [rejects w r]: no character class of [r] accepts [w], and [r] looks at
    no position. *)
Fixpoint rejects (w : ascii) (r : regex) : bool :=
  match r with
  | Chr p => negb (p w)
  | Seq a b => rejects w a && rejects w b
  | Opt a => rejects w a
  | Star a => rejects w a
  | StarLazy _ | Bol | Eol => false
  end.

(** [positionless r]: [r] does not look at the position of the match. *)
Fixpoint positionless (r : regex) : bool :=
  match r with
  | Chr _ | Eol => true
  | Seq a b => positionless a && positionless b
  | Opt a => positionless a
  | Star a => positionless a
  | StarLazy _ | Bol => false
  end.

(** ** The order of a set

    [list(set(l))] holds the distinct members of [l] in some order. *)
Definition set_order_ok (set_order : list text -> list text) : Prop :=
  forall l, Permutation (set_order l) (fromkeys l).

Definition no_terminator (s : text) : bool :=
  forallb (fun c => negb (terminator c)) s.

(** [sub_all r ok total skip s]: every match that [Re.sub] replaces in [s]
    satisfies [ok]. *)
Fixpoint sub_all (r : regex) (ok : text -> bool) (total skip : nat)
  (s : text) : bool :=
  match s with
  | [] => true
  | _ :: s' =>
      match skip with
      | S n => sub_all r ok total n s'
      | O =>
          match match_at total r s with
          | Some (S n) => ok (firstn (S n) s) && sub_all r ok total n s'
          | _ => sub_all r ok total 0 s'
          end
      end
  end.

Fixpoint distinct (l : list Z) : bool :=
  match l with
  | [] => true
  | x :: l' => negb (existsb (Z.eqb x) l') && distinct l'
  end.

(** The distinct citations of a run have distinct numbers: the order of
    the set does not show in the sorted run. *)
Definition tie_free (m : text) : bool :=
  distinct (map citation_key (fromkeys (findall citation m))).

(** ** Citation markers *)

(** A character that can be part of a marker [[n]]. *)
Definition marker_char (c : ascii) : bool :=
  Ascii.eqb "[" c || isdecimal c || Ascii.eqb "]" c.

Definition bracket (d : text) : text := str "[" ++ d ++ str "]".

(** A non-empty string of decimal digits. *)
Definition digits (d : text) : Prop :=
  d <> [] /\ Forall (fun c => isdecimal c = true) d.

Definition key_le (a b : text) : Prop :=
  (citation_key a <= citation_key b)%Z.

(** ** The remap of citation indices, as the spec words it

    Every occurrence of [[old]], for [old] a key of the map, is rewritten
    to [[new]] in one pass from the left; what has been written is not
    read again. *)

Fixpoint find_marker (s : text) (m : list (Z * Z)) : option (Z * Z) :=
  match m with
  | [] => None
  | (k, v) :: m' =>
      if startswith (marker k) s then Some (k, v) else find_marker s m'
  end.

Fixpoint remap_go (m : list (Z * Z)) (skip : nat) (s : text) : text :=
  match s with
  | [] => []
  | c :: s' =>
      match skip with
      | S n => remap_go m n s'
      | O =>
          match find_marker s m with
          | Some (k, v) => marker v ++ remap_go m (length (marker k) - 1) s'
          | None => c :: remap_go m 0 s'
          end
      end
  end.

Definition remap (s : text) (m : list (Z * Z)) : text := remap_go m 0 s.

(** A character of [str(n)]. *)
Definition num_char (c : ascii) : bool := isdecimal c || Ascii.eqb c "-".

(** A text read as the markers of the keys, each one token, and the
    characters between them. *)
Inductive token : Type :=
| Char (c : ascii)
| Mark (k : Z).

Definition render (f : Z -> text) (toks : list token) : text :=
  flat_map (fun t => match t with Char c => [c] | Mark k => f k end) toks.

Fixpoint lookup (k : Z) (m : list (Z * Z)) : option Z :=
  match m with
  | [] => None
  | (k', v) :: m' => if (k =? k')%Z then Some v else lookup k m'
  end.

Definition mem (k : Z) (l : list Z) : bool := existsb (Z.eqb k) l.

(** The markers after the first loop has gone through the keys [done]. *)
Definition held (done : list Z) (j : Z) : text :=
  if mem j done then placeholder j else marker j.

(** The markers after the second loop has gone through the items [done]. *)
Definition released (done : list (Z * Z)) (j : Z) : text :=
  match lookup j done with
  | Some v => marker v
  | None => placeholder j
  end.

(** [tokens_ok keys toks]: the tokens are those of a text without the word
    of the placeholders: a character token stands where no marker of a key
    starts, a marker token is the marker of a key, and the word starts at
    no token. *)
Fixpoint tokens_ok (keys : list Z) (toks : list token) : Prop :=
  startswith (str "PLACEHOLDER_") (render marker toks) = false
  /\ match toks with
     | [] => True
     | Char c :: toks' =>
         (forall k, In k keys ->
                    startswith (marker k) (c :: render marker toks') = false)
         /\ tokens_ok keys toks'
     | Mark k :: toks' => In k keys /\ tokens_ok keys toks'
     end.

(** Every marker of [f] starts with '[' or with '_'. *)
Definition guarded (f : Z -> text) : Prop :=
  forall j, exists t, f j = "["%char :: t \/ f j = "_"%char :: t.

(** A character that is neither '[' nor '_'. *)
Definition plain (c : ascii) : Prop :=
  Ascii.eqb "[" c = false /\ Ascii.eqb "_" c = false.

(** What follows the sentence end in [eos_pattern]. *)
Definition eos_tail : regex :=
  Seq (Star space) (Seq (Opt citation) (Star space)).

(** The first character of [s], if any, is not in the class [p]. *)
Definition not_at_head (p : ascii -> bool) (s : text) : Prop :=
  match s with
  | [] => True
  | c :: _ => p c = false
  end.

(** The sections of a store refer to sections made after them. *)
Definition ordered (h : store) : Prop :=
  forall i o, nth_error h i = Some o ->
              Forall (fun kv => i < snd kv) (subsections o).


(** * The other functions of utils.py *)

(** ** More of Python's strings *)

Module PyMore.

(** [s[:i]]: a negative [i] counts from the end. *)
Definition slice_to (s : text) (i : Z) : text :=
  if (0 <=? i)%Z then firstn (Z.to_nat i) s
  else firstn (length s - Z.to_nat (- i)) s.

(** [s.find(sub)]: the lowest index at which [sub] occurs in [s], or -1.
    [i] is the index of the head of [s]. *)
Fixpoint find_go (sub s : text) (i : nat) : Z :=
  if startswith sub s then Z.of_nat i
  else
    match s with
    | [] => (-1)%Z
    | _ :: s' => find_go sub s' (S i)
    end.

Definition find (sub s : text) : Z := find_go sub s 0.

(** [s.split()]: the maximal runs of characters that are not whitespace.
    [cur] is the run being read, reversed. *)
Fixpoint split_ws_go (cur s : text) : list text :=
  match s with
  | [] => match cur with [] => [] | _ => [rev cur] end
  | c :: s' =>
      if isspace c then
        match cur with
        | [] => split_ws_go [] s'
        | _ => rev cur :: split_ws_go [] s'
        end
      else split_ws_go (c :: cur) s'
  end.

Definition split_ws (s : text) : list text := split_ws_go [] s.

(** [range(a, b)] *)
Definition range (a b : Z) : list Z :=
  map (fun k => (a + Z.of_nat k)%Z) (seq 0 (Z.to_nat (b - a))).

End PyMore.

Import PyMore.

(** ** truncate_filename

    The warning that the function logs is left out. *)
Definition truncate_filename (filename : text) (max_length : Z) : text :=
  if (Z.of_nat (length filename) >? max_length)%Z then
    let truncated_filename := slice_to filename max_length in
    truncated_filename
  else filename.

(** ** More of the class ArticleTextProcessing *)

Module ArticleTextProcessingMore.

(** *** limit_word_count_preserve_newline *)

(** The inner loop: the words of a line, until the count is reached. *)
Fixpoint limit_words (max_word_count : Z) (line_words : list text)
  (word_count : Z) (limited_string : text) : Z * text :=
  match line_words with
  | [] => (word_count, limited_string)
  | lw :: rest =>
      if (word_count <? max_word_count)%Z then
        limit_words max_word_count rest (word_count + 1)%Z
          (limited_string ++ lw ++ str " ")
      else (word_count, limited_string)
  end.

(** The outer loop, over the lines. *)
Fixpoint limit_lines (max_word_count : Z) (lines : list text)
  (word_count : Z) (limited_string : text) : text :=
  match lines with
  | [] => limited_string
  | word :: rest =>
      let line_words := split_ws word in
      let '(word_count, limited_string) :=
        limit_words max_word_count line_words word_count limited_string in
      if (word_count >=? max_word_count)%Z then limited_string
      else
        limit_lines max_word_count rest word_count
          (strip limited_string ++ [nl])
  end.

Definition limit_word_count_preserve_newline (input_string : text)
  (max_word_count : Z) : text :=
  strip (limit_lines max_word_count (PyStr.split [nl] input_string) 0%Z []).

(** *** remove_citations *)

(** r"\[\d+(?:,\s*\d+)*\]" *)
Definition citation_list : regex :=
  Seq (Lit "[")
    (Seq (Plus digit)
       (Seq (Star (Seq (Lit ",") (Seq (Star space) (Plus digit))))
          (Lit "]"))).

Definition remove_citations (s : text) : text :=
  Re.sub citation_list (fun _ => []) s.

(** *** parse_citation_indices *)

(** [index[1:-1]] *)
Definition inner (index : text) : text := removelast (tl index).

Definition parse_citation_indices (s : text) : list Z :=
  let matches := findall citation s in
  map (fun index => int_of_digits (inner index)) matches.

(** *** clean_up_citation *)

(** A turn of a conversation: what the function reads of it. *)
Record turn (R : Type) : Type := mk_turn {
  agent_utterance : text;
  search_results : list R
}.

Arguments mk_turn {R} _ _.
Arguments agent_utterance {R} _.
Arguments search_results {R} _.

(** [s[: s.find(word)]] *)
Definition cut_before (word s : text) : text := slice_to s (find word s).

(** [max(l)] under [try], with 0 for the exception that an empty [l]
    raises. *)
Definition max_or_zero (l : list Z) : Z :=
  match l with
  | [] => 0%Z
  | x :: l' => fold_left Z.max l' x
  end.

(** [max([int(x) for x in re.findall(r"\[(\d+)\]", u)])] under [try]:
    the pattern gives the digits of every citation. *)
Definition max_ref_num (u : text) : Z :=
  max_or_zero (map (fun x => int_of_digits x)
                 (map inner (findall citation u))).

(** The citations from the number [n] of the search results on are taken
    out when a citation is beyond that number. *)
Definition drop_beyond (n : Z) (u : text) : text :=
  if (max_ref_num u >? n)%Z then
    fold_left (fun u i => replace (marker i) [] u)
      (range n (max_ref_num u + 1)) u
  else u.

(** The body of the loop, for one turn. *)
Definition clean_up_turn {R} (set_order : list text -> list text)
  (t : turn R) : turn R :=
  let u := cut_before (str "References:") (agent_utterance t) in
  let u := cut_before (str "Sources:") u in
  let u := strip (replace (str "Answer:") [] u) in
  let u := drop_beyond (Z.of_nat (length (search_results t))) u in
  mk_turn (remove_uncompleted_sentences_with_citations set_order u)
    (search_results t).

(** [conv.dlg_history] is the list of the turns. *)
Definition clean_up_citation {R} (set_order : list text -> list text)
  (dlg_history : list (turn R)) : list (turn R) :=
  map (clean_up_turn set_order) dlg_history.

(** *** clean_up_section *)

(** The loop: the paragraphs appended to [output_paragraphs]. *)
Fixpoint section_paragraphs (set_order : list text -> list text)
  (paragraphs : list text) (summary_sec_flag : bool) : list text :=
  match paragraphs with
  | [] => []
  | p :: rest =>
      let p := strip p in
      if Nat.eqb (length p) 0 then
        section_paragraphs set_order rest summary_sec_flag
      else
        let p :=
          if negb (startswith (str "#") p)
          then remove_uncompleted_sentences_with_citations set_order p
          else p in
        if summary_sec_flag && negb (startswith (str "#") p) then
          section_paragraphs set_order rest summary_sec_flag
        else if startswith (str "Overall") p
                || startswith (str "In summary") p
                || startswith (str "In conclusion") p then
          section_paragraphs set_order rest false
        else if contains (str "# Summary") p
                || contains (str "# Conclusion") p then
          section_paragraphs set_order rest true
        else p :: section_paragraphs set_order rest false
  end.

Definition clean_up_section (set_order : list text -> list text)
  (text0 : text) : text :=
  let paragraphs := PyStr.split [nl] text0 in
  join [nl; nl] (section_paragraphs set_order paragraphs false).

(** *** combine_markdown_contents

    The class defines the function twice; the second definition is the
    one that stays.  A file is given by its content, and a section by the
    tree of its nested dicts. *)

Definition parse_markdown_file (content : text) : Dict.dict tree :=
  match parse_tree content with
  | Some d => d
  | None => []
  end.

(** [d.update(other)] *)
Definition dict_update {V} (d other : Dict.dict V) : Dict.dict V :=
  fold_left (fun d kv => Dict.set (fst kv) (snd kv) d) other d.

Definition prefixed (counter : Z) (key : text) : text :=
  str_of_int counter ++ str ". " ++ key.

Fixpoint combine_loop (markdown_files : list text) (counter : Z)
  (combined_content : Dict.dict tree) : Dict.dict tree :=
  match markdown_files with
  | [] => combined_content
  | file :: rest =>
      let content := parse_markdown_file file in
      let prefixed_content :=
        dict_update [] (map (fun kv => (prefixed counter (fst kv), snd kv))
                          content) in
      combine_loop rest (counter + 1)%Z
        (dict_update combined_content prefixed_content)
  end.

Definition combine_markdown_contents (markdown_files : list text)
  : Dict.dict tree :=
  combine_loop markdown_files 1%Z [].

End ArticleTextProcessingMore.

Import ArticleTextProcessingMore.

(** ** Devices of the statements on the other functions *)

(** The loop of [parse_article_into_dict] and what it returns, on the
    paragraphs that [preprocess_content] has cleaned. *)
Definition tree_of_lines (lines : list text) : option (list (text * tree)) :=
  match run lines initial with
  | Ok st =>
      match deref (objects st) root with
      | Ok o => reify (length (objects st)) (objects st) (subsections o)
      | Raise _ => None
      end
  | Raise _ => None
  end.

(** A section with [x] written before its content. *)
Definition with_preamble (x : text) (o : section) : section :=
  {| content := x ++ content o; subsections := subsections o |}.

(** A state whose root section has [x] written before its content. *)
Definition lift_preamble (x : text) (st : state) : state :=
  {| objects := update_at root (with_preamble x) (objects st);
     current_path := current_path st |}.

(** The numbers of the markers of a text read as tokens, and the
    characters between the markers. *)
Definition marks (toks : list token) : list Z :=
  flat_map (fun t => match t with Char _ => [] | Mark k => [k] end) toks.

Definition chars (toks : list token) : text :=
  flat_map (fun t => match t with Char c => [c] | Mark _ => [] end) toks.

(** The tokens of a text in which '[' opens the markers only, and the
    markers hold numbers that are not negative. *)
Definition cited (toks : list token) : bool :=
  forallb (fun t => match t with
                    | Char c => negb (Ascii.eqb "[" c)
                    | Mark k => (0 <=? k)%Z
                    end) toks.

(** The tokens of a text in which '[' opens the markers only. *)
Definition plain_chars (toks : list token) : bool :=
  forallb (fun t => match t with
                    | Char c => negb (Ascii.eqb "[" c)
                    | Mark _ => true
                    end) toks.

(** Every number cited is a key of the map. *)
Definition covers (m : list (Z * Z)) (toks : list token) : bool :=
  forallb (fun k => mem k (map fst m)) (marks toks).

Definition nonneg_values (m : list (Z * Z)) : bool :=
  forallb (fun kv => (0 <=? snd kv)%Z) m.

(** [citation_map.get(k, k)] *)
Definition renumber (m : list (Z * Z)) (k : Z) : Z :=
  match lookup k m with
  | Some v => v
  | None => k
  end.

Definition retarget (m : list (Z * Z)) (t : token) : token :=
  match t with
  | Char c => Char c
  | Mark k => Mark (renumber m k)
  end.

(** [{v: k for k, v in citation_map.items()}] for a map with distinct
    values. *)
Definition swap_items (m : list (Z * Z)) : list (Z * Z) :=
  map (fun kv => (snd kv, fst kv)) m.

(** The tokens without the markers of the numbers in [ks], and without
    those of the numbers from [n] on. *)
Definition without (ks : list Z) (toks : list token) : list token :=
  filter (fun t => match t with
                   | Char _ => true
                   | Mark k => negb (mem k ks)
                   end) toks.

Definition below (n : Z) (toks : list token) : list token :=
  filter (fun t => match t with
                   | Char _ => true
                   | Mark k => (k <? n)%Z
                   end) toks.

(** The sections of the files one after the other, those of the file
    numbered [counter] first, each under its prefixed key. *)
Fixpoint all_sections (markdown_files : list text) (counter : Z)
  : Dict.dict tree :=
  match markdown_files with
  | [] => []
  | file :: rest =>
      map (fun kv => (prefixed counter (fst kv), snd kv))
        (parse_markdown_file file)
      ++ all_sections rest (counter + 1)%Z
  end.

(** ** A flat article

    An article of sections of level 1, each a title and its paragraphs:
    its lines, and the mapping that it stands for. *)
Definition flat_lines (secs : list (text * list text)) : list text :=
  flat_map (fun s => (str "# " ++ fst s) :: snd s) secs.

(** The content of a section: every paragraph with two line feeds after
    it. *)
Definition body (ps : list text) : text :=
  concat (map (fun p => p ++ [nl; nl]) ps).

Definition flat_tree (secs : list (text * list text))
  : list (text * tree) :=
  map (fun s => (fst s, Section (body (snd s)) [])) secs.

(** A title that its heading line gives back, with no '#' in it. *)
Definition flat_title (t : text) : bool :=
  text_eqb (heading_title (str "# " ++ t)) t
  && (heading_level (str "# " ++ t) =? 1)%Z.

Definition no_heading (ps : list text) : bool :=
  forallb (fun p => negb (startswith (str "#") p)) ps.

(** The parser's variables after the sections [done], given by title and
    content, of a flat article. *)
Definition leaf (d : text * text) : section :=
  {| content := snd d; subsections := [] |}.

Definition flat_state (done : list (text * text)) : state :=
  {| objects :=
       {| content := [];
          subsections := combine (map fst done) (seq 1 (length done)) |}
       :: map leaf done;
     current_path :=
       match done with
       | [] => [(root, (-1)%Z)]
       | _ :: _ => [(length done, 1%Z); (root, (-1)%Z)]
       end |}.

(** ** Texts of citations

    A text read as its citations, each the digits between its brackets,
    and the characters between them, which are no part of a marker and no
    sentence end. *)
Inductive piece : Type :=
| Gap (c : ascii)
| Cite (d : text).

Definition piece_text (p : piece) : text :=
  match p with
  | Gap c => [c]
  | Cite d => bracket d
  end.

Definition pieces_text (ps : list piece) : text := flat_map piece_text ps.

Definition piece_ok (p : piece) : bool :=
  match p with
  | Gap c => negb (marker_char c) && negb (terminator c)
  | Cite d => truthy d && forallb isdecimal d
  end.

Definition pieces_ok (ps : list piece) : bool := forallb piece_ok ps.

(** No citation is followed at once by another. *)
Fixpoint apart (ps : list piece) : bool :=
  match ps with
  | [] => true
  | p :: ps' =>
      match p, ps' with
      | Cite _, Cite _ :: _ => false
      | _, _ => apart ps'
      end
  end.

(** The value of a string of digits is in ascending order along a list. *)
Definition ascending (ds : list text) : Prop :=
  StronglySorted (fun a b => (int_of_digits a <= int_of_digits b)%Z) ds.
(** * Properties *)

(** ** The sanitizer *)

Lemma join_cons (sep x : text) (l : list text) :
  l <> [] -> join sep (x :: l) = x ++ sep ++ join sep l.
Proof. destruct l; [congruence | reflexivity]. Qed.

Lemma splitlines_go_nil (cur s : text) :
  splitlines_go cur s = [] -> cur = [] /\ s = [].
Proof.
  revert cur. induction s as [|c s IH]; intros cur H; simpl in H.
  - destruct cur; [auto | discriminate].
  - destruct (Ascii.eqb c cr).
    + destruct s as [|d s']; [discriminate|].
      destruct (Ascii.eqb d nl); discriminate.
    + destruct (is_linebreak c); [discriminate|].
      apply IH in H. destruct H; discriminate.
Qed.

Lemma ends_with_newline_cons (c : ascii) (s : text) :
  s <> [] -> ends_with_newline (c :: s) = ends_with_newline s.
Proof.
  intros Hs. unfold ends_with_newline. simpl.
  destruct (rev s) as [|x r] eqn:E.
  - apply (f_equal (@rev ascii)) in E. rewrite rev_involutive in E.
    simpl in E. congruence.
  - reflexivity.
Qed.

Lemma ends_with_newline_tail (c : ascii) (s : text) :
  ends_with_newline (c :: s) = false -> ends_with_newline s = false.
Proof.
  destruct s as [|d s]; [reflexivity|].
  now rewrite ends_with_newline_cons.
Qed.

Lemma cr_is_linebreak (c : ascii) :
  Ascii.eqb c cr = true -> is_linebreak c = true /\ Ascii.eqb c nl = false.
Proof. intros H. apply Ascii.eqb_eq in H. subst c. now split. Qed.

Lemma join_splitlines_go (s cur : text) :
  only_newline_breaks s = true ->
  ends_with_newline s = false ->
  join [nl] (splitlines_go cur s) = rev cur ++ s.
Proof.
  revert cur. induction s as [|c s IH]; intros cur Hb He.
  - simpl. destruct cur; simpl; now rewrite ?app_nil_r.
  - simpl in Hb. apply andb_true_iff in Hb. destruct Hb as [Hc Hb].
    pose proof (ends_with_newline_tail _ _ He) as He'.
    simpl. destruct (Ascii.eqb c cr) eqn:Ecr.
    { apply cr_is_linebreak in Ecr. destruct Ecr as [E1 E2].
      rewrite E1, E2 in Hc. discriminate. }
    destruct (is_linebreak c) eqn:El.
    + simpl in Hc. apply Ascii.eqb_eq in Hc. subst c.
      assert (Hs : s <> []) by (intros ->; discriminate He).
      rewrite join_cons.
      * rewrite IH by assumption. reflexivity.
      * intros E. apply splitlines_go_nil in E. tauto.
    + rewrite IH by assumption. simpl. now rewrite <- app_assoc.
Qed.

Lemma clean_paragraph_table (p : text) :
  existsb (contains_char "|") (splitlines p) = true ->
  clean_paragraph p = join [nl] (splitlines p).
Proof. intros H. unfold clean_paragraph. now rewrite H. Qed.

(** What the table branch returns: the lines of the paragraph, as
    [splitlines] cuts them, joined by one line feed each.  That is the
    paragraph itself when line feeds are its only line boundaries and it
    does not end with one. *)
Lemma table_paragraph_lines (p : text) :
  existsb (contains_char "|") (splitlines p) = true ->
  clean_paragraph p = join [nl] (splitlines p)
  /\ (only_newline_breaks p = true ->
      ends_with_newline p = false ->
      clean_paragraph p = p).
Proof.
  intros H. split.
  - now apply clean_paragraph_table.
  - intros Hb He. rewrite clean_paragraph_table by assumption.
    unfold splitlines. now rewrite join_splitlines_go.
Qed.

(** C7 fails on the code.  The comment of the table branch says that a
    table is returned unchanged, and the table of the claim is; but the
    branch returns the lines of [splitlines] joined by line feeds, so that
    a table whose lines end in CR LF comes back with line feeds, a line
    feed at the end of a table is dropped, and a vertical tab inside a
    cell cuts the row in two. *)
Theorem C7_table_line_ends_changed :
  preprocess_content table_input = [table_input]
  /\ preprocess_content (str "| a |" ++ [cr; nl] ++ str "| 1 |")
     = [str "| a |" ++ [nl] ++ str "| 1 |"]
  /\ preprocess_content (str "| a |" ++ [nl] ++ str "| 1 |" ++ [nl])
     = [str "| a |" ++ [nl] ++ str "| 1 |"]
  /\ preprocess_content (str "| a" ++ [ascii_of_nat 11] ++ str "b |")
     = [str "| a" ++ [nl] ++ str "b |"].
Proof.
  refine (conj _ (conj _ (conj _ _))); vm_compute; reflexivity.
Qed.

(** C6 fails on the code: a line of punctuation only is emptied but stays
    in the list of lines, so that the join leaves two spaces where it
    was. *)
Theorem C6_orphaned_punctuation_leaves_gap :
  clean_paragraph (str "a" ++ [nl] ++ str "---" ++ [nl] ++ str "b")
  = str "a  b".
Proof. vm_compute. reflexivity. Qed.

(** ** The parser *)

(** C2 fails on the code.  The loop of the parser is written for lines
    and, given the three lines one by one, makes B the child of A; but
    what it is given are the paragraphs of the sanitizer, which has joined
    the three lines of the input with spaces: the parser reads one
    heading and no text. *)
Theorem C2_lines_read_as_one_heading :
  preprocess_content depth_skip_input = [str "# A ### B text"]
  /\ parse_tree depth_skip_input
     = Some [(str "A ### B text", Section [] [])]
  /\ tree_of_lines [str "# A"; str "### B"; str "text"]
     = Some [(str "A",
              Section []
                [(str "B", Section (str "text" ++ [nl; nl]) [])])].
Proof.
  refine (conj _ (conj _ _)); vm_compute; reflexivity.
Qed.

Lemma text_eqb_eq (a b : text) : text_eqb a b = true <-> a = b.
Proof.
  revert b. induction a as [|x a IH]; destruct b as [|y b]; simpl;
    try (split; [discriminate | congruence]); try tauto.
  rewrite andb_true_iff, Ascii.eqb_eq, IH. split.
  - intros [-> ->]. reflexivity.
  - intros E. injection E. auto.
Qed.

Lemma text_eqb_refl (a : text) : text_eqb a a = true.
Proof. now apply text_eqb_eq. Qed.

Lemma text_eqb_neq (a b : text) : text_eqb a b = false <-> a <> b.
Proof.
  rewrite <- text_eqb_eq. destruct (text_eqb a b); split; congruence.
Qed.

(** *** Lists updated in place *)

Lemma update_at_length {A} (f : A -> A) (l : list A) (i : nat) :
  length (update_at i f l) = length l.
Proof.
  revert i. induction l as [|x l IH]; intros [|i]; simpl; auto.
Qed.

Lemma nth_error_update_at_eq {A} (f : A -> A) (l : list A) (i : nat) (x : A) :
  nth_error l i = Some x -> nth_error (update_at i f l) i = Some (f x).
Proof.
  revert i. induction l as [|y l IH]; intros [|i]; simpl; try discriminate.
  - intros [= ->]. reflexivity.
  - apply IH.
Qed.

Lemma nth_error_update_at_neq {A} (f : A -> A) (l : list A) (i j : nat) :
  i <> j -> nth_error (update_at i f l) j = nth_error l j.
Proof.
  revert i j. induction l as [|y l IH]; intros [|i] [|j] H; simpl; auto.
  congruence.
Qed.

Lemma Forall_update_at {A} (P : A -> Prop) (f : A -> A) (l : list A) (i : nat) :
  Forall P l ->
  (forall x, nth_error l i = Some x -> P x -> P (f x)) ->
  Forall P (update_at i f l).
Proof.
  revert i. induction l as [|y l IH]; intros [|i] H Hf; simpl; auto;
    inversion H; subst; constructor; auto.
Qed.

(** *** Dicts *)

Lemma dict_get_set_eq {V} (k : text) (v : V) (d : Dict.dict V) :
  Dict.get k (Dict.set k v d) = Some v.
Proof.
  induction d as [|[k' v'] d IH]; simpl.
  - now rewrite text_eqb_refl.
  - destruct (text_eqb k k') eqn:E; simpl; rewrite E; auto.
Qed.

Lemma dict_get_set_neq {V} (k t : text) (v : V) (d : Dict.dict V) :
  t <> k -> Dict.get t (Dict.set k v d) = Dict.get t d.
Proof.
  intros Hn. induction d as [|[k' v'] d IH]; simpl.
  - apply text_eqb_neq in Hn. now rewrite Hn.
  - destruct (text_eqb k k') eqn:E; simpl.
    + apply text_eqb_eq in E. subst k'.
      apply text_eqb_neq in Hn. now rewrite Hn.
    + now rewrite IH.
Qed.

Lemma dict_get_in {V} (k : text) (v : V) (d : Dict.dict V) :
  Dict.get k d = Some v -> In (k, v) d.
Proof.
  induction d as [|[k' v'] d IH]; simpl; [discriminate|].
  destruct (text_eqb k k') eqn:E.
  - apply text_eqb_eq in E. intros [= ->]. left. congruence.
  - auto.
Qed.

Lemma dict_get_none {V} (k : text) (d : Dict.dict V) :
  Dict.get k d = None -> ~ In k (Dict.keys d).
Proof.
  induction d as [|[k' v'] d IH]; simpl; [tauto|].
  destruct (text_eqb k k') eqn:E; [discriminate|].
  apply text_eqb_neq in E. intros H [H1 | H1]; [congruence | now apply IH].
Qed.

Lemma dict_keys_set_present {V} (k : text) (v v0 : V) (d : Dict.dict V) :
  Dict.get k d = Some v0 -> Dict.keys (Dict.set k v d) = Dict.keys d.
Proof.
  induction d as [|[k' v'] d IH]; simpl; [discriminate|].
  destruct (text_eqb k k') eqn:E; simpl; [reflexivity|].
  intros H. now rewrite IH.
Qed.

Lemma dict_keys_set_absent {V} (k : text) (v : V) (d : Dict.dict V) :
  Dict.get k d = None -> Dict.keys (Dict.set k v d) = Dict.keys d ++ [k].
Proof.
  induction d as [|[k' v'] d IH]; simpl; [reflexivity|].
  destruct (text_eqb k k') eqn:E; simpl; [discriminate|].
  intros H. now rewrite IH.
Qed.

Lemma NoDup_snoc {A} (l : list A) (x : A) :
  NoDup l -> ~ In x l -> NoDup (l ++ [x]).
Proof.
  intros H Hx. apply NoDup_rev in H.
  rewrite <- (rev_involutive (l ++ [x])). apply NoDup_rev.
  rewrite rev_app_distr. simpl. constructor; [|assumption].
  now rewrite <- in_rev.
Qed.

Lemma dict_set_keys_nodup {V} (k : text) (v : V) (d : Dict.dict V) :
  NoDup (Dict.keys d) -> NoDup (Dict.keys (Dict.set k v d)).
Proof.
  intros H. destruct (Dict.get k d) as [v0|] eqn:E.
  - now rewrite (dict_keys_set_present k v v0 d E).
  - rewrite (dict_keys_set_absent k v d E).
    apply NoDup_snoc; [assumption | now apply dict_get_none].
Qed.

Lemma dict_set_values_in {V} (k : text) (v x : V) (d : Dict.dict V) :
  In x (map snd (Dict.set k v d)) -> x = v \/ In x (map snd d).
Proof.
  induction d as [|[k' v'] d IH]; simpl.
  - intros [H|[]]; auto.
  - destruct (text_eqb k k'); simpl; intros [H|H]; auto.
    apply IH in H. tauto.
Qed.

Lemma dict_set_values_nodup {V} (k : text) (v : V) (d : Dict.dict V) :
  NoDup (map snd d) -> ~ In v (map snd d) -> NoDup (map snd (Dict.set k v d)).
Proof.
  induction d as [|[k' v'] d IH]; simpl; intros H Hv.
  - constructor; [tauto | constructor].
  - inversion H; subst.
    destruct (text_eqb k k'); simpl; constructor; try tauto.
    intros Hin. apply dict_set_values_in in Hin.
    destruct Hin as [Hin|Hin]; [subst; tauto | tauto].
Qed.

Lemma dict_set_drops_old {V} (k : text) (v old : V) (d : Dict.dict V) :
  NoDup (map snd d) -> Dict.get k d = Some old -> v <> old ->
  ~ In old (map snd (Dict.set k v d)).
Proof.
  induction d as [|[k' v'] d IH]; simpl; intros H Hg Hv; [discriminate|].
  inversion H; subst.
  destruct (text_eqb k k') eqn:E; simpl.
  - injection Hg as ->. intros [H1|H1]; [congruence | tauto].
  - intros [H1|H1].
    + subst v'. apply dict_get_in in Hg.
      apply H2. change old with (snd (k, old)). now apply in_map.
    + revert H1. now apply IH.
Qed.

Lemma dict_set_refs_below (n : nat) (k : text) (v : ref) (d : Dict.dict ref) :
  refs_below n d -> v < n -> refs_below n (Dict.set k v d).
Proof.
  unfold refs_below. induction d as [|[k' v'] d IH]; simpl; intros H Hv.
  - constructor; auto.
  - inversion H; subst. destruct (text_eqb k k'); constructor; auto.
Qed.

(** *** The parser keeps its state well formed *)

Lemma heading_level_pos (line : text) :
  startswith (str "#") line = true -> (1 <= heading_level line)%Z.
Proof.
  destruct line as [|c line]; simpl; [discriminate|].
  rewrite andb_true_r. intros H. unfold heading_level, count_char. simpl.
  rewrite H. simpl. lia.
Qed.

Lemma pop_while_suffix (level : Z) (path : list (ref * Z)) :
  exists popped, path = popped ++ pop_while level path.
Proof.
  induction path as [|[r l] path [popped IH]]; simpl.
  - now exists [].
  - destruct (l >=? level)%Z.
    + exists ((r, l) :: popped). simpl. now rewrite <- IH.
    + now exists [].
Qed.

Lemma pop_while_keeps_root (level : Z) (rest : list (ref * Z)) :
  (0 <= level)%Z ->
  exists rest', pop_while level (rest ++ [(root, (-1)%Z)])
                = rest' ++ [(root, (-1)%Z)].
Proof.
  intros Hl. induction rest as [|[r l] rest [rest' IH]]; simpl.
  - destruct (-1 >=? level)%Z eqn:E; [lia|]. now exists [].
  - destruct (l >=? level)%Z.
    + now exists rest'.
    + now exists ((r, l) :: rest).
Qed.

Lemma Forall_pop_while (P : ref * Z -> Prop) (level : Z) (path : list (ref * Z)) :
  Forall P path -> Forall P (pop_while level path).
Proof.
  intros H. destruct (pop_while_suffix level path) as [popped E].
  rewrite E in H. now apply Forall_app in H.
Qed.

Lemma wf_section_mono (n m : nat) (o : section) :
  n <= m -> wf_section n o -> wf_section m o.
Proof.
  intros Hnm (H1 & H2 & H3). repeat split; auto.
  unfold refs_below in *. eapply Forall_impl; [|exact H3].
  simpl. intros. lia.
Qed.

Lemma wf_initial : wf_state initial.
Proof.
  constructor; simpl.
  - now exists [].
  - repeat constructor.
  - repeat constructor.
Qed.

Lemma top_app_root (rest : list (ref * Z)) :
  exists r, top (rest ++ [(root, (-1)%Z)]) = Ok r.
Proof. destruct rest as [|[r l] rest]; simpl; eauto. Qed.

Lemma top_in (path : list (ref * Z)) (r : ref) :
  top path = Ok r -> exists l, In (r, l) path.
Proof.
  destruct path as [|[r' l] path]; simpl; [discriminate|].
  intros [= ->]. eauto.
Qed.

Lemma deref_below (h : store) (r : ref) :
  r < length h -> exists o, deref h r = Ok o /\ nth_error h r = Some o.
Proof.
  intros H. unfold deref. destruct (nth_error h r) as [o|] eqn:E; eauto.
  apply nth_error_None in E. lia.
Qed.

Lemma deref_nth (h : store) (r : ref) (o : section) :
  deref h r = Ok o <-> nth_error h r = Some o.
Proof.
  unfold deref. destruct (nth_error h r); split; congruence.
Qed.

Lemma heading_step_wf (line : text) (st : state) :
  startswith (str "#") line = true ->
  wf_state st ->
  exists st', heading_step line st = Ok st' /\ wf_state st'.
Proof.
  intros Hh [[rest Hroot] Hpath Hobjs].
  pose proof (heading_level_pos _ Hh) as Hl.
  unfold heading_step.
  destruct (pop_while_keeps_root (heading_level line) rest) as [rest' Hpop];
    [lia|].
  rewrite Hroot in *. rewrite Hpop.
  destruct (top_app_root rest') as [parent Htop]. rewrite Htop. simpl.
  assert (Hparent : parent < length (objects st)).
  { apply top_in in Htop. destruct Htop as [l Hin].
    rewrite <- Hpop in Hin.
    pose proof (Forall_pop_while _ (heading_level line) _ Hpath) as HF.
    rewrite Forall_forall in HF. apply (HF _ Hin). }
  destruct (deref_below (objects st ++ [new_section]) parent) as (o & Ho & _).
  { rewrite length_app. simpl. lia. }
  rewrite Ho. simpl. eexists. split; [reflexivity|].
  constructor; simpl.
  - now exists ((length (objects st), heading_level line) :: rest').
  - rewrite update_at_length, length_app. simpl. constructor; simpl; [lia|].
    rewrite <- Hpop. apply Forall_pop_while.
    eapply Forall_impl; [|exact Hpath]. simpl. intros. lia.
  - rewrite update_at_length, length_app. simpl.
    apply Forall_update_at.
    + apply Forall_app. split.
      * eapply Forall_impl; [|exact Hobjs]. intros o'.
        apply wf_section_mono. lia.
      * repeat constructor.
    + intros x Hx (H1 & H2 & H3). repeat split; simpl.
      * now apply dict_set_keys_nodup.
      * apply dict_set_values_nodup; [assumption|].
        intros Hin. apply in_map_iff in Hin. destruct Hin as (kv & E & Hin).
        assert (Hx' : nth_error (objects st) parent = Some x).
        { rewrite nth_error_app1 in Hx by assumption. exact Hx. }
        apply nth_error_In in Hx'.
        rewrite Forall_forall in Hobjs. destruct (Hobjs _ Hx') as (_ & _ & Hb).
        unfold refs_below in Hb. rewrite Forall_forall in Hb.
        specialize (Hb _ Hin). simpl in Hb. lia.
      * apply dict_set_refs_below; [assumption | lia].
Qed.

Lemma text_step_wf (line : text) (st : state) :
  wf_state st ->
  exists st', text_step line st = Ok st' /\ wf_state st'.
Proof.
  intros [[rest Hroot] Hpath Hobjs]. unfold text_step.
  destruct (top_app_root rest) as [cur Htop].
  rewrite Hroot in *. rewrite Htop. simpl.
  assert (Hcur : cur < length (objects st)).
  { apply top_in in Htop. destruct Htop as [l Hin].
    rewrite Forall_forall in Hpath. apply (Hpath _ Hin). }
  destruct (deref_below (objects st) cur Hcur) as (o & Ho & _).
  rewrite Ho. simpl. eexists. split; [reflexivity|].
  constructor; simpl.
  - now exists rest.
  - now rewrite update_at_length.
  - rewrite update_at_length. apply Forall_update_at; [assumption|].
    intros x _ H. exact H.
Qed.

Lemma step_wf (line : text) (st : state) :
  wf_state st -> exists st', step st line = Ok st' /\ wf_state st'.
Proof.
  intros H. unfold step. destruct (startswith (str "#") line) eqn:E.
  - now apply heading_step_wf.
  - now apply text_step_wf.
Qed.

Lemma run_wf (lines : list text) (st : state) :
  wf_state st -> exists st', run lines st = Ok st' /\ wf_state st'.
Proof.
  revert st. induction lines as [|line lines IH]; intros st H; simpl.
  - eauto.
  - destruct (step_wf line st H) as (st1 & E & H1). rewrite E. simpl. auto.
Qed.

(** *** Level and title of a heading *)




Lemma heading_step_inv (line : text) (st st' : state) :
  heading_step line st = Ok st' ->
  exists parent o,
    top (pop_while (heading_level line) (current_path st)) = Ok parent
    /\ deref (objects st ++ [new_section]) parent = Ok o
    /\ objects st'
       = update_at parent
           (fun o => {| content := content o;
                        subsections :=
                          Dict.set (heading_title line) (length (objects st))
                            (subsections o) |})
           (objects st ++ [new_section])
    /\ current_path st'
       = (length (objects st), heading_level line)
           :: pop_while (heading_level line) (current_path st).
Proof.
  unfold heading_step.
  destruct (top (pop_while (heading_level line) (current_path st)))
    as [parent|e] eqn:Et; simpl; [|discriminate].
  destruct (deref (objects st ++ [new_section]) parent) as [o|e] eqn:Ed;
    simpl; [|discriminate].
  intros [= <-]. simpl. exists parent, o. repeat split; assumption.
Qed.




(** *** A heading with the title of a sibling *)

Lemma run_reaches_wf (lines : list text) (st : state) :
  run lines initial = Ok st -> wf_state st.
Proof.
  intros H. destruct (run_wf lines initial wf_initial) as (st' & E & Hwf).
  congruence.
Qed.

(** C8.  In any state the parser reaches, a heading whose title is already
    a key of the dict it is stored in overwrites that entry: the dict keeps
    its keys, each once, the title now refers to a new section with no
    content and no subsections, the section it referred to is no longer a
    value of the dict, and the other entries are unchanged. *)
Theorem C8_duplicate_title_overwrites
  (lines : list text) (st : state) (line : text)
  (parent : ref) (o : section) (old : ref) :
  run lines initial = Ok st ->
  startswith (str "#") line = true ->
  top (pop_while (heading_level line) (current_path st)) = Ok parent ->
  deref (objects st) parent = Ok o ->
  Dict.get (heading_title line) (subsections o) = Some old ->
  exists st' o',
    step st line = Ok st'
    /\ deref (objects st') parent = Ok o'
    /\ content o' = content o
    /\ Dict.keys (subsections o') = Dict.keys (subsections o)
    /\ NoDup (Dict.keys (subsections o'))
    /\ Dict.get (heading_title line) (subsections o')
       = Some (length (objects st))
    /\ deref (objects st') (length (objects st)) = Ok new_section
    /\ ~ In old (map snd (subsections o'))
    /\ (forall t, t <> heading_title line ->
                  Dict.get t (subsections o') = Dict.get t (subsections o)).
Proof.
  intros Hrun Hh Htop Ho Hold.
  pose proof (run_reaches_wf lines st Hrun) as Hwf.
  destruct (heading_step_wf line st Hh Hwf) as (st' & Hs & _).
  pose proof (heading_step_inv line st st' Hs)
    as (parent' & o0 & Htop' & Ho0 & Hobj & Hpath).
  rewrite Htop in Htop'. injection Htop' as <-.
  apply deref_nth in Ho.
  assert (Hlt : parent < length (objects st)).
  { apply nth_error_Some. congruence. }
  assert (Hnth : nth_error (objects st ++ [new_section]) parent = Some o).
  { now rewrite nth_error_app1. }
  destruct Hwf as [_ _ Hobjs]. rewrite Forall_forall in Hobjs.
  destruct (Hobjs o (nth_error_In _ _ Ho)) as (Hk & Hv & Hb).
  eexists st', _. split; [unfold step; now rewrite Hh|].
  split.
  { rewrite Hobj. apply deref_nth.
    apply nth_error_update_at_eq. exact Hnth. }
  simpl. split; [reflexivity|]. split.
  { eapply dict_keys_set_present. exact Hold. }
  split; [now apply dict_set_keys_nodup|].
  split; [apply dict_get_set_eq|]. split.
  { rewrite Hobj. apply deref_nth. rewrite nth_error_update_at_neq by lia.
    rewrite nth_error_app2 by lia. now rewrite Nat.sub_diag. }
  split.
  { apply dict_set_drops_old; [assumption..|].
    apply dict_get_in in Hold. unfold refs_below in Hb.
    rewrite Forall_forall in Hb. specialize (Hb _ Hold). simpl in Hb. lia. }
  intros t Ht. now apply dict_get_set_neq.
Qed.

Lemma C8_duplicate_title_overwrites_witness :
  exists st' o',
    step reached_state (str "# A") = Ok st'
    /\ deref (objects st') root = Ok o'
    /\ Dict.keys (subsections o') = [str "A"]
    /\ Dict.get (str "A") (subsections o') = Some 3
    /\ deref (objects st') 3 = Ok new_section
    /\ ~ In 1 (map snd (subsections o')).
Proof.
  destruct (C8_duplicate_title_overwrites reached_lines reached_state
              (str "# A") root
              {| content := []; subsections := [(str "A", 1)] |} 1)
    as (st' & o' & H1 & H2 & H3 & H4 & H5 & H6 & H7 & H8 & H9);
    try (vm_compute; reflexivity).
  exists st', o'. repeat split; assumption.
Defined.

(** ** The matcher *)

Section Matcher.

Context {A : Type}.
Variable total : nat.

Lemma bt_Star (a : regex) (s : text) (k : text -> option A) :
  bt total (Star a) s k = star_rounds total a k (length s) s.
Proof. reflexivity. Qed.

Lemma bt_StarLazy (a : regex) (s : text) (k : text -> option A) :
  bt total (StarLazy a) s k = lazy_rounds total a k (length s) s.
Proof. reflexivity. Qed.

Lemma bt_ext (r : regex) :
  forall (s : text) (k1 k2 : text -> option A),
    (forall x, k1 x = k2 x) -> bt total r s k1 = bt total r s k2.
Proof.
  induction r as [p|a IHa b IHb|a IHa|a IHa|a IHa| |]; intros s k1 k2 H.
  - simpl. destruct s as [|c s]; [reflexivity|]. now rewrite H.
  - simpl. apply IHa. intros x. now apply IHb.
  - simpl. now rewrite (IHa s k1 k2 H), H.
  - rewrite !bt_Star. generalize (length s) as n. intros n. revert s.
    induction n as [|n IHn]; intros s; simpl; [apply H|].
    rewrite H. f_equal. apply IHa. intros x.
    destruct (length x <? length s); [apply IHn | reflexivity].
  - rewrite !bt_StarLazy. generalize (length s) as n. intros n. revert s.
    induction n as [|n IHn]; intros s; simpl; [apply H|].
    rewrite H. f_equal. apply IHa. intros x.
    destruct (length x <? length s); [apply IHn | reflexivity].
  - simpl. now rewrite H.
  - simpl. destruct s as [|c [|d s]]; rewrite ?H; reflexivity.
Qed.

Lemma bt_none (r : regex) :
  forall (s : text) (k : text -> option A),
    (forall x, k x = None) -> bt total r s k = None.
Proof.
  induction r as [p|a IHa b IHb|a IHa|a IHa|a IHa| |]; intros s k H.
  - simpl. destruct s as [|c s]; [reflexivity|]. rewrite H. now destruct (p c).
  - simpl. apply IHa. intros x. now apply IHb.
  - simpl. now rewrite (IHa s k H), H.
  - rewrite bt_Star. generalize (length s) as n. intros n. revert s.
    induction n as [|n IHn]; intros s; simpl; [apply H|].
    rewrite H. rewrite IHa; [reflexivity|]. intros x.
    destruct (length x <? length s); [apply IHn | reflexivity].
  - rewrite bt_StarLazy. generalize (length s) as n. intros n. revert s.
    induction n as [|n IHn]; intros s; simpl; [apply H|].
    rewrite H. rewrite IHa; [reflexivity|]. intros x.
    destruct (length x <? length s); [apply IHn | reflexivity].
  - simpl. rewrite H. now destruct (length s =? total).
  - simpl. destruct s as [|c [|d s]]; rewrite ?H; try reflexivity.
    now destruct (Ascii.eqb c nl).
Qed.

Lemma star_rounds_fuel (a : regex) (k : text -> option A) :
  forall (n m : nat) (s : text),
    length s <= n -> length s <= m ->
    star_rounds total a k n s = star_rounds total a k m s.
Proof.
  assert (Hnil : forall m, star_rounds total a k m [] = k []).
  { intros [|m]; simpl; [reflexivity|].
    rewrite bt_none; [reflexivity|]. intros x. reflexivity. }
  induction n as [|n IHn]; intros m s Hn Hm.
  - destruct s; [|simpl in Hn; lia]. now rewrite Hnil.
  - destruct m as [|m].
    + destruct s; [|simpl in Hm; lia]. now rewrite !Hnil.
    + simpl. f_equal. apply bt_ext. intros x.
      destruct (length x <? length s) eqn:E; [|reflexivity].
      apply Nat.ltb_lt in E. apply IHn; lia.
Qed.

(** A greedy repetition takes one more round, and only then leaves. *)
Lemma bt_Star_unfold (a : regex) (s : text) (k : text -> option A) :
  bt total (Star a) s k
  = or_else
      (bt total a s (fun s' =>
         if length s' <? length s then bt total (Star a) s' k else None))
      (k s).
Proof.
  rewrite bt_Star. destruct s as [|c s].
  - simpl. rewrite bt_none; [reflexivity|]. intros x. reflexivity.
  - simpl length. simpl star_rounds. f_equal. apply bt_ext. intros x.
    destruct (length x <? S (length s)) eqn:E; [|reflexivity].
    apply Nat.ltb_lt in E. rewrite bt_Star.
    apply star_rounds_fuel; lia.
Qed.

End Matcher.

Lemma bt_total {A} (r : regex) :
  positionless r = true ->
  forall (t1 t2 : nat) (s : text) (k : text -> option A),
    bt t1 r s k = bt t2 r s k.
Proof.
  induction r as [p|a IHa b IHb|a IHa|a IHa|a IHa| |]; simpl; intros Hp t1 t2 s k;
    try discriminate; try reflexivity.
  - apply andb_true_iff in Hp. destruct Hp as [Ha Hb].
    rewrite (IHa Ha t1 t2). apply bt_ext. intros x. now apply IHb.
  - now rewrite (IHa Hp t1 t2).
  - change (star_rounds t1 a k (length s) s = star_rounds t2 a k (length s) s).
    generalize (length s) as n. intros n. revert s.
    induction n as [|n IHn]; intros s; simpl; [reflexivity|].
    f_equal. rewrite (IHa Hp t1 t2). apply bt_ext. intros x.
    destruct (length x <? length s); [apply IHn | reflexivity].
Qed.

(** A pattern whose classes reject [w] reads nothing beyond a [w]. *)
Lemma bt_app_reject {A} (w : ascii) (v : text) (r : regex) :
  rejects w r = true ->
  forall (t1 t2 : nat) (s : text) (k : text -> option A),
    bt t1 r (s ++ w :: v) k = bt t2 r s (fun rest => k (rest ++ w :: v)).
Proof.
  induction r as [p|a IHa b IHb|a IHa|a IHa|a IHa| |]; simpl; intros Hr t1 t2 s k;
    try discriminate.
  - destruct s as [|c s]; simpl; [|reflexivity].
    apply negb_true_iff in Hr. now rewrite Hr.
  - apply andb_true_iff in Hr. destruct Hr as [Ha Hb].
    rewrite (IHa Ha t1 t2). apply bt_ext. intros x. now apply IHb.
  - now rewrite (IHa Hr t1 t2).
  - change (bt t1 (Star a) (s ++ w :: v) k
            = bt t2 (Star a) s (fun rest => k (rest ++ w :: v))).
    remember (length s) as n eqn:En. revert s En.
    induction n as [n IHn] using lt_wf_ind. intros s En.
    rewrite (bt_Star_unfold t1), (bt_Star_unfold t2). f_equal.
    rewrite (IHa Hr t1 t2). apply bt_ext. intros x.
    rewrite !length_app. simpl.
    destruct (length x <? length s) eqn:E.
    + apply Nat.ltb_lt in E.
      replace (length x + S (length v) <? length s + S (length v)) with true
        by (symmetry; apply Nat.ltb_lt; lia).
      apply (IHn (length x)); [lia | reflexivity].
    + apply Nat.ltb_ge in E.
      replace (length x + S (length v) <? length s + S (length v)) with false
        by (symmetry; apply Nat.ltb_ge; lia).
      reflexivity.
Qed.

Lemma bt_some_inv {A} (total : nat) (r : regex) :
  forall (s : text) (k : text -> option A) (v : A),
    bt total r s k = Some v -> exists x, k x = Some v.
Proof.
  induction r as [p|a IHa b IHb|a IHa|a IHa|a IHa| |]; intros s k v H.
  - simpl in H. destruct s as [|c s]; [discriminate|].
    destruct (p c); [eauto | discriminate].
  - simpl in H. apply IHa in H. destruct H as [x H]. now apply IHb in H.
  - simpl in H. destruct (bt total a s k) eqn:E; simpl in H.
    + injection H as ->. now apply IHa in E.
    + eauto.
  - rewrite bt_Star in H. remember (length s) as n eqn:En. clear En.
    revert s H. induction n as [|n IHn]; intros s H; simpl in H; [eauto|].
    match type of H with or_else ?b _ = _ => destruct b eqn:E end; simpl in H.
    + injection H as ->. apply IHa in E. destruct E as [x E].
      destruct (length x <? length s); [eauto | discriminate].
    + eauto.
  - rewrite bt_StarLazy in H. remember (length s) as n eqn:En. clear En.
    revert s H. induction n as [|n IHn]; intros s H; simpl in H; [eauto|].
    destruct (k s) eqn:Ek; simpl in H.
    + injection H as ->. eauto.
    + apply IHa in H. destruct H as [x E].
      destruct (length x <? length s); [eauto | discriminate].
  - simpl in H. destruct (length s =? total); [eauto | discriminate].
  - simpl in H. destruct s as [|c [|d s]]; eauto; try discriminate.
    destruct (Ascii.eqb c nl); [eauto | discriminate].
Qed.

Lemma match_at_le (total : nat) (r : regex) (s : text) (n : nat) :
  match_at total r s = Some n -> n <= length s.
Proof.
  unfold match_at. intros H. apply bt_some_inv in H.
  destruct H as [x H]. injection H as <-. lia.
Qed.

Lemma rejects_positionless (w : ascii) (r : regex) :
  rejects w r = true -> positionless r = true.
Proof.
  induction r; simpl; try congruence; auto.
  rewrite !andb_true_iff. tauto.
Qed.

Lemma match_at_total (r : regex) (t1 t2 : nat) (s : text) :
  positionless r = true -> match_at t1 r s = match_at t2 r s.
Proof. intros H. unfold match_at. now apply bt_total. Qed.

Lemma match_at_app_reject (w : ascii) (v : text) (r : regex)
  (t1 t2 : nat) (s : text) :
  rejects w r = true ->
  match_at t1 r (s ++ w :: v) = match_at t2 r s.
Proof.
  intros H. unfold match_at. rewrite (bt_app_reject w v r H t1 t2).
  apply bt_ext. intros x. rewrite !length_app. simpl. f_equal. lia.
Qed.

Lemma match_at_reject_head (w : ascii) (v : text) (r : regex) (t : nat) :
  rejects w r = true ->
  match_at t r (w :: v) = None \/ match_at t r (w :: v) = Some 0.
Proof.
  intros H. change (w :: v) with ([] ++ w :: v).
  rewrite (match_at_app_reject w v r t t [] H).
  destruct (match_at t r []) as [n|] eqn:E; [|now left].
  apply match_at_le in E. simpl in E. right. f_equal. lia.
Qed.

(** *** Re.sub *)

Lemma sub_go_app_reject (w : ascii) (v : text) (r : regex)
  (repl : text -> text) (t1 t2 t3 : nat) :
  rejects w r = true ->
  forall (u : text) (skip : nat),
    skip <= length u ->
    sub_go r repl t1 skip (u ++ w :: v)
    = sub_go r repl t2 skip u ++ w :: sub_go r repl t3 0 v.
Proof.
  intros Hr.
  assert (Hv : forall x, sub_go r repl t1 0 x = sub_go r repl t3 0 x).
  { intros x. generalize 0 as skip. induction x as [|c x IH]; intros skip;
      [reflexivity|].
    simpl. destruct skip; [|apply IH].
    rewrite (match_at_total r t1 t3) by (now apply rejects_positionless with w).
    destruct (match_at t3 r (c :: x)) as [[|n]|]; now rewrite ?IH. }
  induction u as [|c u IH]; intros skip Hs.
  - simpl in Hs. assert (skip = 0) as -> by lia. simpl app. simpl sub_go.
    rewrite <- Hv.
    destruct (match_at_reject_head w v r t1 Hr) as [-> | ->]; reflexivity.
  - simpl app. simpl sub_go. destruct skip as [|skip].
    + change (c :: u ++ w :: v) with ((c :: u) ++ w :: v).
      rewrite (match_at_app_reject w v r t1 t2 (c :: u) Hr).
      destruct (match_at t2 r (c :: u)) as [[|n]|] eqn:E.
      * rewrite IH by (simpl; lia). reflexivity.
      * apply match_at_le in E. simpl in E.
        rewrite IH by lia. rewrite firstn_app.
        replace (n - length u) with 0 by lia.
        rewrite firstn_O, app_nil_r. now rewrite <- app_assoc.
      * rewrite IH by (simpl; lia). reflexivity.
    + simpl in Hs. apply IH. lia.
Qed.

Lemma sub_app_reject (w : ascii) (r : regex) (repl : text -> text)
  (u v : text) :
  rejects w r = true ->
  Re.sub r repl (u ++ w :: v) = Re.sub r repl u ++ w :: Re.sub r repl v.
Proof.
  intros H. unfold Re.sub. apply sub_go_app_reject; [assumption | lia].
Qed.

Lemma Forall_firstn {A} (Q : A -> Prop) (n : nat) (l : list A) :
  Forall Q l -> Forall Q (firstn n l).
Proof.
  revert n. induction l as [|x l IH]; intros [|n] H; simpl; try constructor;
    inversion H; auto.
Qed.

Lemma Forall_skipn {A} (Q : A -> Prop) (n : nat) (l : list A) :
  Forall Q l -> Forall Q (skipn n l).
Proof.
  revert n. induction l as [|x l IH]; intros [|n] H; simpl; auto.
  inversion H; auto.
Qed.

Lemma sub_go_Forall (Q : ascii -> Prop) (r : regex) (repl : text -> text)
  (total : nat) :
  (forall m, Forall Q m -> Forall Q (repl m)) ->
  forall (s : text) (skip : nat),
    Forall Q s -> Forall Q (sub_go r repl total skip s).
Proof.
  intros Hrepl. induction s as [|c s IH]; intros skip Hs; [constructor|].
  pose proof Hs as Hs'. inversion Hs'; subst. simpl. destruct skip; [|auto].
  destruct (match_at total r (c :: s)) as [[|n]|]; try (constructor; auto).
  apply Forall_app. split; [|auto].
  apply Hrepl. constructor; [assumption|]. now apply Forall_firstn.
Qed.

Lemma sub_go_agree (r : regex) (ok : text -> bool) (repl1 repl2 : text -> text)
  (total : nat) :
  (forall m, ok m = true -> repl1 m = repl2 m) ->
  forall (s : text) (skip : nat),
    sub_all r ok total skip s = true ->
    sub_go r repl1 total skip s = sub_go r repl2 total skip s.
Proof.
  intros Hok. induction s as [|c s IH]; intros skip H; [reflexivity|].
  simpl in *. destruct skip; [|auto].
  destruct (match_at total r (c :: s)) as [[|n]|].
  - f_equal. auto.
  - apply andb_true_iff in H. destruct H as [H1 H2].
    rewrite (Hok _ H1). f_equal. auto.
  - f_equal. auto.
Qed.

(** *** sorted and the order of a set *)

Lemma insert_by_perm {A} (key : A -> Z) (x : A) (l : list A) :
  Permutation (insert_by key x l) (x :: l).
Proof.
  induction l as [|y l IH]; simpl; [reflexivity|].
  destruct (key x <=? key y)%Z; [reflexivity|].
  rewrite IH. apply perm_swap.
Qed.

Lemma sorted_perm {A} (key : A -> Z) (l : list A) :
  Permutation (sorted key l) l.
Proof.
  induction l as [|x l IH]; simpl; [reflexivity|].
  rewrite insert_by_perm. now constructor.
Qed.

Lemma insert_by_comm {A} (key : A -> Z) (x y : A) (l : list A) :
  key x <> key y ->
  insert_by key x (insert_by key y l) = insert_by key y (insert_by key x l).
Proof.
  intros Hxy. induction l as [|z l IH]; simpl.
  - destruct (key x <=? key y)%Z eqn:E1, (key y <=? key x)%Z eqn:E2;
      try reflexivity; lia.
  - destruct (key y <=? key z)%Z eqn:Eyz, (key x <=? key z)%Z eqn:Exz; simpl;
      destruct (key x <=? key y)%Z eqn:Exy, (key y <=? key x)%Z eqn:Eyx;
      rewrite ?Eyz, ?Exz; try reflexivity; try lia.
    + now rewrite IH.
    + now rewrite IH.
Qed.

Lemma sorted_perm_unique {A} (key : A -> Z) (l1 l2 : list A) :
  Permutation l1 l2 -> NoDup (map key l1) -> sorted key l1 = sorted key l2.
Proof.
  induction 1 as [|x l l' Hp IH|x y l|l l' l'' Hp1 IH1 Hp2 IH2]; intros Hn.
  - reflexivity.
  - simpl in *. inversion Hn; subst. now rewrite IH.
  - simpl in *. inversion Hn as [|? ? Hy Hn']; subst.
    apply insert_by_comm. intros E. apply Hy. left. now symmetry.
  - rewrite IH1 by assumption. apply IH2.
    eapply Permutation_NoDup; [|exact Hn]. now apply Permutation_map.
Qed.

Lemma distinct_NoDup (l : list Z) : distinct l = true -> NoDup l.
Proof.
  induction l as [|x l IH]; simpl; intros H; constructor.
  - apply andb_true_iff in H. destruct H as [H _].
    apply negb_true_iff in H. intros Hin.
    assert (existsb (Z.eqb x) l = true); [|congruence].
    apply existsb_exists. exists x. split; [assumption | apply Z.eqb_refl].
  - apply andb_true_iff in H. tauto.
Qed.

Lemma seen_in (x : text) (seen : list text) :
  existsb (text_eqb x) seen = true <-> In x seen.
Proof.
  rewrite existsb_exists. split.
  - intros (y & Hy & E). apply text_eqb_eq in E. now subst.
  - intros H. exists x. split; [assumption | apply text_eqb_refl].
Qed.

Lemma fromkeys_go_in (x : text) (l seen : list text) :
  In x (fromkeys_go seen l) <-> In x l /\ ~ In x seen.
Proof.
  revert seen. induction l as [|y l IH]; intros seen; simpl; [tauto|].
  destruct (existsb (text_eqb y) seen) eqn:E.
  - apply seen_in in E. rewrite IH. split; [tauto|].
    intros [[->|H] Hn]; tauto.
  - assert (Hy : ~ In y seen).
    { intros H. apply seen_in in H. congruence. }
    simpl. rewrite IH. simpl. split.
    + intros [->|[H Hn]]; [tauto|]. split; [tauto|]. tauto.
    + intros [[->|H] Hn]; [tauto|].
      destruct (list_eq_dec ascii_dec y x) as [->|Hne]; [tauto|].
      right. split; [assumption|]. intros [?|?]; tauto.
Qed.

Lemma fromkeys_in (x : text) (l : list text) :
  In x (fromkeys l) <-> In x l.
Proof. unfold fromkeys. rewrite fromkeys_go_in. simpl. tauto. Qed.

Lemma fromkeys_go_nodup (l seen : list text) : NoDup (fromkeys_go seen l).
Proof.
  revert seen. induction l as [|y l IH]; intros seen; simpl; [constructor|].
  destruct (existsb (text_eqb y) seen); [apply IH|].
  constructor; [|apply IH]. rewrite fromkeys_go_in. simpl. tauto.
Qed.

Lemma deduplicate_group_canon (set_order : list text -> list text) (m : text) :
  set_order_ok set_order ->
  tie_free m = true ->
  deduplicate_group set_order m = deduplicate_group fromkeys m.
Proof.
  intros Hok Ht. unfold deduplicate_group. f_equal.
  apply sorted_perm_unique; [apply Hok|].
  apply distinct_NoDup in Ht.
  eapply Permutation_NoDup; [|exact Ht].
  apply Permutation_map. symmetry. apply Hok.
Qed.

Lemma dedupe_adjacent_canon (set_order : list text -> list text) (s : text) :
  set_order_ok set_order ->
  sub_all adjacent_citations tie_free (length s) 0 s = true ->
  dedupe_adjacent set_order s = dedupe_adjacent fromkeys s.
Proof.
  intros Hok H. unfold dedupe_adjacent, Re.sub.
  apply sub_go_agree with (ok := tie_free); [|assumption].
  intros m Hm. now apply deduplicate_group_canon.
Qed.

Lemma trimmer_canon (set_order : list text -> list text) (text0 : text) :
  set_order_ok set_order ->
  sub_all adjacent_citations tie_free (length (split_groups text0)) 0
    (split_groups text0) = true ->
  remove_uncompleted_sentences_with_citations set_order text0
  = remove_uncompleted_sentences_with_citations fromkeys text0.
Proof.
  intros Hok H. unfold remove_uncompleted_sentences_with_citations.
  now rewrite (dedupe_adjacent_canon set_order _ Hok H).
Qed.

Lemma fromkeys_order_ok : set_order_ok fromkeys.
Proof. intros l. reflexivity. Qed.

(** ** The trimmer *)

(** *** What the rewriting of citations leaves out of a text *)

Section Preserved.

(** A property of characters that the brackets and the space have. *)
Variable Q : ascii -> Prop.
Hypothesis Q_open : Q "[".
Hypothesis Q_close : Q "]".
Hypothesis Q_space : Q " ".

Lemma Forall_join (sep : text) (parts : list text) :
  Forall Q sep -> Forall (Forall Q) parts -> Forall Q (join sep parts).
Proof.
  intros Hsep. induction parts as [|p parts IH]; intros H; simpl;
    [constructor|].
  inversion H; subst. destruct parts as [|p' parts]; [assumption|].
  apply Forall_app. split; [assumption|].
  apply Forall_app. split; [assumption|]. now apply IH.
Qed.

Lemma Forall_split_go (sep : text) (s : text) :
  forall (skip : nat) (cur : text),
    Forall Q cur -> Forall Q s ->
    Forall (Forall Q) (PyStr.split_go sep skip cur s).
Proof.
  induction s as [|c s IH]; intros skip cur Hc Hs; simpl.
  - constructor; [now apply Forall_rev | constructor].
  - inversion Hs; subst. destruct skip; [|auto].
    destruct (startswith sep (c :: s)).
    + constructor; [now apply Forall_rev | auto].
    + apply IH; [constructor|]; assumption.
Qed.

Lemma Forall_group1 (m : text) : Forall Q m -> Forall Q (group1 m).
Proof.
  intros H. unfold group1. rewrite removelast_firstn_len.
  apply Forall_firstn. destruct m; [assumption | now inversion H].
Qed.

Lemma replace_with_individual_brackets_Forall (m : text) :
  Forall Q m -> Forall Q (replace_with_individual_brackets m).
Proof.
  intros H. unfold replace_with_individual_brackets.
  apply Forall_join; [repeat constructor; assumption|].
  apply Forall_map.
  eapply Forall_impl;
    [|apply Forall_split_go; [constructor | apply Forall_group1, H]].
  intros n Hn. simpl. constructor; [assumption|].
  apply Forall_app. split; [assumption | repeat constructor; assumption].
Qed.

Lemma findall_Forall (r : regex) (s : text) :
  Forall Q s -> Forall (Forall Q) (findall r s).
Proof.
  intros H. unfold findall. apply Forall_map. apply Forall_forall.
  intros m _. unfold slice. now apply Forall_skipn, Forall_firstn.
Qed.

Lemma fromkeys_Forall (P : text -> Prop) (l : list text) :
  Forall P l -> Forall P (fromkeys l).
Proof.
  rewrite !Forall_forall. intros H x Hx. apply H. now apply fromkeys_in.
Qed.

Lemma deduplicate_group_Forall (set_order : list text -> list text) (m : text) :
  set_order_ok set_order ->
  Forall Q m -> Forall Q (deduplicate_group set_order m).
Proof.
  intros Hok H. unfold deduplicate_group.
  apply Forall_join; [constructor|].
  eapply Permutation_Forall; [symmetry; apply sorted_perm|].
  eapply Permutation_Forall; [symmetry; apply Hok|].
  apply fromkeys_Forall. now apply findall_Forall.
Qed.

Lemma canonical_Forall (set_order : list text -> list text) (s : text) :
  set_order_ok set_order ->
  Forall Q s -> Forall Q (dedupe_adjacent set_order (split_groups s)).
Proof.
  intros Hok H. unfold dedupe_adjacent, split_groups, Re.sub.
  apply sub_go_Forall; [intros m; now apply deduplicate_group_Forall|].
  apply sub_go_Forall; [|assumption].
  apply replace_with_individual_brackets_Forall.
Qed.

End Preserved.

Lemma no_terminator_Forall (s : text) :
  no_terminator s = true <-> Forall (fun c => terminator c = false) s.
Proof.
  unfold no_terminator. rewrite forallb_forall, Forall_forall.
  split; intros H c Hc; specialize (H c Hc).
  - now apply negb_true_iff.
  - now apply negb_true_iff.
Qed.

Lemma finditer_eos_none (total : nat) (s : text) :
  Forall (fun c => terminator c = false) s ->
  forall skip pos, finditer_go eos_pattern total skip pos s = [].
Proof.
  induction 1 as [|c s Hc Hs IH]; intros skip pos; [reflexivity|].
  simpl. destruct skip; [|apply IH].
  unfold match_at, eos_pattern. cbn [bt]. rewrite Hc. apply IH.
Qed.

Lemma sub_go_open_bracket (r : regex) (repl : text -> text) (total : nat)
  (s : text) :
  contains_char "[" s = false ->
  sub_go (Seq (Lit "[") r) repl total 0 s = s.
Proof.
  unfold contains_char. induction s as [|c s IH]; [reflexivity|].
  cbn [existsb]. intros H. apply orb_false_iff in H. destruct H as [Hc Hs].
  cbn [sub_go]. unfold match_at. cbn [bt Lit]. rewrite Hc.
  now rewrite IH.
Qed.

Lemma sub_go_open_bracket' (r r' : regex) (repl : text -> text) (total : nat)
  (s : text) :
  contains_char "[" s = false ->
  sub_go (Seq (Seq (Lit "[") r) r') repl total 0 s = s.
Proof.
  unfold contains_char. induction s as [|c s IH]; [reflexivity|].
  cbn [existsb]. intros H. apply orb_false_iff in H. destruct H as [Hc Hs].
  cbn [sub_go]. unfold match_at. cbn [bt Lit]. rewrite Hc.
  now rewrite IH.
Qed.

(** A text without '.', '!' and '?' is not truncated: the trimmer
    returns it as the splitting of grouped citations and the
    deduplication of adjacent ones have left it, and unchanged when it has
    no '[' either. *)
Lemma no_terminator_no_truncation
  (set_order : list text -> list text) (text0 : text) :
  set_order_ok set_order ->
  no_terminator text0 = true ->
  remove_uncompleted_sentences_with_citations set_order text0
  = dedupe_adjacent set_order (split_groups text0)
  /\ (contains_char "[" text0 = false ->
      remove_uncompleted_sentences_with_citations set_order text0 = text0).
Proof.
  intros Hok Hn.
  assert (E : remove_uncompleted_sentences_with_citations set_order text0
              = dedupe_adjacent set_order (split_groups text0)).
  { unfold remove_uncompleted_sentences_with_citations, finditer.
    rewrite finditer_eos_none; [reflexivity|].
    apply canonical_Forall; try reflexivity; [assumption|].
    now apply no_terminator_Forall. }
  split; [exact E|].
  intros Hb. rewrite E. unfold dedupe_adjacent, split_groups, Re.sub.
  unfold grouped_citation at 2. rewrite sub_go_open_bracket by assumption.
  unfold grouped_citation. rewrite sub_go_open_bracket by assumption.
  unfold adjacent_citations, Plus, citation.
  now apply sub_go_open_bracket'.
Qed.

(** C3 fails on the code.  The docstring says that only the text up to
    the last complete sentence is kept, and after a complete sentence the
    code does drop the unfinished one; but it cuts only when a sentence
    end was found, so that a text that is nothing but an unfinished
    sentence comes back whole, not empty. *)
Theorem C3_unfinished_text_returned (set_order : list text -> list text) :
  remove_uncompleted_sentences_with_citations set_order (str "hello")
  = str "hello"
  /\ remove_uncompleted_sentences_with_citations set_order (str "But the")
     = str "But the"
  /\ remove_uncompleted_sentences_with_citations set_order
       (str "It is so. But the")
     = str "It is so.".
Proof.
  refine (conj _ (conj _ _)); vm_compute; reflexivity.
Qed.

(** *** Runs of citations *)

Lemma or_else_none_r {A} (x : option A) : or_else x None = x.
Proof. now destruct x. Qed.

Lemma bt_Chr_cons {A} (total : nat) (p : ascii -> bool) (c : ascii) (s : text)
  (k : text -> option A) :
  bt total (Chr p) (c :: s) k = if p c then k s else None.
Proof. reflexivity. Qed.

Lemma bt_Chr_nil {A} (total : nat) (p : ascii -> bool) (k : text -> option A) :
  bt total (Chr p) [] k = None.
Proof. reflexivity. Qed.

Lemma bt_Seq {A} (total : nat) (a b : regex) (s : text) (k : text -> option A) :
  bt total (Seq a b) s k = bt total a s (fun s' => bt total b s' k).
Proof. reflexivity. Qed.

Lemma bt_Opt {A} (total : nat) (a : regex) (s : text) (k : text -> option A) :
  bt total (Opt a) s k = or_else (bt total a s k) (k s).
Proof. reflexivity. Qed.

Lemma bt_star_run {A} (total : nat) (p : ascii -> bool) (k : text -> option A)
  (tail : text) :
  (forall c t, p c = true -> k (c :: t) = None) ->
  match tail with [] => True | c :: _ => p c = false end ->
  forall xs : text,
    Forall (fun c => p c = true) xs ->
    bt total (Star (Chr p)) (xs ++ tail) k = k tail.
Proof.
  intros Hk Ht. induction 1 as [|c xs Hc Hxs IH].
  - simpl app. rewrite bt_Star_unfold.
    destruct tail as [|c t]; [reflexivity|].
    rewrite bt_Chr_cons. now rewrite Ht.
  - simpl app. rewrite bt_Star_unfold, bt_Chr_cons. rewrite Hc.
    replace (length (xs ++ tail) <? length (c :: xs ++ tail)) with true
      by (symmetry; apply Nat.ltb_lt; simpl; lia).
    rewrite IH, (Hk c _ Hc). apply or_else_none_r.
Qed.

Lemma bt_citation_bracket {A} (total : nat) (d rest : text)
  (k : text -> option A) :
  digits d ->
  bt total citation (bracket d ++ rest) k = k rest.
Proof.
  intros [Hne Hd]. destruct d as [|c d]; [congruence|].
  inversion Hd as [|? ? Hc Hd']; subst.
  unfold citation, bracket, Plus, digit, Lit. simpl str. simpl app.
  rewrite !bt_Seq, bt_Chr_cons, Ascii.eqb_refl, !bt_Seq, bt_Chr_cons, Hc.
  rewrite <- app_assoc. simpl app.
  rewrite bt_star_run with (tail := "]"%char :: rest); try assumption.
  - now rewrite bt_Chr_cons, Ascii.eqb_refl.
  - intros c' t Hc'. rewrite bt_Chr_cons.
    destruct (Ascii.eqb "]" c') eqn:E; [|reflexivity].
    apply Ascii.eqb_eq in E. subst c'. discriminate.
  - reflexivity.
Qed.

Lemma match_at_citation_bracket (total : nat) (d rest : text) :
  digits d ->
  match_at total citation (bracket d ++ rest) = Some (length (bracket d)).
Proof.
  intros H. unfold match_at. rewrite bt_citation_bracket by assumption.
  f_equal. rewrite length_app. lia.
Qed.

Lemma bracket_length (d : text) : length (bracket d) = S (S (length d)).
Proof. unfold bracket. simpl. rewrite length_app. simpl. lia. Qed.

Lemma bt_star_brackets {A} (total : nat) (k : text -> option A) (v : A) :
  k [] = Some v ->
  forall ds : list text,
    Forall digits ds ->
    bt total (Star citation) (concat (map bracket ds)) k = Some v.
Proof.
  intros Hk. induction 1 as [|d ds Hd Hds IH].
  - simpl. exact Hk.
  - cbn [concat map]. rewrite bt_Star_unfold.
    rewrite bt_citation_bracket by assumption.
    replace (length (concat (map bracket ds))
             <? length (bracket d ++ concat (map bracket ds))) with true.
    + now rewrite IH.
    + symmetry. apply Nat.ltb_lt. rewrite length_app, bracket_length. lia.
Qed.

Lemma match_at_adjacent_run (total : nat) (ds : list text) :
  ds <> [] -> Forall digits ds ->
  match_at total adjacent_citations (concat (map bracket ds))
  = Some (length (concat (map bracket ds))).
Proof.
  intros Hne H. destruct ds as [|d ds]; [congruence|].
  inversion H; subst. unfold match_at, adjacent_citations, Plus.
  rewrite bt_Seq. cbn [concat map]. rewrite bt_citation_bracket by assumption.
  rewrite bt_star_brackets
    with (v := length (bracket d ++ concat (map bracket ds)) - 0);
    [f_equal; lia | reflexivity | assumption].
Qed.

Lemma sub_go_skip_all (r : regex) (repl : text -> text) (total : nat) (s : text) :
  forall skip, length s <= skip -> sub_go r repl total skip s = [].
Proof.
  induction s as [|c s IH]; intros skip H; [reflexivity|].
  simpl in H. destruct skip as [|skip]; [lia|]. simpl. apply IH. lia.
Qed.

Lemma sub_whole (r : regex) (repl : text -> text) (s : text) :
  s <> [] ->
  match_at (length s) r s = Some (length s) ->
  Re.sub r repl s = repl s.
Proof.
  intros Hne H. unfold Re.sub. destruct s as [|c s]; [congruence|].
  cbn [sub_go]. rewrite H. cbn [length].
  rewrite sub_go_skip_all by lia. rewrite app_nil_r.
  change (S (length s)) with (length (c :: s)). now rewrite firstn_all.
Qed.

Lemma finditer_go_skip (r : regex) (total : nat) (x y : text) :
  forall pos,
    finditer_go r total (length x) pos (x ++ y)
    = finditer_go r total 0 (pos + length x) y.
Proof.
  induction x as [|c x IH]; intros pos; simpl.
  - now rewrite Nat.add_0_r.
  - rewrite IH. f_equal. lia.
Qed.

Lemma slice_middle (pre b rest : text) :
  slice (length pre) (length pre + length b) (pre ++ b ++ rest) = b.
Proof.
  unfold slice. rewrite firstn_app.
  replace (length pre + length b - length pre) with (length b) by lia.
  rewrite firstn_all2 by lia.
  rewrite firstn_app, Nat.sub_diag, firstn_O, app_nil_r, firstn_all.
  rewrite skipn_app, Nat.sub_diag. simpl skipn at 2.
  now rewrite skipn_all.
Qed.

Lemma finditer_go_match (r : regex) (total pos : nat) (x y : text) :
  x <> [] ->
  match_at total r (x ++ y) = Some (length x) ->
  finditer_go r total 0 pos (x ++ y)
  = (pos, pos + length x) :: finditer_go r total 0 (pos + length x) y.
Proof.
  intros Hne H. destruct x as [|c x]; [congruence|].
  cbn [app length] in *. cbn [finditer_go]. rewrite H.
  rewrite finditer_go_skip. do 2 f_equal. lia.
Qed.

Lemma findall_go_brackets (total : nat) (ds : list text) :
  Forall digits ds ->
  forall pre : text,
    map (fun m => slice (fst m) (snd m) (pre ++ concat (map bracket ds)))
      (finditer_go citation total 0 (length pre) (concat (map bracket ds)))
    = map bracket ds.
Proof.
  induction 1 as [|d ds Hd Hds IH]; intros pre; [reflexivity|].
  cbn [concat map].
  rewrite finditer_go_match.
  - cbn [map fst snd]. f_equal; [apply slice_middle|].
    rewrite app_assoc, <- length_app. apply IH.
  - unfold bracket. discriminate.
  - now apply match_at_citation_bracket.
Qed.

Lemma findall_brackets (ds : list text) :
  Forall digits ds ->
  findall citation (concat (map bracket ds)) = map bracket ds.
Proof.
  intros H. unfold findall, finditer.
  apply (findall_go_brackets _ ds H []).
Qed.

Lemma join_nil (l : list text) : join [] l = concat l.
Proof.
  induction l as [|p l IH]; [reflexivity|].
  destruct l as [|q l]; simpl in *; [now rewrite app_nil_r | now rewrite IH].
Qed.

Lemma insert_by_sorted (key : text -> Z) (x : text) (l : list text) :
  StronglySorted (fun a b => (key a <= key b)%Z) l ->
  StronglySorted (fun a b => (key a <= key b)%Z) (insert_by key x l).
Proof.
  induction l as [|y l IH]; intros H; simpl.
  - repeat constructor.
  - inversion H as [|? ? Hl Hy]; subst.
    destruct (key x <=? key y)%Z eqn:E.
    + constructor; [assumption|]. constructor; [lia|].
      eapply Forall_impl; [|exact Hy]. simpl. intros. lia.
    + constructor; [now apply IH|].
      eapply Permutation_Forall; [symmetry; apply insert_by_perm|].
      constructor; [lia | assumption].
Qed.

Lemma sorted_sorted (key : text -> Z) (l : list text) :
  StronglySorted (fun a b => (key a <= key b)%Z) (sorted key l).
Proof.
  induction l as [|x l IH]; simpl; [constructor|].
  now apply insert_by_sorted.
Qed.

Lemma marker_char_rejects (w : ascii) :
  marker_char w = false -> rejects w adjacent_citations = true.
Proof.
  unfold marker_char. intros H.
  apply orb_false_iff in H. destruct H as [H H3].
  apply orb_false_iff in H. destruct H as [H1 H2].
  unfold adjacent_citations, citation, Plus, digit, Lit. cbn [rejects].
  now rewrite H1, H2, H3.
Qed.

Lemma isspace_not_marker_char (w : ascii) :
  isspace w = true -> marker_char w = false.
Proof.
  destruct w as [b0 b1 b2 b3 b4 b5 b6 b7].
  destruct b0, b1, b2, b3, b4, b5, b6, b7; vm_compute; congruence.
Qed.

Lemma deduplicate_run (set_order : list text -> list text) (ds : list text) :
  ds <> [] -> Forall digits ds ->
  dedupe_adjacent set_order (concat (map bracket ds))
  = concat (sorted citation_key (set_order (map bracket ds))).
Proof.
  intros Hne Hd. unfold dedupe_adjacent. rewrite sub_whole.
  - unfold deduplicate_group. now rewrite join_nil, findall_brackets.
  - destruct ds as [|d ds]; [congruence|]. unfold bracket. discriminate.
  - now apply match_at_adjacent_run.
Qed.

(** ** The citation remapper *)

(** *** str.startswith and str.replace *)

Lemma startswith_app (p s : text) : startswith p (p ++ s) = true.
Proof.
  induction p as [|c p IH]; simpl; [reflexivity|].
  now rewrite Ascii.eqb_refl.
Qed.

Lemma startswith_split (p s : text) :
  startswith p s = true -> exists rest, s = p ++ rest.
Proof.
  revert s. induction p as [|c p IH]; intros s H; simpl in *; [eauto|].
  destruct s as [|d s]; [discriminate|].
  apply andb_true_iff in H. destruct H as [Hc Hp].
  apply Ascii.eqb_eq in Hc. subst d.
  destruct (IH s Hp) as [rest ->]. eauto.
Qed.

Lemma startswith_cons (c d : ascii) (p s : text) :
  startswith (c :: p) (d :: s) = Ascii.eqb c d && startswith p s.
Proof. reflexivity. Qed.

Lemma startswith_app_same (x p s : text) :
  startswith (x ++ p) (x ++ s) = startswith p s.
Proof.
  induction x as [|c x IH]; simpl; [reflexivity|].
  now rewrite Ascii.eqb_refl.
Qed.

Lemma contains_suffix (p a b : text) :
  contains p (a ++ b) = false -> contains p b = false.
Proof.
  induction a as [|c a IH]; simpl; [auto|].
  intros H. apply orb_false_iff in H. tauto.
Qed.

Lemma contains_head (p s : text) :
  contains p s = false -> startswith p s = false.
Proof.
  destruct s; simpl; intros H; apply orb_false_iff in H; tauto.
Qed.

Lemma replace_go_skip (old new x s : text) :
  replace_go old new (length x) (x ++ s) = replace_go old new 0 s.
Proof. induction x as [|c x IH]; simpl; auto. Qed.

Lemma replace_nonempty (old new s : text) :
  old <> [] -> replace old new s = replace_go old new 0 s.
Proof. destruct old; [congruence | reflexivity]. Qed.

Lemma replace_match (old new s : text) :
  old <> [] -> replace old new (old ++ s) = new ++ replace old new s.
Proof.
  intros H. rewrite !replace_nonempty by assumption.
  destruct old as [|c old]; [congruence|].
  cbn [app replace_go].
  change (c :: old ++ s) with ((c :: old) ++ s). rewrite startswith_app.
  replace (length (c :: old) - 1) with (length old) by (simpl; lia).
  now rewrite replace_go_skip.
Qed.

Lemma replace_pass (old new : text) (c : ascii) (s : text) :
  old <> [] -> startswith old (c :: s) = false ->
  replace old new (c :: s) = c :: replace old new s.
Proof.
  intros H Hs. rewrite !replace_nonempty by assumption.
  cbn [replace_go]. now rewrite Hs.
Qed.

(** Characters that are not the first of [old] are passed over. *)
Lemma replace_pass_all (h : ascii) (old new w s : text) :
  Forall (fun c => Ascii.eqb h c = false) w ->
  replace (h :: old) new (w ++ s) = w ++ replace (h :: old) new s.
Proof.
  induction 1 as [|c w Hc Hw IH]; [reflexivity|].
  simpl app. rewrite replace_pass; [now rewrite IH | discriminate|].
  rewrite startswith_cons. now rewrite Hc.
Qed.

(** *** str(n) *)

Lemma num_char_plain (c : ascii) :
  num_char c = true ->
  Ascii.eqb "[" c = false /\ Ascii.eqb "]" c = false
  /\ Ascii.eqb "_" c = false.
Proof.
  destruct c as [b0 b1 b2 b3 b4 b5 b6 b7].
  destruct b0, b1, b2, b3, b4, b5, b6, b7; vm_compute; intros H;
    repeat split; congruence.
Qed.

Lemma string_of_uint_chars (d : Decimal.uint) :
  Forall (fun c => num_char c = true) (str (NilEmpty.string_of_uint d)).
Proof. induction d; simpl; constructor; auto. Qed.

Lemma str_of_int_chars (n : Z) :
  Forall (fun c => num_char c = true) (str_of_int n).
Proof.
  unfold str_of_int.
  assert (H : forall d,
             Forall (fun c => num_char c = true)
               (str (NilZero.string_of_uint d))).
  { intros d. destruct d; try apply (string_of_uint_chars (_ d)).
    repeat constructor. }
  destruct (Z.to_int n) as [d|d]; simpl; [apply H|].
  constructor; [reflexivity | apply H].
Qed.

Lemma str_of_int_nonempty (n : Z) :
  exists h t, str_of_int n = h :: t /\ num_char h = true.
Proof.
  pose proof (str_of_int_chars n) as H.
  destruct (str_of_int n) as [|h t] eqn:E.
  - exfalso. unfold str_of_int in E.
    destruct (Z.to_int n) as [d|d]; simpl in E; [|discriminate].
    destruct d; discriminate.
  - inversion H; subst. eauto.
Qed.

Lemma to_int_normal (n : Z) :
  Z.to_int n <> Decimal.Pos Decimal.Nil
  /\ Z.to_int n <> Decimal.Neg Decimal.Nil.
Proof.
  assert (E : Z.to_int n = Decimal.norm (Z.to_int n)).
  { rewrite <- DecimalZ.to_of. now rewrite DecimalZ.of_to. }
  split; intros H; rewrite H in E; discriminate.
Qed.

Lemma str_inj (a b : string) : str a = str b -> a = b.
Proof.
  intros H. apply (f_equal string_of_list_ascii) in H. unfold str in H.
  now rewrite !string_of_list_ascii_of_string in H.
Qed.

Lemma str_of_int_inj (a b : Z) : str_of_int a = str_of_int b -> a = b.
Proof.
  unfold str_of_int. intros H. apply str_inj in H.
  apply DecimalZ.to_int_inj.
  destruct (to_int_normal a) as [Ha1 Ha2], (to_int_normal b) as [Hb1 Hb2].
  pose proof (NilZero.isi (Z.to_int a) Ha1 Ha2) as Ea.
  pose proof (NilZero.isi (Z.to_int b) Hb1 Hb2) as Eb.
  rewrite H in Ea. congruence.
Qed.

(** Two numbers followed by the same character that is none of theirs. *)
Lemma startswith_number (x : ascii) (a b p s : text) :
  Forall (fun c => Ascii.eqb x c = false) a ->
  Forall (fun c => Ascii.eqb x c = false) b ->
  startswith (a ++ x :: p) (b ++ x :: s) = true -> a = b.
Proof.
  intros Ha. revert b. induction Ha as [|c a Hc Ha IH]; intros b Hb H.
  - destruct b as [|d b]; [reflexivity|]. simpl in H.
    inversion Hb; subst. rewrite andb_true_iff in H. destruct H as [H _].
    congruence.
  - destruct b as [|d b]; simpl in H.
    + rewrite andb_true_iff in H. destruct H as [H _].
      rewrite Ascii.eqb_sym in H. congruence.
    + inversion Hb as [|? ? Hd Hb']; subst. rewrite andb_true_iff in H.
      destruct H as [E1 E2].
      apply Ascii.eqb_eq in E1. subst d. f_equal. now apply IH.
Qed.

Lemma str_of_int_no (x : ascii) (n : Z) :
  num_char x = false ->
  Forall (fun c => Ascii.eqb x c = false) (str_of_int n).
Proof.
  intros Hx. eapply Forall_impl; [|apply str_of_int_chars].
  simpl. intros c Hc. destruct (Ascii.eqb x c) eqn:E; [|reflexivity].
  apply Ascii.eqb_eq in E. congruence.
Qed.

Lemma marker_prefix_inj (k j : Z) (s : text) :
  startswith (marker k) (marker j ++ s) = true -> k = j.
Proof.
  unfold marker. simpl str. intros H.
  rewrite <- !app_assoc in H. simpl app in H.
  rewrite startswith_cons in H. apply andb_true_iff in H. destruct H as [_ H].
  apply str_of_int_inj.
  apply (startswith_number "]" _ _ [] s); try (now apply str_of_int_no).
  exact H.
Qed.

Lemma placeholder_prefix_inj (k j : Z) (s : text) :
  startswith (placeholder k) (placeholder j ++ s) = true -> k = j.
Proof.
  unfold placeholder. intros H.
  rewrite <- !app_assoc in H. rewrite startswith_app_same in H.
  apply str_of_int_inj.
  apply (startswith_number "_" _ _ (str "_") (str "_" ++ s));
    try (now apply str_of_int_no).
  exact H.
Qed.

(** *** Texts as tokens *)

Lemma render_cons_char (f : Z -> text) (c : ascii) (toks : list token) :
  render f (Char c :: toks) = c :: render f toks.
Proof. reflexivity. Qed.

Lemma render_cons_mark (f : Z -> text) (k : Z) (toks : list token) :
  render f (Mark k :: toks) = f k ++ render f toks.
Proof. reflexivity. Qed.

Lemma render_chars (f : Z -> text) (w : text) (toks : list token) :
  render f (map Char w ++ toks) = w ++ render f toks.
Proof. induction w as [|c w IH]; simpl; [reflexivity | now rewrite <- IH]. Qed.

Lemma marker_shape (k : Z) :
  marker k = "["%char :: str_of_int k ++ ["]"%char].
Proof. reflexivity. Qed.

Lemma placeholder_shape (k : Z) :
  placeholder k
  = "_"%char :: "_"%char :: str "PLACEHOLDER"
      ++ "_"%char :: str_of_int k ++ ["_"%char; "_"%char].
Proof. reflexivity. Qed.

Lemma held_guarded (done : list Z) : guarded (held done).
Proof.
  intros j. unfold held. destruct (mem j done).
  - rewrite placeholder_shape. eauto.
  - rewrite marker_shape. eauto.
Qed.

Lemma released_guarded (done : list (Z * Z)) : guarded (released done).
Proof.
  intros j. unfold released. destruct (lookup j done).
  - rewrite marker_shape. eauto.
  - rewrite placeholder_shape. eauto.
Qed.

Lemma marker_guarded : guarded marker.
Proof. intros j. rewrite marker_shape. eauto. Qed.

(** Plain characters at the head of a text are tokens of their own. *)
Lemma render_plain_prefix (f : Z -> text) (w : text) :
  guarded f ->
  Forall plain w ->
  forall (y : text) (toks : list token),
    startswith (w ++ y) (render f toks) = true ->
    exists toks1,
      toks = map Char w ++ toks1 /\ startswith y (render f toks1) = true.
Proof.
  intros Hf. induction 1 as [|a w [Ha1 Ha2] Hw IH]; intros y toks H.
  - exists toks. split; [reflexivity | exact H].
  - destruct toks as [|[c|j] toks].
    + discriminate.
    + rewrite render_cons_char in H. simpl app in H.
      rewrite startswith_cons in H. apply andb_true_iff in H.
      destruct H as [Hc H]. apply Ascii.eqb_eq in Hc. subst c.
      destruct (IH y toks H) as (toks1 & -> & H1).
      exists toks1. split; [reflexivity | exact H1].
    + exfalso. rewrite render_cons_mark in H. simpl app in H.
      destruct (Hf j) as [t [E|E]]; rewrite E in H; simpl app in H;
        rewrite startswith_cons in H; apply andb_true_iff in H;
        destruct H as [Hc _]; apply Ascii.eqb_eq in Hc; subst a;
        discriminate.
Qed.

Lemma render_plain_transfer (f g : Z -> text) (w : text) (toks : list token) :
  guarded f ->
  Forall plain w ->
  startswith w (render f toks) = true ->
  startswith w (render g toks) = true.
Proof.
  intros Hf Hw H. rewrite <- (app_nil_r w) in H.
  destruct (render_plain_prefix f w Hf Hw [] toks H) as (toks1 & -> & _).
  rewrite render_chars. rewrite <- (app_nil_r w) at 1.
  rewrite startswith_app_same. reflexivity.
Qed.

Lemma num_char_is_plain (c : ascii) : num_char c = true -> plain c.
Proof. intros H. apply num_char_plain in H. unfold plain. tauto. Qed.

Lemma number_then_close_plain (k : Z) :
  Forall plain (str_of_int k ++ ["]"%char]).
Proof.
  apply Forall_app. split.
  - eapply Forall_impl; [|apply str_of_int_chars].
    intros c. apply num_char_is_plain.
  - repeat constructor.
Qed.

Lemma tokens_ok_tail (keys : list Z) (t : token) (toks : list token) :
  tokens_ok keys (t :: toks) -> tokens_ok keys toks.
Proof. destruct t; simpl; tauto. Qed.

Lemma tokens_ok_clean (keys : list Z) (toks : list token) :
  tokens_ok keys toks ->
  startswith (str "PLACEHOLDER_") (render marker toks) = false.
Proof. destruct toks; simpl; tauto. Qed.

Lemma render_ext (keys : list Z) (f g : Z -> text) (toks : list token) :
  tokens_ok keys toks ->
  (forall j, In j keys -> f j = g j) ->
  render f toks = render g toks.
Proof.
  intros H Hfg. induction toks as [|[c|j] toks IH]; [reflexivity| |].
  - rewrite !render_cons_char. f_equal. apply IH.
    now apply tokens_ok_tail in H.
  - rewrite !render_cons_mark. destruct H as (_ & Hj & H).
    rewrite (Hfg j Hj). f_equal. now apply IH.
Qed.

(** *** The first loop: markers to placeholders *)

Lemma marker_nonempty (k : Z) : marker k <> [].
Proof. rewrite marker_shape. discriminate. Qed.

Lemma placeholder_nonempty (k : Z) : placeholder k <> [].
Proof. rewrite placeholder_shape. discriminate. Qed.

Lemma marker_not_at (k : Z) (c : ascii) (t : text) :
  Ascii.eqb "[" c = false -> startswith (marker k) (c :: t) = false.
Proof.
  intros H. rewrite marker_shape, startswith_cons. now rewrite H.
Qed.

Lemma placeholder_not_at (k : Z) (c : ascii) (t : text) :
  Ascii.eqb "_" c = false -> startswith (placeholder k) (c :: t) = false.
Proof.
  intros H. rewrite placeholder_shape, startswith_cons. now rewrite H.
Qed.

Lemma replace_pass_run (old new w s : text) :
  old <> [] ->
  Forall (fun c => forall t, startswith old (c :: t) = false) w ->
  replace old new (w ++ s) = w ++ replace old new s.
Proof.
  intros Hne. induction 1 as [|c w Hc Hw IH]; [reflexivity|].
  simpl app. rewrite replace_pass by auto. now rewrite IH.
Qed.

Lemma no_open_in_placeholder (j : Z) :
  Forall (fun c => Ascii.eqb "[" c = false) (placeholder j).
Proof.
  rewrite placeholder_shape.
  repeat (constructor; [reflexivity|]).
  apply Forall_app. split; [|repeat constructor].
  now apply str_of_int_no.
Qed.

Lemma no_open_after_open (j : Z) :
  Forall (fun c => Ascii.eqb "[" c = false) (str_of_int j ++ ["]"%char]).
Proof.
  apply Forall_app. split; [now apply str_of_int_no | repeat constructor].
Qed.

Lemma marker_over_placeholder (k j : Z) (new s : text) :
  replace (marker k) new (placeholder j ++ s)
  = placeholder j ++ replace (marker k) new s.
Proof.
  apply replace_pass_run; [apply marker_nonempty|].
  eapply Forall_impl; [|apply no_open_in_placeholder].
  intros c Hc t. now apply marker_not_at.
Qed.

Lemma marker_over_marker (k j : Z) (new s : text) :
  k <> j ->
  replace (marker k) new (marker j ++ s)
  = marker j ++ replace (marker k) new s.
Proof.
  intros Hkj.
  assert (H0 : startswith (marker k) (marker j ++ s) = false).
  { destruct (startswith (marker k) (marker j ++ s)) eqn:E; [|reflexivity].
    now apply marker_prefix_inj in E. }
  rewrite (marker_shape j) in *. simpl app in *.
  rewrite replace_pass by (apply marker_nonempty || assumption).
  f_equal. apply replace_pass_run; [apply marker_nonempty|].
  eapply Forall_impl; [|apply no_open_after_open].
  intros c Hc t. now apply marker_not_at.
Qed.

Lemma mem_cons (j k : Z) (done : list Z) :
  mem j (k :: done) = (j =? k)%Z || mem j done.
Proof. reflexivity. Qed.

Lemma first_loop_char (keys : list Z) (f : Z -> text) (k : Z) (c : ascii)
  (toks : list token) :
  guarded f ->
  In k keys ->
  tokens_ok keys (Char c :: toks) ->
  startswith (marker k) (c :: render f toks) = false.
Proof.
  intros Hf Hk (_ & Hno & _). specialize (Hno k Hk).
  destruct (startswith (marker k) (c :: render f toks)) eqn:E;
    [exfalso | reflexivity].
  rewrite marker_shape in *. rewrite startswith_cons in *.
  apply andb_true_iff in E. destruct E as [E1 E2]. rewrite E1 in Hno.
  rewrite (render_plain_transfer f marker) in Hno;
    [discriminate | assumption | apply number_then_close_plain | exact E2].
Qed.

Lemma first_loop_step (keys : list Z) (done : list Z) (k : Z)
  (toks : list token) :
  In k keys ->
  tokens_ok keys toks ->
  replace (marker k) (placeholder k) (render (held done) toks)
  = render (held (k :: done)) toks.
Proof.
  intros Hk. induction toks as [|[c|j] toks IH]; intros Hok.
  - rewrite replace_nonempty by apply marker_nonempty. reflexivity.
  - pose proof (tokens_ok_tail _ _ _ Hok) as Hok'.
    rewrite !render_cons_char. rewrite replace_pass.
    + now rewrite IH.
    + apply marker_nonempty.
    + now apply (first_loop_char keys); [apply held_guarded | |].
  - pose proof (tokens_ok_tail _ _ _ Hok) as Hok'.
    rewrite !render_cons_mark. unfold held at 1 3. rewrite mem_cons.
    destruct (mem j done) eqn:Em.
    + rewrite orb_true_r, marker_over_placeholder. now rewrite IH.
    + rewrite orb_false_r. destruct (j =? k)%Z eqn:Ejk.
      * apply Z.eqb_eq in Ejk. subst j.
        rewrite replace_match by apply marker_nonempty. now rewrite IH.
      * apply Z.eqb_neq in Ejk.
        rewrite marker_over_marker by congruence. now rewrite IH.
Qed.

Lemma first_loop (keys : list Z) (toks : list token) :
  tokens_ok keys toks ->
  forall (todo done : list Z),
    incl todo keys ->
    fold_left
      (fun s original_citation =>
         replace (marker original_citation) (placeholder original_citation) s)
      todo (render (held done) toks)
    = render (held (rev todo ++ done)) toks.
Proof.
  intros Hok. induction todo as [|k todo IH]; intros done Hin.
  - reflexivity.
  - cbn [fold_left].
    rewrite (first_loop_step keys done k toks (Hin k (or_introl eq_refl)) Hok).
    rewrite IH by (intros x Hx; apply Hin; now right).
    simpl rev. now rewrite <- app_assoc.
Qed.

(** *** The second loop: placeholders to new markers *)

Lemma word_plain : Forall plain (str "PLACEHOLDER").
Proof. repeat constructor. Qed.

(** In a text of the second loop the word of the placeholders, followed by
    '_', is followed by another '_': it is the inside of a placeholder. *)
Lemma word_then_underscore (keys : list Z) (done : list (Z * Z))
  (toks : list token) (d : ascii) (y : text) :
  tokens_ok keys toks ->
  startswith (str "PLACEHOLDER_" ++ d :: y) (render (released done) toks)
  = true ->
  d = "_"%char.
Proof.
  intros Hok H.
  change (str "PLACEHOLDER_" ++ d :: y)
    with (str "PLACEHOLDER" ++ "_"%char :: d :: y) in H.
  destruct (render_plain_prefix (released done) (str "PLACEHOLDER")
              (released_guarded done) word_plain _ toks H)
    as (toks1 & -> & H1).
  apply tokens_ok_clean in Hok. rewrite render_chars in Hok.
  destruct toks1 as [|[c|j] toks1].
  - discriminate.
  - exfalso. rewrite render_cons_char in *. rewrite startswith_cons in H1.
    apply andb_true_iff in H1. destruct H1 as [Hc _].
    apply Ascii.eqb_eq in Hc. subst c.
    change (str "PLACEHOLDER" ++ "_"%char :: render marker toks1)
      with (str "PLACEHOLDER_" ++ render marker toks1) in Hok.
    now rewrite startswith_app in Hok.
  - rewrite render_cons_mark in H1. unfold released in H1.
    destruct (lookup j done).
    + rewrite marker_shape in H1. discriminate.
    + rewrite placeholder_shape in H1. simpl app in H1.
      rewrite !startswith_cons in H1.
      apply andb_true_iff in H1. destruct H1 as [_ H1].
      apply andb_true_iff in H1. destruct H1 as [H1 _].
      apply Ascii.eqb_eq in H1. now subst d.
Qed.

Lemma number_head (k : Z) :
  exists h t, str_of_int k = h :: t /\ Ascii.eqb "_" h = false.
Proof.
  destruct (str_of_int_nonempty k) as (h & t & E & Hh).
  exists h, t. split; [assumption|]. now apply num_char_plain in Hh.
Qed.

Lemma placeholder_after_word (keys : list Z) (done : list (Z * Z))
  (toks : list token) (k : Z) :
  tokens_ok keys toks ->
  startswith (str "PLACEHOLDER_" ++ str_of_int k ++ str "__")
    (render (released done) toks) = false.
Proof.
  intros Hok.
  destruct (startswith _ (render (released done) toks)) eqn:E;
    [exfalso | reflexivity].
  destruct (number_head k) as (h & t & Eh & Hh). rewrite Eh in E.
  simpl app in E.
  change ("P"%char :: "L"%char :: "A"%char :: "C"%char :: "E"%char
          :: "H"%char :: "O"%char :: "L"%char :: "D"%char :: "E"%char
          :: "R"%char :: "_"%char :: h :: t ++ str "__")
    with (str "PLACEHOLDER_" ++ h :: t ++ str "__") in E.
  apply (word_then_underscore keys) in E; [|assumption].
  subst h. discriminate.
Qed.

Lemma placeholder_after_underscore (keys : list Z) (done : list (Z * Z))
  (toks : list token) (k : Z) :
  tokens_ok keys toks ->
  startswith (placeholder k) ("_"%char :: render (released done) toks)
  = false.
Proof.
  intros Hok.
  destruct (startswith (placeholder k) _) eqn:E; [exfalso | reflexivity].
  rewrite placeholder_shape in E. rewrite startswith_cons in E.
  apply andb_true_iff in E. destruct E as [_ E].
  destruct toks as [|[c|j] toks].
  - discriminate.
  - rewrite render_cons_char, startswith_cons in E.
    apply andb_true_iff in E. destruct E as [_ E].
    pose proof (placeholder_after_word keys done toks k
                  (tokens_ok_tail _ _ _ Hok)) as Hw.
    change (str "PLACEHOLDER" ++ "_"%char :: str_of_int k
            ++ ["_"%char; "_"%char])
      with (str "PLACEHOLDER_" ++ str_of_int k ++ str "__") in E.
    congruence.
  - rewrite render_cons_mark in E. unfold released in E.
    destruct (lookup j done).
    + rewrite marker_shape in E. discriminate.
    + rewrite placeholder_shape in E. discriminate.
Qed.

Lemma no_underscore_in_marker (x : Z) :
  Forall (fun c => Ascii.eqb "_" c = false) (marker x).
Proof.
  rewrite marker_shape. constructor; [reflexivity|].
  apply Forall_app. split; [now apply str_of_int_no | repeat constructor].
Qed.

Lemma placeholder_over_marker (k x : Z) (new s : text) :
  replace (placeholder k) new (marker x ++ s)
  = marker x ++ replace (placeholder k) new s.
Proof.
  apply replace_pass_run; [apply placeholder_nonempty|].
  eapply Forall_impl; [|apply no_underscore_in_marker].
  intros c Hc t. now apply placeholder_not_at.
Qed.

Lemma placeholder_app_shape (j : Z) (s : text) :
  placeholder j ++ s
  = "_"%char :: "_"%char :: str "PLACEHOLDER"
      ++ "_"%char :: str_of_int j ++ "_"%char :: "_"%char :: s.
Proof.
  rewrite placeholder_shape. simpl. now rewrite <- app_assoc.
Qed.

Lemma placeholder_over_placeholder (keys : list Z) (done : list (Z * Z))
  (toks : list token) (k j : Z) (new : text) :
  tokens_ok keys toks ->
  k <> j ->
  replace (placeholder k) new (placeholder j ++ render (released done) toks)
  = placeholder j ++ replace (placeholder k) new (render (released done) toks).
Proof.
  intros Hok Hkj. set (X := render (released done) toks).
  pose proof (placeholder_nonempty k) as Hne.
  assert (H0 : startswith (placeholder k) (placeholder j ++ X) = false).
  { destruct (startswith (placeholder k) (placeholder j ++ X)) eqn:E;
      [|reflexivity].
    now apply placeholder_prefix_inj in E. }
  destruct (number_head j) as (h & t & Eh & Hh).
  assert (Ht : Forall (fun c => Ascii.eqb "_" c = false) (h :: t)).
  { rewrite <- Eh. now apply str_of_int_no. }
  rewrite (placeholder_app_shape j (replace (placeholder k) new X)).
  rewrite (placeholder_app_shape j X) in *. rewrite Eh in *. simpl app in *.
  (* the two '_' at the head *)
  rewrite replace_pass by assumption.
  rewrite replace_pass
    by (assumption || (rewrite placeholder_shape; reflexivity)).
  (* the word *)
  do 11 (rewrite replace_pass
           by (assumption || (now apply placeholder_not_at))).
  (* the '_' before the number *)
  rewrite replace_pass; [ | assumption|].
  2:{ rewrite placeholder_shape, !startswith_cons. now rewrite Hh. }
  (* the number *)
  change (h :: t ++ "_"%char :: "_"%char :: X)
    with ((h :: t) ++ "_"%char :: "_"%char :: X) at 1.
  rewrite replace_pass_run; [ | assumption|].
  2:{ eapply Forall_impl; [|exact Ht].
      intros c Hc u. now apply placeholder_not_at. }
  (* the two '_' at the end *)
  rewrite replace_pass; [ | assumption|].
  2:{ rewrite placeholder_shape, !startswith_cons.
      change (str "PLACEHOLDER" ++ "_"%char :: str_of_int k
              ++ ["_"%char; "_"%char])
        with (str "PLACEHOLDER_" ++ str_of_int k ++ str "__").
      unfold X. now rewrite (placeholder_after_word keys). }
  rewrite replace_pass; [reflexivity | assumption|].
  now apply (placeholder_after_underscore keys).
Qed.

Lemma lookup_snoc (j k v : Z) (done : list (Z * Z)) :
  lookup j (done ++ [(k, v)])
  = match lookup j done with
    | Some x => Some x
    | None => if (j =? k)%Z then Some v else None
    end.
Proof.
  induction done as [|[k' v'] done IH]; simpl; [reflexivity|].
  destruct (j =? k')%Z; [reflexivity | exact IH].
Qed.

Lemma second_loop_step (keys : list Z) (done : list (Z * Z)) (k v : Z)
  (toks : list token) :
  tokens_ok keys toks ->
  replace (placeholder k) (marker v) (render (released done) toks)
  = render (released (done ++ [(k, v)])) toks.
Proof.
  induction toks as [|[c|j] toks IH]; intros Hok.
  - rewrite replace_nonempty by apply placeholder_nonempty. reflexivity.
  - pose proof (tokens_ok_tail _ _ _ Hok) as Hok'.
    rewrite !render_cons_char. rewrite replace_pass.
    + now rewrite IH.
    + apply placeholder_nonempty.
    + destruct (Ascii.eqb "_" c) eqn:Ec.
      * apply Ascii.eqb_eq in Ec. subst c.
        now apply (placeholder_after_underscore keys).
      * now apply placeholder_not_at.
  - pose proof (tokens_ok_tail _ _ _ Hok) as Hok'.
    rewrite !render_cons_mark. unfold released at 1 3. rewrite lookup_snoc.
    destruct (lookup j done) as [x|] eqn:El.
    + rewrite placeholder_over_marker. now rewrite IH.
    + destruct (j =? k)%Z eqn:Ejk.
      * apply Z.eqb_eq in Ejk. subst j.
        rewrite replace_match by apply placeholder_nonempty. now rewrite IH.
      * apply Z.eqb_neq in Ejk.
        rewrite (placeholder_over_placeholder keys) by (assumption || congruence).
        now rewrite IH.
Qed.

Lemma second_loop (keys : list Z) (toks : list token) :
  tokens_ok keys toks ->
  forall (todo done : list (Z * Z)),
    fold_left
      (fun s item => replace (placeholder (fst item)) (marker (snd item)) s)
      todo (render (released done) toks)
    = render (released (done ++ todo)) toks.
Proof.
  intros Hok. induction todo as [|[k v] todo IH]; intros done.
  - now rewrite app_nil_r.
  - cbn [fold_left fst snd].
    rewrite (second_loop_step keys done k v toks Hok).
    rewrite IH. now rewrite <- app_assoc.
Qed.

(** *** The remap of the spec on tokens *)

Lemma find_marker_some (s : text) (m : list (Z * Z)) (k v : Z) :
  find_marker s m = Some (k, v) ->
  startswith (marker k) s = true /\ In k (map fst m).
Proof.
  induction m as [|[k' v'] m IH]; cbn [find_marker map fst In]; [discriminate|].
  destruct (startswith (marker k') s) eqn:E.
  - intros H. injection H as -> ->. auto.
  - intros H. apply IH in H. tauto.
Qed.

Lemma find_marker_none (s : text) (m : list (Z * Z)) :
  find_marker s m = None ->
  forall k, In k (map fst m) -> startswith (marker k) s = false.
Proof.
  induction m as [|[k' v'] m IH]; cbn [find_marker map fst In]; [tauto|].
  destruct (startswith (marker k') s) eqn:E; [discriminate|].
  intros H k [<-|Hk]; auto.
Qed.

Lemma find_marker_none_iff (s : text) (m : list (Z * Z)) :
  (forall k, In k (map fst m) -> startswith (marker k) s = false) ->
  find_marker s m = None.
Proof.
  induction m as [|[k' v'] m IH]; cbn [find_marker map fst In]; [reflexivity|].
  intros H. rewrite (H k') by now left. apply IH. intros k Hk. apply H. now right.
Qed.

Lemma find_marker_marker (j : Z) (s : text) (m : list (Z * Z)) :
  find_marker (marker j ++ s) m
  = match lookup j m with
    | Some v => Some (j, v)
    | None => None
    end.
Proof.
  induction m as [|[k v] m IH]; cbn [find_marker lookup]; [reflexivity|].
  destruct (j =? k)%Z eqn:E.
  - apply Z.eqb_eq in E. subst k. now rewrite startswith_app.
  - apply Z.eqb_neq in E.
    destruct (startswith (marker k) (marker j ++ s)) eqn:Es; [|exact IH].
    apply marker_prefix_inj in Es. congruence.
Qed.

Lemma lookup_in (j : Z) (m : list (Z * Z)) :
  In j (map fst m) -> exists v, lookup j m = Some v.
Proof.
  induction m as [|[k v] m IH]; simpl; [tauto|].
  intros [->|H].
  - rewrite Z.eqb_refl. eauto.
  - destruct (j =? k)%Z; eauto.
Qed.

Lemma remap_go_skip (m : list (Z * Z)) (x s : text) :
  remap_go m (length x) (x ++ s) = remap_go m 0 s.
Proof. induction x as [|c x IH]; simpl; auto. Qed.

Lemma remap_tokens (m : list (Z * Z)) (toks : list token) :
  tokens_ok (map fst m) toks ->
  remap (render marker toks) m = render (released m) toks.
Proof.
  unfold remap. induction toks as [|[c|j] toks IH]; intros Hok.
  - reflexivity.
  - pose proof (tokens_ok_tail _ _ _ Hok) as Hok'.
    destruct Hok as (_ & Hno & _).
    rewrite !render_cons_char. cbn [remap_go].
    rewrite (find_marker_none_iff _ m Hno). now rewrite IH.
  - pose proof (tokens_ok_tail _ _ _ Hok) as Hok'.
    destruct Hok as (_ & Hj & _).
    rewrite !render_cons_mark.
    destruct (lookup_in j m Hj) as [v Hv].
    pose proof (find_marker_marker j (render marker toks) m) as Hf.
    rewrite Hv in Hf. unfold released at 1. rewrite Hv.
    remember (marker j) as mj eqn:Emj.
    destruct mj as [|c mj]; [symmetry in Emj; now apply marker_nonempty in Emj|].
    cbn [app remap_go] in *. rewrite Hf. rewrite <- Emj.
    replace (length (c :: mj) - 1) with (length mj) by (simpl; lia).
    rewrite remap_go_skip. now rewrite IH.
Qed.

Lemma tokenize (m : list (Z * Z)) (s : text) :
  contains (str "PLACEHOLDER_") s = false ->
  exists toks, render marker toks = s /\ tokens_ok (map fst m) toks.
Proof.
  remember (length s) as n eqn:En. revert s En.
  induction n as [n IH] using lt_wf_ind. intros s En Hs.
  destruct s as [|c s].
  - exists []. split; [reflexivity|]. simpl. auto.
  - destruct (find_marker (c :: s) m) as [[k v]|] eqn:Ef.
    + apply find_marker_some in Ef. destruct Ef as [Hk Hin].
      apply startswith_split in Hk. destruct Hk as [rest Hrest].
      destruct (IH (length rest)) with (s := rest) as (toks & Ht & Hok).
      * subst n. rewrite Hrest, length_app.
        pose proof (marker_nonempty k). destruct (marker k); [congruence|].
        simpl. lia.
      * reflexivity.
      * rewrite Hrest in Hs. now apply contains_suffix in Hs.
      * exists (Mark k :: toks). rewrite render_cons_mark, Ht.
        split; [now symmetry|]. cbn [tokens_ok].
        rewrite render_cons_mark, Ht, <- Hrest.
        split; [now apply contains_head | auto].
    + destruct (IH (length s)) with (s := s) as (toks & Ht & Hok).
      * subst n. simpl. lia.
      * reflexivity.
      * now apply (contains_suffix _ [c]) in Hs.
      * exists (Char c :: toks). rewrite render_cons_char, Ht.
        split; [reflexivity|]. cbn [tokens_ok].
        rewrite render_cons_char, Ht.
        split; [now apply contains_head|]. split; [|assumption].
        now apply find_marker_none.
Qed.

Lemma mem_in (j : Z) (l : list Z) : In j l -> mem j l = true.
Proof.
  intros H. apply existsb_exists. exists j. split; [assumption|].
  apply Z.eqb_refl.
Qed.

Lemma update_citation_index_tokens (m : list (Z * Z)) (toks : list token) :
  tokens_ok (map fst m) toks ->
  update_citation_index (render marker toks) m = render (released m) toks.
Proof.
  intros Hok. unfold update_citation_index.
  replace (render marker toks) with (render (held []) toks)
    by (apply (render_ext (map fst m)); auto).
  rewrite (first_loop (map fst m) toks Hok) by apply incl_refl.
  replace (render (held (rev (map fst m) ++ [])) toks)
    with (render (released []) toks).
  - now rewrite (second_loop (map fst m) toks Hok).
  - apply (render_ext (map fst m)); [assumption|].
    intros j Hj. unfold released, held. simpl.
    rewrite mem_in; [reflexivity|].
    rewrite app_nil_r. now apply in_rev in Hj.
Qed.

(** C1, as amended.  On a text in which the word of the placeholders,
    "PLACEHOLDER_", does not occur, [update_citation_index] is the remap
    of the spec: every occurrence of the marker of a key is rewritten to
    the marker of its value, all at once, whatever keys and values have in
    common; and swapping 1 and 2 in "a[1]b[2]c" gives "a[2]b[1]c". *)
Theorem C1_remap_simultaneous :
  (forall (s : text) (citation_map : list (Z * Z)),
      contains (str "PLACEHOLDER_") s = false ->
      update_citation_index s citation_map = remap s citation_map)
  /\ update_citation_index (str "a[1]b[2]c") [(1, 2); (2, 1)]%Z
     = str "a[2]b[1]c".
Proof.
  split.
  - intros s m Hs. destruct (tokenize m s Hs) as (toks & <- & Hok).
    rewrite update_citation_index_tokens by assumption.
    now rewrite remap_tokens.
  - vm_compute. reflexivity.
Qed.

Lemma C1_remap_simultaneous_witness :
  update_citation_index (str "[1][2] and [2, 1], [3]")
    [(1, 2); (2, 3); (3, 1)]%Z
  = remap (str "[1][2] and [2, 1], [3]") [(1, 2); (2, 3); (3, 1)]%Z.
Proof.
  apply (proj1 C1_remap_simultaneous). vm_compute. reflexivity.
Defined.

(** C1 as stated fails: next to the word of the placeholders a marker is
    lost.  With the items of the map in the order 2, 1, the two [[1]] of
    the text are not rewritten to [[5]], and a [[7]] appears where the
    text has no [[2]]. *)
Lemma C1_counterexample :
  let s := str "[1]PLACEHOLDER_2[1]" in
  let citation_map := [(2, 7); (1, 5)]%Z in
  remap s citation_map = str "[5]PLACEHOLDER_2[5]"
  /\ update_citation_index s citation_map
     = str "__PLACEHOLDER_1[7]PLACEHOLDER_1__"
  /\ update_citation_index s citation_map <> remap s citation_map.
Proof. vm_compute. repeat split. discriminate. Qed.

(** *** The last sentence end *)

Lemma match_at_head_local (p : ascii -> bool) (r : regex) (w : ascii)
  (v : text) (t1 t2 : nat) (c : ascii) (x : text) :
  rejects w r = true ->
  match_at t1 (Seq (Chr p) r) ((c :: x) ++ w :: v)
  = match_at t2 (Seq (Chr p) r) (c :: x).
Proof.
  intros Hr. unfold match_at. simpl app. rewrite !bt_Seq, !bt_Chr_cons.
  destruct (p c); [|reflexivity].
  rewrite (bt_app_reject w v r Hr t1 t2). apply bt_ext. intros y.
  cbn [length]. rewrite !length_app. cbn [length]. apply f_equal. lia.
Qed.

Lemma finditer_go_app_local (r : regex) (w : ascii) (v : text) (t1 t2 : nat) :
  (forall c x, match_at t1 r ((c :: x) ++ w :: v) = match_at t2 r (c :: x)) ->
  forall (u : text) (skip pos : nat),
    skip <= length u ->
    finditer_go r t1 skip pos (u ++ w :: v)
    = finditer_go r t2 skip pos u
        ++ finditer_go r t1 0 (pos + length u) (w :: v).
Proof.
  intros Hloc. induction u as [|c u IH]; intros skip pos Hs.
  - simpl in Hs. assert (skip = 0) as -> by lia.
    simpl app. now rewrite Nat.add_0_r.
  - change ((c :: u) ++ w :: v) with (c :: (u ++ w :: v)).
    cbn [finditer_go]. simpl length.
    replace (pos + S (length u)) with (S pos + length u) by lia.
    destruct skip as [|skip].
    + change (c :: u ++ w :: v) with ((c :: u) ++ w :: v). rewrite Hloc.
      destruct (match_at t2 r (c :: u)) as [[|n]|] eqn:E.
      * apply IH. lia.
      * apply match_at_le in E. simpl in E.
        rewrite IH by lia. reflexivity.
      * apply IH. lia.
    + simpl in Hs. apply IH. lia.
Qed.

Lemma terminator_rejects (t : ascii) :
  terminator t = true -> rejects t eos_tail = true.
Proof.
  unfold terminator. intros H.
  apply orb_true_iff in H. destruct H as [H|H].
  - apply orb_true_iff in H.
    destruct H as [H|H]; apply Ascii.eqb_eq in H; subst t; reflexivity.
  - apply Ascii.eqb_eq in H; subst t; reflexivity.
Qed.

Lemma finditer_eos_last (total pos : nat) (t : ascii) (post : text) (n : nat) :
  match_at total eos_pattern (t :: post) = Some (S n) ->
  Forall (fun c => terminator c = false) post ->
  finditer_go eos_pattern total 0 pos (t :: post) = [(pos, pos + S n)].
Proof.
  intros Hm Hp. cbn [finditer_go]. rewrite Hm.
  now rewrite finditer_eos_none.
Qed.

(** The trimmer cuts at the end of the match that starts at the last
    sentence end. *)
Lemma trimmer_last_match (set_order : list text -> list text)
  (text0 pre : text) (t : ascii) (post : text) (n : nat) :
  dedupe_adjacent set_order (split_groups text0) = pre ++ t :: post ->
  terminator t = true ->
  Forall (fun c => terminator c = false) post ->
  match_at (length (pre ++ t :: post)) eos_pattern (t :: post) = Some (S n) ->
  remove_uncompleted_sentences_with_citations set_order text0
  = strip (pre ++ firstn (S n) (t :: post)).
Proof.
  intros Hc Ht Hp Hm. unfold remove_uncompleted_sentences_with_citations.
  rewrite Hc. unfold finditer.
  rewrite (finditer_go_app_local eos_pattern t post _
             (length (pre ++ t :: post))) by
    (try lia; intros c x; apply match_at_head_local;
     now apply terminator_rejects).
  rewrite (finditer_eos_last _ _ t post n Hm Hp).
  rewrite rev_app_distr. cbn [rev app snd]. simpl plus.
  rewrite firstn_app.
  replace (length pre + S n - length pre) with (S n) by lia.
  now rewrite firstn_all2 by lia.
Qed.

Lemma bt_star_run_some {A} (total : nat) (p : ascii -> bool)
  (k : text -> option A) (tail : text) (v : A) :
  not_at_head p tail ->
  k tail = Some v ->
  forall xs : text,
    Forall (fun c => p c = true) xs ->
    bt total (Star (Chr p)) (xs ++ tail) k = Some v.
Proof.
  intros Ht Hk. induction 1 as [|c xs Hc Hxs IH].
  - simpl app. rewrite bt_Star_unfold.
    destruct tail as [|c t]; [exact Hk|].
    rewrite bt_Chr_cons. simpl in Ht. now rewrite Ht.
  - simpl app. rewrite bt_Star_unfold, bt_Chr_cons, Hc.
    replace (length (xs ++ tail) <? length (c :: xs ++ tail)) with true
      by (symmetry; apply Nat.ltb_lt; simpl; lia).
    now rewrite IH.
Qed.

Lemma match_at_eos_cited (total : nat) (t : ascii) (ws1 d ws2 frag : text) :
  terminator t = true ->
  Forall (fun c => isspace c = true) ws1 ->
  digits d ->
  Forall (fun c => isspace c = true) ws2 ->
  not_at_head isspace frag ->
  match_at total eos_pattern (t :: ws1 ++ bracket d ++ ws2 ++ frag)
  = Some (length (t :: ws1 ++ bracket d ++ ws2)).
Proof.
  intros Ht H1 Hd H2 Hf. unfold match_at, eos_pattern, space.
  rewrite bt_Seq, bt_Chr_cons, Ht, bt_Seq.
  rewrite bt_star_run_some
    with (v := length (t :: ws1 ++ bracket d ++ ws2 ++ frag) - length frag);
    try assumption.
  - f_equal. cbn [length]. rewrite !length_app. lia.
  - unfold bracket. reflexivity.
  - rewrite bt_Seq, bt_Opt, bt_citation_bracket by assumption.
    rewrite bt_star_run_some
      with (v := length (t :: ws1 ++ bracket d ++ ws2 ++ frag) - length frag);
      auto.
Qed.

Lemma bt_citation_not_open {A} (total : nat) (s : text) (k : text -> option A) :
  not_at_head (Ascii.eqb "[") s -> bt total citation s k = None.
Proof.
  intros H. unfold citation, Lit. rewrite bt_Seq.
  destruct s as [|c s]; [reflexivity|].
  rewrite bt_Chr_cons. cbn [not_at_head] in H. now rewrite H.
Qed.

Lemma match_at_eos_plain (total : nat) (t : ascii) (ws1 frag : text) :
  terminator t = true ->
  Forall (fun c => isspace c = true) ws1 ->
  not_at_head isspace frag ->
  not_at_head (Ascii.eqb "[") frag ->
  match_at total eos_pattern (t :: ws1 ++ frag)
  = Some (length (t :: ws1)).
Proof.
  intros Ht H1 Hf Hb. unfold match_at, eos_pattern, space.
  rewrite bt_Seq, bt_Chr_cons, Ht, bt_Seq.
  rewrite bt_star_run_some
    with (v := length (t :: ws1 ++ frag) - length frag);
    try assumption.
  - f_equal. cbn [length]. rewrite !length_app. lia.
  - rewrite bt_Seq, bt_Opt, bt_citation_not_open by assumption.
    cbn [or_else].
    change frag with ([] ++ frag) at 1.
    now rewrite bt_star_run_some
      with (v := length (t :: ws1 ++ frag) - length frag).
Qed.

Lemma isspace_not_terminator (c : ascii) :
  isspace c = true -> terminator c = false.
Proof.
  destruct c as [b0 b1 b2 b3 b4 b5 b6 b7].
  destruct b0, b1, b2, b3, b4, b5, b6, b7; vm_compute; congruence.
Qed.

Lemma marker_char_not_terminator (c : ascii) :
  marker_char c = true -> terminator c = false.
Proof.
  destruct c as [b0 b1 b2 b3 b4 b5 b6 b7].
  destruct b0, b1, b2, b3, b4, b5, b6, b7; vm_compute; congruence.
Qed.

Lemma bracket_no_terminator (d : text) :
  digits d -> Forall (fun c => terminator c = false) (bracket d).
Proof.
  intros [_ Hd]. unfold bracket. simpl. constructor; [reflexivity|].
  apply Forall_app. split; [|repeat constructor].
  eapply Forall_impl; [|exact Hd].
  intros c Hc. apply marker_char_not_terminator. unfold marker_char.
  now rewrite Hc, orb_true_r.
Qed.

Lemma spaces_no_terminator (ws : text) :
  Forall (fun c => isspace c = true) ws ->
  Forall (fun c => terminator c = false) ws.
Proof. apply Forall_impl. exact isspace_not_terminator. Qed.

Lemma firstn_exact {A} (x y : list A) : firstn (length x) (x ++ y) = x.
Proof.
  rewrite firstn_app, Nat.sub_diag, firstn_O, app_nil_r. apply firstn_all.
Qed.

(** C5.  Whatever the order of the set of citations, the text of the
    example is cut after "Paris is the capital.[1]".  In general, once the
    citations are rewritten, the trimmer looks at the last '.', '!' or '?'
    of the text: it keeps the text up to it, the whitespace after it, one
    citation marker if one comes next and the whitespace after that, and
    drops the fragment that follows; the result is stripped. *)
Theorem C5_trimmer_last_sentence (set_order : list text -> list text) :
  set_order_ok set_order ->
  remove_uncompleted_sentences_with_citations set_order
    (str "Paris is the capital.[1] And unfinished")
  = str "Paris is the capital.[1]"
  /\ (forall (text0 pre : text) (t : ascii) (ws1 d ws2 frag : text),
        dedupe_adjacent set_order (split_groups text0)
        = pre ++ t :: ws1 ++ bracket d ++ ws2 ++ frag ->
        terminator t = true ->
        Forall (fun c => isspace c = true) ws1 ->
        digits d ->
        Forall (fun c => isspace c = true) ws2 ->
        no_terminator frag = true ->
        not_at_head isspace frag ->
        remove_uncompleted_sentences_with_citations set_order text0
        = strip (pre ++ t :: ws1 ++ bracket d ++ ws2))
  /\ (forall (text0 pre : text) (t : ascii) (ws1 frag : text),
        dedupe_adjacent set_order (split_groups text0)
        = pre ++ t :: ws1 ++ frag ->
        terminator t = true ->
        Forall (fun c => isspace c = true) ws1 ->
        no_terminator frag = true ->
        not_at_head isspace frag ->
        not_at_head (Ascii.eqb "[") frag ->
        remove_uncompleted_sentences_with_citations set_order text0
        = strip (pre ++ t :: ws1)).
Proof.
  intros Hok. refine (conj _ (conj _ _)).
  - rewrite trimmer_canon by (assumption || (vm_compute; reflexivity)).
    vm_compute. reflexivity.
  - intros text0 pre t ws1 d ws2 frag Hc Ht H1 Hd H2 Hn Hf.
    apply no_terminator_Forall in Hn.
    rewrite (trimmer_last_match set_order text0 pre t
               (ws1 ++ bracket d ++ ws2 ++ frag)
               (length (ws1 ++ bracket d ++ ws2))); try assumption.
    + f_equal. f_equal.
      replace (t :: ws1 ++ bracket d ++ ws2 ++ frag)
        with ((t :: ws1 ++ bracket d ++ ws2) ++ frag)
        by (cbn [app]; now rewrite <- !app_assoc).
      apply (firstn_exact (t :: ws1 ++ bracket d ++ ws2)).
    + apply Forall_app. split; [now apply spaces_no_terminator|].
      apply Forall_app. split; [now apply bracket_no_terminator|].
      apply Forall_app. split; [now apply spaces_no_terminator | assumption].
    + now apply match_at_eos_cited.
  - intros text0 pre t ws1 frag Hc Ht H1 Hn Hf Hb.
    apply no_terminator_Forall in Hn.
    rewrite (trimmer_last_match set_order text0 pre t (ws1 ++ frag)
               (length ws1)); try assumption.
    + f_equal. f_equal.
      apply (firstn_exact (t :: ws1)).
    + apply Forall_app. split; [now apply spaces_no_terminator | assumption].
    + now apply match_at_eos_plain.
Qed.

Lemma C5_trimmer_last_sentence_witness :
  remove_uncompleted_sentences_with_citations fromkeys
    (str "Paris is the capital.[1] And unfinished")
  = str "Paris is the capital.[1]"
  /\ remove_uncompleted_sentences_with_citations fromkeys
       (str "It rains! [2]  or")
     = strip (str "It rains" ++ "!"%char :: str " " ++ bracket (str "2")
              ++ str "  ").
Proof.
  destruct (C5_trimmer_last_sentence fromkeys fromkeys_order_ok)
    as (H1 & H2 & _).
  split; [exact H1|].
  apply (H2 (str "It rains! [2]  or") (str "It rains") "!"%char (str " ")
            (str "2") (str "  ") (str "or")).
  - vm_compute. reflexivity.
  - reflexivity.
  - repeat constructor.
  - split; [discriminate | repeat constructor].
  - repeat constructor.
  - reflexivity.
  - reflexivity.
Defined.

(** *** The nested dicts form a tree *)

Lemma dict_set_Forall_snd (P : nat -> Prop) (k : text) (v : nat)
  (d : Dict.dict nat) :
  Forall (fun kv => P (snd kv)) d -> P v ->
  Forall (fun kv => P (snd kv)) (Dict.set k v d).
Proof.
  induction d as [|[k' v'] d IH]; simpl; intros H Hv.
  - constructor; auto.
  - inversion H; subst. destruct (text_eqb k k'); constructor; auto.
Qed.

Lemma heading_step_parent (line : text) (st : state) (parent : nat) :
  wf_state st ->
  top (pop_while (heading_level line) (current_path st)) = Ok parent ->
  parent < length (objects st).
Proof.
  intros [_ Hpath _] Htop. apply top_in in Htop. destruct Htop as [l Hin].
  pose proof (Forall_pop_while _ (heading_level line) _ Hpath) as HF.
  rewrite Forall_forall in HF. apply (HF _ Hin).
Qed.

Lemma heading_step_ordered (line : text) (st st' : state) :
  wf_state st -> ordered (objects st) ->
  heading_step line st = Ok st' -> ordered (objects st').
Proof.
  intros Hwf Hord Hs.
  destruct (heading_step_inv line st st' Hs)
    as (parent & o & Htop & Ho & Hobj & _).
  pose proof (heading_step_parent line st parent Hwf Htop) as Hlt.
  intros i o' Hi. rewrite Hobj in Hi.
  destruct (Nat.eq_dec parent i) as [<-|Hne].
  - apply deref_nth in Ho.
    rewrite (nth_error_update_at_eq _ _ _ _ Ho) in Hi. injection Hi as <-.
    simpl. apply dict_set_Forall_snd; [|exact Hlt].
    apply Hord. now rewrite nth_error_app1 in Ho.
  - rewrite nth_error_update_at_neq in Hi by assumption.
    destruct (Nat.lt_ge_cases i (length (objects st))) as [Hi'|Hi'].
    + rewrite nth_error_app1 in Hi by assumption. now apply Hord.
    + rewrite nth_error_app2 in Hi by assumption.
      destruct (i - length (objects st)) as [|[|n]]; simpl in Hi;
        try discriminate.
      injection Hi as <-. constructor.
Qed.

Lemma text_step_ordered (line : text) (st st' : state) :
  ordered (objects st) -> text_step line st = Ok st' -> ordered (objects st').
Proof.
  intros Hord Hs. unfold text_step in Hs.
  destruct (top (current_path st)) as [cur|e]; simpl in Hs; [|discriminate].
  destruct (deref (objects st) cur) as [o|e] eqn:Ho; simpl in Hs;
    [|discriminate].
  injection Hs as <-. simpl. intros i o' Hi.
  destruct (Nat.eq_dec cur i) as [<-|Hne].
  - apply deref_nth in Ho.
    rewrite (nth_error_update_at_eq _ _ _ _ Ho) in Hi. injection Hi as <-.
    simpl. now apply Hord.
  - rewrite nth_error_update_at_neq in Hi by assumption. now apply Hord.
Qed.

Lemma run_ordered (lines : list text) :
  forall st st',
    wf_state st -> ordered (objects st) ->
    run lines st = Ok st' -> ordered (objects st').
Proof.
  induction lines as [|line lines IH]; intros st st' Hwf Hord Hr; simpl in Hr.
  - now injection Hr as <-.
  - destruct (step_wf line st Hwf) as (st1 & E & Hwf1).
    rewrite E in Hr. simpl in Hr.
    apply (IH st1 st' Hwf1); [|assumption].
    unfold step in E. destruct (startswith (str "#") line).
    + now apply (heading_step_ordered line st).
    + now apply (text_step_ordered line st).
Qed.

Lemma ordered_initial : ordered (objects initial).
Proof.
  intros [|[|i]] o H; simpl in H; try discriminate.
  injection H as <-. constructor.
Qed.

Lemma reify_cons (fuel : nat) (h : store) (t : text) (r : nat)
  (d : Dict.dict nat) :
  reify (S fuel) h ((t, r) :: d)
  = match nth_error h r, reify (S fuel) h d with
    | Some o, Some rest =>
        match reify fuel h (subsections o) with
        | Some kids => Some ((t, Section (content o) kids) :: rest)
        | None => None
        end
    | _, _ => None
    end.
Proof. reflexivity. Qed.

Lemma reify_total (h : store) :
  ordered h ->
  Forall (wf_section (length h)) h ->
  forall (fuel lo : nat) (d : Dict.dict nat),
    Forall (fun kv => lo <= snd kv < length h) d ->
    length h <= fuel + lo ->
    exists t, reify fuel h d = Some t.
Proof.
  intros Hord Hwf. induction fuel as [|fuel IH]; intros lo d Hd Hf.
  - destruct d as [|kv d]; [now exists []|].
    inversion Hd; subst. simpl in *. lia.
  - induction d as [|[t r] d IHd]; [now exists []|].
    inversion Hd as [|? ? Hr Hd']; subst. simpl in Hr.
    rewrite reify_cons.
    destruct (nth_error h r) as [o|] eqn:Eo;
      [|apply nth_error_None in Eo; lia].
    destruct (IHd Hd') as [rest ->].
    destruct (IH (S r) (subsections o)) as [kids ->]; [|lia|eauto].
    rewrite Forall_forall in Hwf.
    destruct (Hwf o (nth_error_In _ _ Eo)) as (_ & _ & Hb).
    pose proof (Hord r o Eo) as Ho.
    unfold refs_below in Hb. rewrite Forall_forall in *.
    intros kv Hin. specialize (Hb kv Hin). specialize (Ho kv Hin).
    simpl in *. lia.
Qed.

Lemma parse_tree_total (input_string : text) :
  exists t, parse_tree input_string = Some t.
Proof.
  unfold parse_tree, parse_article_into_dict.
  destruct (run_wf (preprocess_content input_string) initial wf_initial)
    as (st & E & Hwf).
  pose proof (run_ordered _ _ _ wf_initial ordered_initial E) as Hord.
  rewrite E. simpl.
  destruct Hwf as [[rest Hr] Hp Hobjs].
  assert (Hroot : root < length (objects st)).
  { rewrite Forall_forall in Hp. apply (Hp (root, (-1)%Z)).
    rewrite Hr. apply in_or_app. right. now left. }
  destruct (deref_below _ _ Hroot) as (o & Ho & Hn). rewrite Ho. simpl.
  apply (reify_total _ Hord Hobjs _ 0); [|lia].
  pose proof Hobjs as Hobjs'. rewrite Forall_forall in Hobjs'.
  destruct (Hobjs' o (nth_error_In _ _ Hn)) as (_ & _ & Hb).
  unfold refs_below in Hb. eapply Forall_impl; [|exact Hb].
  simpl. intros. lia.
Qed.

(** C9.  A heading line has level at least 1 and the root entry is pushed
    with level -1, so that after any sequence of lines the parser has
    raised nothing and the root entry is still at the bottom of
    [current_path]; the parser returns a mapping for every input, and the
    nested dicts behind it form a tree. *)
Theorem C9_parser_total :
  (forall line, startswith (str "#") line = true ->
                (1 <= heading_level line)%Z)
  /\ (forall lines, exists st rest,
         run lines initial = Ok st
         /\ current_path st = rest ++ [(root, (-1)%Z)])
  /\ (forall input_string, exists h d,
         parse_article_into_dict input_string = Ok (h, d))
  /\ (forall input_string, exists t, parse_tree input_string = Some t).
Proof.
  split; [exact heading_level_pos|]. split; [|split].
  - intros lines.
    destruct (run_wf lines initial wf_initial) as (st & E & [[rest Hr] _ _]).
    eauto.
  - intros input_string. destruct (parse_tree_total input_string) as [t Ht].
    unfold parse_tree in Ht.
    destruct (parse_article_into_dict input_string) as [[h d]|e];
      [eauto | discriminate].
  - exact parse_tree_total.
Qed.

Lemma C9_parser_total_witness : (1 <= heading_level (str "## A"))%Z.
Proof.
  apply (proj1 C9_parser_total). vm_compute. reflexivity.
Defined.

(** * Properties of the other functions *)

(** ** truncate_filename *)

Lemma firstn_prefix {A} (n : nat) (l : list A) :
  exists rest, l = firstn n l ++ rest.
Proof. exists (skipn n l). now rewrite firstn_skipn. Qed.

(** X1.  With a limit that is not negative, the file name returned is a
    prefix of the name given, is not longer than the limit, and is the
    name itself when that is not longer than the limit; truncating twice
    is truncating once. *)
Theorem X1_truncate_filename (filename : text) (max_length : Z) :
  (0 <= max_length)%Z ->
  (exists rest, filename = truncate_filename filename max_length ++ rest)
  /\ (Z.of_nat (length (truncate_filename filename max_length))
      <= max_length)%Z
  /\ ((Z.of_nat (length filename) <= max_length)%Z ->
      truncate_filename filename max_length = filename)
  /\ truncate_filename (truncate_filename filename max_length) max_length
     = truncate_filename filename max_length.
Proof.
  intros Hm.
  assert (Hlen : (Z.of_nat (length (truncate_filename filename max_length))
                  <= max_length)%Z).
  { unfold truncate_filename, slice_to.
    destruct (Z.of_nat (length filename) >? max_length)%Z eqn:E; [|lia].
    destruct (0 <=? max_length)%Z eqn:E0; [|lia].
    rewrite length_firstn. lia. }
  assert (Hid : forall f, (Z.of_nat (length f) <= max_length)%Z ->
                          truncate_filename f max_length = f).
  { intros f Hf. unfold truncate_filename.
    destruct (Z.of_nat (length f) >? max_length)%Z eqn:E; [lia | reflexivity]. }
  split; [|split; [exact Hlen | split; [apply Hid | now apply Hid]]].
  unfold truncate_filename, slice_to.
  destruct (Z.of_nat (length filename) >? max_length)%Z.
  - destruct (0 <=? max_length)%Z; apply firstn_prefix.
  - exists []. now rewrite app_nil_r.
Qed.

Lemma X1_truncate_filename_witness :
  truncate_filename (str "a_long_name.txt") 6 = str "a_long"
  /\ (Z.of_nat (length (truncate_filename (str "a_long_name.txt") 6)) <= 6)%Z.
Proof.
  destruct (X1_truncate_filename (str "a_long_name.txt") 6) as (_ & H & _);
    [lia|].
  split; [vm_compute; reflexivity | exact H].
Defined.

(** ** str.strip *)

Lemma dropwhile_not_at_head (p : ascii -> bool) (s : text) :
  not_at_head p (dropwhile p s).
Proof.
  induction s as [|c s IH]; simpl; [exact I|].
  destruct (p c) eqn:E; [exact IH | exact E].
Qed.

Lemma dropwhile_id (p : ascii -> bool) (s : text) :
  not_at_head p s -> dropwhile p s = s.
Proof. destruct s as [|c s]; simpl; [reflexivity|]. now intros ->. Qed.

Lemma dropwhile_suffix (p : ascii -> bool) (s : text) :
  exists pre, s = pre ++ dropwhile p s /\ Forall (fun c => p c = true) pre.
Proof.
  induction s as [|c s (pre & IH & Hp)]; simpl.
  - exists []. split; [reflexivity | constructor].
  - destruct (p c) eqn:E.
    + exists (c :: pre). simpl. split; [now rewrite <- IH | now constructor].
    + exists []. split; [reflexivity | constructor].
Qed.

Lemma strip_by_ends (p : ascii -> bool) (s : text) :
  not_at_head p (strip_by p s) /\ not_at_head p (rev (strip_by p s)).
Proof.
  unfold strip_by. rewrite rev_involutive.
  split; [|apply dropwhile_not_at_head].
  pose proof (dropwhile_not_at_head p s) as Ha.
  destruct (dropwhile_suffix p (rev (dropwhile p s))) as (pre & E & _).
  remember (dropwhile p (rev (dropwhile p s))) as b eqn:Eb. clear Eb.
  apply (f_equal (@rev ascii)) in E.
  rewrite rev_involutive, rev_app_distr in E. rewrite E in Ha.
  destruct (rev b); [exact I | exact Ha].
Qed.

Lemma strip_by_idempotent (p : ascii -> bool) (s : text) :
  strip_by p (strip_by p s) = strip_by p s.
Proof.
  destruct (strip_by_ends p s) as [H1 H2].
  unfold strip_by at 1. rewrite (dropwhile_id p _ H1).
  rewrite (dropwhile_id p _ H2). apply rev_involutive.
Qed.

(** X2.  The title under which a heading is stored neither starts nor ends
    with whitespace, so that stripping it again changes nothing. *)
Theorem X2_heading_title_stripped (line : text) :
  not_at_head isspace (heading_title line)
  /\ not_at_head isspace (rev (heading_title line))
  /\ strip (heading_title line) = heading_title line.
Proof.
  unfold heading_title, strip.
  destruct (strip_by_ends isspace (strip_chars (str "# ") line)) as [H1 H2].
  repeat split; try assumption. apply strip_by_idempotent.
Qed.

(** ** What the sanitizer keeps of a text *)

Lemma splitlines_go_Forall (P : ascii -> Prop) (s : text) :
  Forall (fun c => is_linebreak c = false -> P c) s ->
  forall cur, Forall P cur -> Forall (Forall P) (splitlines_go cur s).
Proof.
  remember (length s) as n eqn:En.
  assert (Hn : length s <= n) by lia. clear En. revert s Hn.
  induction n as [|n IH]; intros s Hn Hs cur Hc.
  - destruct s; [|simpl in Hn; lia].
    simpl. destruct cur; constructor; [now apply Forall_rev | constructor].
  - destruct s as [|c s].
    + simpl. destruct cur; constructor; [now apply Forall_rev | constructor].
    + inversion Hs as [|? ? Hc0 Hs']; subst. simpl in Hn. simpl.
      destruct (Ascii.eqb c cr).
      * destruct s as [|d s'].
        -- constructor; [now apply Forall_rev|]. simpl. constructor.
        -- inversion Hs'; subst. simpl in Hn.
           destruct (Ascii.eqb d nl);
             (constructor; [now apply Forall_rev|]);
             apply IH; try assumption; try constructor; simpl; lia.
      * destruct (is_linebreak c) eqn:E.
        -- constructor; [now apply Forall_rev|].
           apply IH; [lia | assumption | constructor].
        -- apply IH; [lia | assumption|]. constructor; auto.
Qed.

Lemma dropwhile_Forall (P : ascii -> Prop) (p : ascii -> bool) (s : text) :
  Forall P s -> Forall P (dropwhile p s).
Proof.
  induction 1 as [|c s Hc Hs IH]; simpl; [constructor|].
  destruct (p c); [assumption | now constructor].
Qed.

Lemma strip_by_Forall (P : ascii -> Prop) (p : ascii -> bool) (s : text) :
  Forall P s -> Forall P (strip_by p s).
Proof.
  intros H. unfold strip_by.
  now apply Forall_rev, dropwhile_Forall, Forall_rev, dropwhile_Forall.
Qed.

Lemma Forall_filter {A} (P : A -> Prop) (f : A -> bool) (l : list A) :
  Forall P l -> Forall P (filter f l).
Proof.
  induction 1 as [|x l Hx Hl IH]; simpl; [constructor|].
  destruct (f x); [now constructor | assumption].
Qed.

Lemma artifact_filter_Forall (P : text -> Prop) (patterns : list regex) :
  forall lines,
    Forall P lines ->
    Forall P
      (fold_left
         (fun lines pattern =>
            filter (fun line => negb (re_match pattern line)) lines)
         patterns lines).
Proof.
  induction patterns as [|r patterns IH]; intros lines H; simpl; [assumption|].
  apply IH. now apply Forall_filter.
Qed.

(** The characters of a cleaned paragraph are characters of the paragraph,
    spaces and line feeds. *)
Lemma clean_paragraph_Forall (P : ascii -> Prop) (paragraph : text) :
  P " "%char -> P nl ->
  Forall P paragraph -> Forall P (clean_paragraph paragraph).
Proof.
  intros Hsp Hnl H.
  assert (Hl : Forall (Forall P) (splitlines paragraph)).
  { apply splitlines_go_Forall; [|constructor].
    eapply Forall_impl; [|exact H]. auto. }
  unfold clean_paragraph.
  destruct (existsb (contains_char "|") (splitlines paragraph)).
  - apply Forall_join; [repeat constructor|]; assumption.
  - apply Forall_join; [repeat constructor; assumption|].
    apply artifact_filter_Forall. apply Forall_map.
    apply Forall_map. apply Forall_filter.
    eapply Forall_impl; [|apply fromkeys_Forall; exact Hl].
    intros l Hl0. apply sub_go_Forall; [constructor|].
    now apply strip_by_Forall.
Qed.

Lemma clean_paragraph_one_line (paragraph : text) :
  existsb (contains_char "|") (splitlines paragraph) = false ->
  Forall (fun c => is_linebreak c = false) (clean_paragraph paragraph).
Proof.
  intros Ht.
  assert (Hl : Forall (Forall (fun c => is_linebreak c = false))
                 (splitlines paragraph)).
  { apply splitlines_go_Forall; [|constructor].
    apply Forall_forall. auto. }
  unfold clean_paragraph. rewrite Ht.
  apply Forall_join; [repeat constructor|].
  apply artifact_filter_Forall. apply Forall_map.
  apply Forall_map. apply Forall_filter.
  eapply Forall_impl; [|apply fromkeys_Forall; exact Hl].
  intros l Hl0. apply sub_go_Forall; [constructor|].
  now apply strip_by_Forall.
Qed.

Lemma contains_char_In (c : ascii) (s : text) :
  contains_char c s = true <-> In c s.
Proof.
  unfold contains_char. rewrite existsb_exists. split.
  - intros (x & Hx & E). apply Ascii.eqb_eq in E. now subst.
  - intros H. exists c. split; [assumption | apply Ascii.eqb_refl].
Qed.

Lemma join_In (c : ascii) (sep : text) (parts : list text) (p : text) :
  In p parts -> In c p -> In c (join sep parts).
Proof.
  induction parts as [|q parts IH]; intros Hp Hc; [contradiction|].
  simpl. destruct parts as [|q' parts].
  - destruct Hp as [->|[]]. assumption.
  - destruct Hp as [->|Hp].
    + apply in_or_app. now left.
    + apply in_or_app. right. apply in_or_app. right. now apply IH.
Qed.

Lemma clean_paragraph_bar (paragraph : text) :
  existsb (contains_char "|") (splitlines paragraph) = true ->
  In "|"%char (clean_paragraph paragraph).
Proof.
  intros Ht. unfold clean_paragraph. rewrite Ht.
  apply existsb_exists in Ht. destruct Ht as (l & Hl & Hc).
  apply contains_char_In in Hc. eapply join_In; eassumption.
Qed.

(** X3.  Every paragraph the sanitizer returns either is a table, with a
    vertical bar in it, or is a single line: it holds no line boundary. *)
Theorem X3_paragraphs_one_line (content : text) :
  Forall (fun paragraph =>
            In "|"%char paragraph
            \/ Forall (fun c => is_linebreak c = false) paragraph)
    (preprocess_content content).
Proof.
  unfold preprocess_content. apply Forall_map. apply Forall_forall.
  intros p _.
  destruct (existsb (contains_char "|") (splitlines p)) eqn:E.
  - left. now apply clean_paragraph_bar.
  - right. now apply clean_paragraph_one_line.
Qed.

(** ** Blank content *)

Lemma re_split_go_Forall (Q : ascii -> Prop) (r : regex) (total : nat)
  (s : text) :
  forall (skip : nat) (cur : text),
    Forall Q cur -> Forall Q s ->
    Forall (Forall Q) (Re.split_go r total skip cur s).
Proof.
  induction s as [|c s IH]; intros skip cur Hc Hs; simpl.
  - constructor; [now apply Forall_rev | constructor].
  - inversion Hs; subst. destruct skip as [|n]; [|now apply IH].
    destruct (match_at total r (c :: s)) as [[|n]|];
      try (apply IH; [constructor|]; assumption).
    constructor; [now apply Forall_rev|]. apply IH; [constructor | assumption].
Qed.

Lemma re_split_Forall (Q : ascii -> Prop) (r : regex) (s : text) :
  Forall Q s -> Forall (Forall Q) (Re.split r s).
Proof. intros H. apply re_split_go_Forall; [constructor | assumption]. Qed.

Lemma dropwhile_all (p : ascii -> bool) (s : text) :
  Forall (fun c => p c = true) s -> dropwhile p s = [].
Proof.
  induction 1 as [|c s Hc Hs IH]; simpl; [reflexivity|]. now rewrite Hc.
Qed.

Lemma strip_blank (s : text) :
  Forall (fun c => isspace c = true) s -> strip s = [].
Proof.
  intros H. unfold strip, strip_by. now rewrite (dropwhile_all _ _ H).
Qed.

Lemma filter_none {A} (f : A -> bool) (l : list A) :
  Forall (fun x => f x = false) l -> filter f l = [].
Proof.
  induction 1 as [|x l Hx Hl IH]; simpl; [reflexivity|]. now rewrite Hx.
Qed.

(** X4.  Content made of white space only, the empty content included, has
    no paragraph. *)
Theorem X4_blank_content (content : text) :
  Forall (fun c => isspace c = true) content ->
  preprocess_content content = [].
Proof.
  intros H. unfold preprocess_content.
  rewrite filter_none; [reflexivity|].
  eapply Forall_impl; [|apply re_split_Forall; exact H].
  intros p Hp. simpl. now rewrite strip_blank.
Qed.

Lemma X4_blank_content_witness :
  preprocess_content (str " " ++ [nl; nl; nl] ++ str "  " ++ [nl]) = [].
Proof.
  apply X4_blank_content. repeat constructor.
Defined.

(** ** Text before the first heading *)

Lemma parse_tree_lines (input_string : text) :
  parse_tree input_string = tree_of_lines (preprocess_content input_string).
Proof.
  unfold parse_tree, parse_article_into_dict, tree_of_lines.
  destruct (run (preprocess_content input_string) initial) as [st|e];
    [|reflexivity].
  simpl. destruct (deref (objects st) root); reflexivity.
Qed.

Lemma run_app (a b : list text) (st : state) :
  run (a ++ b) st = (st' <- run a st ;; run b st').
Proof.
  revert st. induction a as [|l a IH]; intros st; simpl; [reflexivity|].
  destruct (step st l) as [st1|e]; simpl; [apply IH | reflexivity].
Qed.

Lemma update_at_comm {A} (f g : A -> A) (l : list A) :
  (forall x, f (g x) = g (f x)) ->
  forall i j, update_at i f (update_at j g l) = update_at j g (update_at i f l).
Proof.
  intros H. induction l as [|x l IH]; intros [|i] [|j]; simpl;
    try reflexivity; f_equal; auto.
Qed.

Lemma update_at_root_app {A} (g : A -> A) (l l' : list A) :
  l <> [] -> update_at 0 g (l ++ l') = update_at 0 g l ++ l'.
Proof. destruct l; [congruence | reflexivity]. Qed.

Lemma deref_update_at (g : section -> section) (h : store) (i r : nat)
  (o : section) :
  deref h r = Ok o -> exists o', deref (update_at i g h) r = Ok o'.
Proof.
  intros H. apply deref_nth in H.
  destruct (Nat.eq_dec i r) as [->|Hn].
  - exists (g o). apply deref_nth. now apply nth_error_update_at_eq.
  - exists o. apply deref_nth. now rewrite nth_error_update_at_neq.
Qed.

Lemma wf_objects_nonempty (st : state) : wf_state st -> objects st <> [].
Proof.
  intros [[rest Hr] Hp _] E. rewrite Hr in Hp.
  apply Forall_app in Hp. destruct Hp as [_ Hp]. inversion Hp; subst.
  rewrite E in *. simpl in *. lia.
Qed.

Lemma step_preamble (x : text) (line : text) (st st' : state) :
  objects st <> [] ->
  step st line = Ok st' ->
  step (lift_preamble x st) line = Ok (lift_preamble x st').
Proof.
  intros Hne. unfold step. destruct (startswith (str "#") line).
  - unfold heading_step. cbn [objects current_path lift_preamble].
    rewrite update_at_length.
    destruct (top (pop_while (heading_level line) (current_path st)))
      as [parent|e] eqn:Et; [|discriminate].
    cbn [bind].
    destruct (deref (objects st ++ [new_section]) parent) as [o|e] eqn:Ed;
      [|discriminate].
    cbn [bind]. intros H. injection H as <-.
    unfold root. rewrite <- update_at_root_app by assumption.
    destruct (deref_update_at (with_preamble x) _ 0 _ _ Ed) as [o' ->].
    cbn [bind]. unfold lift_preamble. cbn [objects current_path].
    f_equal. f_equal. unfold root. apply update_at_comm. reflexivity.
  - unfold text_step. cbn [objects current_path lift_preamble].
    destruct (top (current_path st)) as [cur|e] eqn:Et; [|discriminate].
    cbn [bind].
    destruct (deref (objects st) cur) as [o|e] eqn:Ed; [|discriminate].
    cbn [bind]. intros H. injection H as <-.
    destruct (deref_update_at (with_preamble x) _ root _ _ Ed) as [o' ->].
    cbn [bind]. unfold lift_preamble. cbn [objects current_path].
    f_equal. f_equal. apply update_at_comm.
    intros [c d]. unfold with_preamble. cbn [content subsections].
    now rewrite <- app_assoc.
Qed.

Lemma run_preamble (x : text) (lines : list text) :
  forall st st',
    wf_state st ->
    run lines st = Ok st' ->
    run lines (lift_preamble x st) = Ok (lift_preamble x st').
Proof.
  induction lines as [|line lines IH]; intros st st' Hwf H; simpl in *.
  - now injection H as <-.
  - destruct (step_wf line st Hwf) as (st1 & E & Hwf1).
    rewrite E in H. simpl in H.
    rewrite (step_preamble x line st st1 (wf_objects_nonempty st Hwf) E).
    simpl. now apply IH.
Qed.

Lemma reify_preamble (x : text) (h : store) :
  ordered h ->
  forall (fuel : nat) (d : Dict.dict nat),
    Forall (fun kv => 1 <= snd kv) d ->
    reify fuel (update_at root (with_preamble x) h) d = reify fuel h d.
Proof.
  intros Hord. induction fuel as [|fuel IH]; intros d Hd.
  - destruct d; reflexivity.
  - induction d as [|[t r] d IHd]; [reflexivity|].
    inversion Hd as [|? ? Hr Hd']; subst. simpl in Hr.
    rewrite !reify_cons.
    rewrite nth_error_update_at_neq by (unfold root; lia).
    destruct (nth_error h r) as [o|] eqn:Eo; [|reflexivity].
    rewrite (IHd Hd'). rewrite IH; [reflexivity|].
    eapply Forall_impl; [|exact (Hord r o Eo)].
    simpl. intros. lia.
Qed.

(** The paragraphs read before the first heading go to the root section. *)
Lemma run_no_heading (pre : list text) :
  Forall (fun line => startswith (str "#") line = false) pre ->
  forall c, exists x,
    run pre {| objects := [{| content := c; subsections := [] |}];
               current_path := [(root, (-1)%Z)] |}
    = Ok {| objects := [{| content := x; subsections := [] |}];
            current_path := [(root, (-1)%Z)] |}.
Proof.
  induction 1 as [|line pre Hl Hp IH]; intros c; simpl.
  - eauto.
  - unfold step. rewrite Hl. simpl. apply IH.
Qed.

Lemma tree_of_lines_preamble (pre rest : list text) :
  Forall (fun line => startswith (str "#") line = false) pre ->
  tree_of_lines (pre ++ rest) = tree_of_lines rest.
Proof.
  intros Hp. unfold tree_of_lines. rewrite run_app.
  destruct (run_no_heading pre Hp []) as [x Hx].
  change {| objects := [{| content := []; subsections := [] |}];
            current_path := [(root, (-1)%Z)] |} with initial in Hx.
  rewrite Hx. cbn [bind].
  destruct (run_wf rest initial wf_initial) as (st & E & Hwf).
  pose proof (run_ordered _ _ _ wf_initial ordered_initial E) as Hord.
  pose proof (run_preamble x rest initial st wf_initial E) as El.
  unfold lift_preamble in El at 1. simpl in El.
  unfold with_preamble, new_section in El. simpl in El.
  rewrite app_nil_r in El.
  rewrite El, E. unfold lift_preamble. cbn [objects].
  pose proof (wf_objects_nonempty st Hwf) as Hne.
  destruct (objects st) as [|o h] eqn:Eh; [congruence|].
  cbn [update_at root deref nth_error with_preamble subsections length].
  change (with_preamble x o :: h)
    with (update_at root (with_preamble x) (o :: h)).
  replace (S (length h)) with (length (o :: h)) by reflexivity.
  apply reify_preamble; [assumption|].
  eapply Forall_impl; [|exact (Hord 0 o eq_refl)]. simpl. intros. lia.
Qed.

(** X5.  The paragraphs before the first heading are lost: the mapping
    returned is that of the paragraphs from the first heading on. *)
Theorem X5_preamble_lost (input_string : text) (pre rest : list text) :
  preprocess_content input_string = pre ++ rest ->
  Forall (fun line => startswith (str "#") line = false) pre ->
  parse_tree input_string = tree_of_lines rest.
Proof.
  intros E Hp. rewrite parse_tree_lines, E.
  now apply tree_of_lines_preamble.
Qed.

Lemma X5_preamble_lost_witness :
  parse_tree (str "intro" ++ [nl; nl] ++ str "# A" ++ [nl; nl] ++ str "text")
  = tree_of_lines [str "# A"; str "text"].
Proof.
  apply (X5_preamble_lost _ [str "intro"]).
  - vm_compute. reflexivity.
  - repeat constructor.
Defined.

Lemma contains_char_false (c : ascii) (s : text) :
  contains_char c s = false <-> Forall (fun d => d <> c) s.
Proof.
  unfold contains_char. induction s as [|d s IH]; simpl.
  - split; [constructor | reflexivity].
  - rewrite orb_false_iff, IH. split.
    + intros [Hd Hs]. constructor; [|assumption].
      intros ->. now rewrite Ascii.eqb_refl in Hd.
    + intros H. inversion H as [|? ? Hd Hs]; subst. split; [|assumption].
      destruct (Ascii.eqb c d) eqn:E; [|reflexivity].
      apply Ascii.eqb_eq in E. congruence.
Qed.

(** X6.  A text without '#' has no section: the mapping returned for it is
    empty. *)
Theorem X6_no_heading_no_section (input_string : text) :
  contains_char "#" input_string = false ->
  parse_tree input_string = Some [].
Proof.
  intros H. apply contains_char_false in H.
  rewrite parse_tree_lines.
  rewrite <- (app_nil_r (preprocess_content input_string)).
  rewrite tree_of_lines_preamble; [reflexivity|].
  unfold preprocess_content. apply Forall_map.
  eapply Forall_impl; [|apply Forall_filter, re_split_Forall; exact H].
  intros p Hp. cbv beta.
  pose proof (clean_paragraph_Forall (fun d => d <> "#"%char) p) as Hc.
  destruct (clean_paragraph p) as [|d q]; [reflexivity|].
  assert (Hd : Forall (fun d => d <> "#"%char) (d :: q)).
  { apply Hc; [discriminate | discriminate | assumption]. }
  inversion Hd; subst.
  change (str "#") with ["#"%char]. cbn [startswith].
  destruct (Ascii.eqb "#" d) eqn:Ee; [|reflexivity].
  apply Ascii.eqb_eq in Ee. congruence.
Qed.

Lemma X6_no_heading_no_section_witness :
  parse_tree (str "one" ++ [nl; nl] ++ str "two") = Some [].
Proof. apply X6_no_heading_no_section. vm_compute. reflexivity. Defined.

(** ** The words of a text *)

Lemma split_ws_go_app (c : ascii) (b : text) :
  isspace c = true ->
  forall a cur,
    split_ws_go cur (a ++ c :: b) = split_ws_go cur a ++ split_ws b.
Proof.
  intros Hc. induction a as [|d a IH]; intros cur.
  - cbn [app split_ws_go]. rewrite Hc. destruct cur; reflexivity.
  - cbn [app split_ws_go]. destruct (isspace d).
    + destruct cur; rewrite IH; reflexivity.
    + apply IH.
Qed.

Lemma split_ws_app (c : ascii) (a b : text) :
  isspace c = true ->
  split_ws (a ++ c :: b) = split_ws a ++ split_ws b.
Proof. intros H. now apply split_ws_go_app. Qed.

Lemma split_ws_blank (s : text) :
  Forall (fun c => isspace c = true) s -> split_ws s = [].
Proof.
  unfold split_ws. induction 1 as [|c s Hc Hs IH]; [reflexivity|].
  cbn [split_ws_go]. now rewrite Hc.
Qed.

Lemma split_ws_lead (pre s : text) :
  Forall (fun c => isspace c = true) pre ->
  split_ws (pre ++ s) = split_ws s.
Proof.
  unfold split_ws. induction 1 as [|c pre Hc Hp IH]; [reflexivity|].
  cbn [app split_ws_go]. now rewrite Hc.
Qed.

Lemma split_ws_trail (s post : text) :
  Forall (fun c => isspace c = true) post ->
  split_ws (s ++ post) = split_ws s.
Proof.
  intros H. destruct H as [|c post Hc Hp]; [now rewrite app_nil_r|].
  rewrite split_ws_app by assumption.
  rewrite (split_ws_blank post Hp). apply app_nil_r.
Qed.

Lemma split_ws_strip (s : text) : split_ws (strip s) = split_ws s.
Proof.
  unfold strip, strip_by.
  destruct (dropwhile_suffix isspace s) as (pre & E1 & H1).
  destruct (dropwhile_suffix isspace (rev (dropwhile isspace s)))
    as (post & E2 & H2).
  apply (f_equal (@rev ascii)) in E2.
  rewrite rev_involutive, rev_app_distr in E2.
  transitivity (split_ws (dropwhile isspace s)).
  - rewrite E2 at 2.
    rewrite split_ws_trail; [reflexivity | now apply Forall_rev].
  - rewrite E1 at 2. now rewrite split_ws_lead.
Qed.

(** A word: a non-empty run without whitespace. *)
Lemma split_ws_go_word (w : text) :
  Forall (fun c => isspace c = false) w ->
  forall cur, rev cur ++ w <> [] ->
              split_ws_go cur w = [rev cur ++ w].
Proof.
  induction 1 as [|c w Hc Hw IH]; intros cur Hne.
  - rewrite app_nil_r in *. cbn [split_ws_go].
    destruct cur; [now simpl in Hne | reflexivity].
  - cbn [split_ws_go]. rewrite Hc. rewrite IH.
    + simpl. now rewrite <- app_assoc.
    + simpl. rewrite <- app_assoc. simpl. now destruct (rev cur).
Qed.

Lemma split_ws_go_words (s : text) :
  forall cur,
    Forall (fun c => isspace c = false) cur ->
    Forall (fun w => w <> [] /\ Forall (fun c => isspace c = false) w)
      (split_ws_go cur s).
Proof.
  induction s as [|c s IH]; intros cur Hc; cbn [split_ws_go].
  - destruct cur as [|d cur]; constructor; [|constructor].
    split; [|now apply Forall_rev].
    simpl. now destruct (rev cur).
  - destruct (isspace c) eqn:E.
    + destruct cur as [|d cur]; [apply IH; constructor|].
      constructor; [|apply IH; constructor].
      split; [|now apply Forall_rev]. simpl. now destruct (rev cur).
    + apply IH. now constructor.
Qed.

Lemma split_ws_lines (s : text) :
  forall cur,
    concat (map split_ws (PyStr.split_go [nl] 0 cur s))
    = split_ws (rev cur ++ s).
Proof.
  induction s as [|c s IH]; intros cur.
  - simpl. now rewrite !app_nil_r.
  - cbn [PyStr.split_go startswith].
    destruct (Ascii.eqb nl c) eqn:E.
    + apply Ascii.eqb_eq in E. subst c.
      cbn [andb length Nat.sub map concat]. rewrite IH. simpl rev.
      cbn [app]. now rewrite split_ws_app.
    + cbn [andb]. rewrite IH. simpl rev. now rewrite <- app_assoc.
Qed.

(** The inner loop takes the words that the count leaves room for; each
    is written with a space after it. *)
Lemma limit_words_spec (max_word_count : Z) (line_words : list text) :
  Forall (fun w => w <> [] /\ Forall (fun c => isspace c = false) w)
    line_words ->
  forall (acc : list text) (limited_string : text),
    split_ws limited_string = acc ->
    not_at_head (fun c => negb (isspace c)) (rev limited_string) ->
    exists out,
      limit_words max_word_count line_words (Z.of_nat (length acc))
        limited_string
      = (Z.of_nat (length acc
                   + length (firstn (Z.to_nat max_word_count - length acc)
                               line_words)),
         out)
      /\ split_ws out
         = acc ++ firstn (Z.to_nat max_word_count - length acc) line_words
      /\ not_at_head (fun c => negb (isspace c)) (rev out).
Proof.
  induction 1 as [|w ws [Hne Hw] Hws IH]; intros acc l Hl He.
  - exists l. cbn [limit_words]. rewrite firstn_nil, app_nil_r.
    simpl. rewrite Nat.add_0_r. auto.
  - cbn [limit_words].
    destruct (Z.of_nat (length acc) <? max_word_count)%Z eqn:E.
    + apply Z.ltb_lt in E.
      replace (Z.to_nat max_word_count - length acc)
        with (S (Z.to_nat max_word_count - length (acc ++ [w])))
        by (rewrite length_app; simpl; lia).
      cbn [firstn length].
      destruct (IH (acc ++ [w]) (l ++ w ++ str " ")) as (out & E1 & E2 & E3).
      * simpl str. rewrite app_assoc, split_ws_trail by (repeat constructor).
        subst acc. f_equal.
        destruct (rev l) as [|c r] eqn:Er.
        -- apply (f_equal (@rev ascii)) in Er. rewrite rev_involutive in Er.
           subst l. simpl. unfold split_ws.
           now rewrite split_ws_go_word.
        -- apply (f_equal (@rev ascii)) in Er. rewrite rev_involutive in Er.
           subst l. simpl in He. apply negb_false_iff in He.
           simpl rev. rewrite <- !app_assoc. cbn [app].
           rewrite !split_ws_app by assumption.
           rewrite (split_ws_blank []) by constructor. rewrite app_nil_r.
           f_equal. unfold split_ws. now rewrite split_ws_go_word.
      * simpl str. rewrite !rev_app_distr. reflexivity.
      * exists out. replace (Z.of_nat (length acc) + 1)%Z
          with (Z.of_nat (length (acc ++ [w])))
          by (rewrite length_app; simpl; lia).
        rewrite E1. rewrite <- app_assoc in E2.
        split; [|split; assumption].
        f_equal. f_equal. rewrite length_app. simpl. lia.
    + apply Z.ltb_ge in E.
      replace (Z.to_nat max_word_count - length acc) with 0 by lia.
      exists l. simpl. rewrite Nat.add_0_r, app_nil_r. auto.
Qed.

Lemma limit_lines_spec (max_word_count : Z) (lines : list text) :
  forall (acc : list text) (limited_string : text),
    split_ws limited_string = acc ->
    not_at_head (fun c => negb (isspace c)) (rev limited_string) ->
    split_ws (limit_lines max_word_count lines (Z.of_nat (length acc))
                limited_string)
    = acc ++ firstn (Z.to_nat max_word_count - length acc)
               (concat (map split_ws lines)).
Proof.
  induction lines as [|line lines IH]; intros acc l Hl He.
  - simpl. now rewrite firstn_nil, app_nil_r.
  - cbn [limit_lines map concat].
    destruct (limit_words_spec max_word_count (split_ws line)
                (split_ws_go_words line [] (Forall_nil _)) acc l Hl He)
      as (out & E1 & E2 & E3).
    rewrite E1.
    set (m := Z.to_nat max_word_count - length acc) in *.
    destruct (Z.of_nat (length acc + length (firstn m (split_ws line)))
              >=? max_word_count)%Z eqn:E.
    + apply Z.geb_le in E. rewrite E2. f_equal.
      rewrite length_firstn in E.
      rewrite firstn_app.
      replace (m - length (split_ws line)) with 0 by lia.
      now rewrite firstn_O, app_nil_r.
    + rewrite Z.geb_leb in E. apply Z.leb_gt in E.
      rewrite length_firstn in E.
      assert (Hm : length (split_ws line) < m) by lia.
      rewrite firstn_all2 in * by lia.
      replace (length acc + length (split_ws line))
        with (length (acc ++ split_ws line)) by (rewrite length_app; lia).
      rewrite IH.
      * rewrite <- app_assoc. f_equal. rewrite firstn_app.
        rewrite (firstn_all2 (n := m) (split_ws line)) by lia. f_equal. f_equal.
        rewrite length_app. lia.
      * rewrite split_ws_trail by (repeat constructor).
        now rewrite split_ws_strip.
      * rewrite rev_app_distr. reflexivity.
Qed.

(** X7.  The words of the result are the first [max_word_count] words of
    the input, none for a count that is not positive. *)
Theorem X7_limit_word_count (input_string : text) (max_word_count : Z) :
  split_ws (limit_word_count_preserve_newline input_string max_word_count)
  = firstn (Z.to_nat max_word_count) (split_ws input_string).
Proof.
  unfold limit_word_count_preserve_newline. rewrite split_ws_strip.
  rewrite (limit_lines_spec max_word_count _ [] []); [|reflexivity|exact I].
  simpl app. simpl length. rewrite Nat.sub_0_r.
  unfold PyStr.split. now rewrite split_ws_lines.
Qed.

(** ** Reading the citations of a text *)

Lemma string_of_uint_decimal (d : Decimal.uint) :
  Forall (fun c => isdecimal c = true) (str (NilEmpty.string_of_uint d)).
Proof. induction d; simpl; constructor; auto. Qed.

Lemma int_of_uint_acc (d : Decimal.uint) :
  forall acc : positive,
    fold_left (fun acc c => 10 * acc + digit_value c)%Z
      (str (NilEmpty.string_of_uint d)) (Zpos acc)
    = Zpos (Pos.of_uint_acc d acc).
Proof.
  induction d as [|d IH|d IH|d IH|d IH|d IH|d IH|d IH|d IH|d IH|d IH];
    intros acc;
    cbn [NilEmpty.string_of_uint str list_ascii_of_string fold_left
         Pos.of_uint_acc];
    [reflexivity|..];
    rewrite <- IH; f_equal;
    match goal with
    | |- context [digit_value ?c] =>
        let v := eval vm_compute in (digit_value c) in
        change (digit_value c) with v
    end; lia.
Qed.

Lemma int_of_uint (d : Decimal.uint) :
  int_of_digits (str (NilEmpty.string_of_uint d)) = Z.of_N (Pos.of_uint d).
Proof.
  unfold int_of_digits.
  induction d as [|d IH|d IH|d IH|d IH|d IH|d IH|d IH|d IH|d IH|d IH];
    cbn [NilEmpty.string_of_uint str list_ascii_of_string fold_left
         Pos.of_uint];
    [reflexivity | exact IH |..];
    match goal with
    | |- context [digit_value ?c] =>
        let v := eval vm_compute in (10 * 0 + digit_value c)%Z in
        change (10 * 0 + digit_value c)%Z with v
    end; apply int_of_uint_acc.
Qed.

(** [int(str(n))] is [n]. *)
Lemma int_of_str (k : Z) :
  (0 <= k)%Z -> int_of_digits (str_of_int k) = k /\ digits (str_of_int k).
Proof.
  intros Hk. pose proof (DecimalZ.of_to k) as E.
  unfold str_of_int.
  destruct (Z.to_int k) as [d|d] eqn:Ed.
  - cbn [NilZero.string_of_int]. cbn [Z.of_int Z.of_uint] in E.
    destruct d as [|d|d|d|d|d|d|d|d|d|d];
      try (split; [now rewrite <- E; apply int_of_uint
                  | split; [discriminate | apply string_of_uint_decimal]]).
    split; [exact E | split; [discriminate | repeat constructor]].
  - exfalso. destruct k; simpl in Ed; try discriminate. lia.
Qed.

Lemma marker_bracket (k : Z) : marker k = bracket (str_of_int k).
Proof. reflexivity. Qed.

Lemma inner_bracket (d : text) : inner (bracket d) = d.
Proof.
  unfold inner, bracket. simpl. apply removelast_last.
Qed.

Lemma match_at_citation_plain (total : nat) (c : ascii) (s : text) :
  Ascii.eqb "[" c = false -> match_at total citation (c :: s) = None.
Proof.
  intros H. unfold match_at, citation, Lit.
  now rewrite bt_Seq, bt_Chr_cons, H.
Qed.

Lemma cited_cons (t : token) (toks : list token) :
  cited (t :: toks) = true ->
  match t with
  | Char c => Ascii.eqb "[" c = false
  | Mark k => (0 <= k)%Z
  end /\ cited toks = true.
Proof.
  unfold cited. cbn [forallb]. intros H. apply andb_true_iff in H.
  destruct H as [Ht H]. split; [|exact H].
  destruct t; [now apply negb_true_iff | now apply Z.leb_le].
Qed.

Lemma findall_go_tokens (total : nat) (toks : list token) :
  cited toks = true ->
  forall pre : text,
    map (fun m => slice (fst m) (snd m) (pre ++ render marker toks))
      (finditer_go citation total 0 (length pre) (render marker toks))
    = map marker (marks toks).
Proof.
  induction toks as [|[c|k] toks IH]; intros Hc pre; [reflexivity|..];
    apply cited_cons in Hc; destruct Hc as [Ht Hc].
  - rewrite render_cons_char. cbn [finditer_go].
    rewrite match_at_citation_plain by assumption.
    replace (pre ++ c :: render marker toks)
      with ((pre ++ [c]) ++ render marker toks)
      by (now rewrite <- app_assoc).
    replace (S (length pre)) with (length (pre ++ [c]))
      by (rewrite length_app; simpl; lia).
    apply (IH Hc).
  - rewrite render_cons_mark. cbn [marks flat_map app map].
    destruct (int_of_str k Ht) as [_ Hd].
    rewrite finditer_go_match.
    + cbn [map fst snd]. f_equal; [apply slice_middle|].
      rewrite app_assoc, <- length_app. apply (IH Hc).
    + unfold marker. discriminate.
    + rewrite marker_bracket. now apply match_at_citation_bracket.
Qed.

Lemma findall_tokens (toks : list token) :
  cited toks = true ->
  findall citation (render marker toks) = map marker (marks toks).
Proof.
  intros H. unfold findall, finditer.
  apply (findall_go_tokens _ toks H []).
Qed.

Lemma marks_indices (ks : list Z) :
  Forall (fun k => (0 <= k)%Z) ks ->
  map (fun index => int_of_digits (inner index)) (map marker ks) = ks.
Proof.
  induction 1 as [|k ks Hk Hks IH]; [reflexivity|].
  cbn [map]. rewrite IH. f_equal.
  rewrite marker_bracket, inner_bracket. now apply int_of_str.
Qed.

Lemma cited_marks (toks : list token) :
  cited toks = true -> Forall (fun k => (0 <= k)%Z) (marks toks).
Proof.
  induction toks as [|[c|k] toks IH]; intros H; [constructor|..];
    apply cited_cons in H; destruct H as [Ht H]; cbn [marks flat_map app].
  - now apply IH.
  - constructor; [assumption | now apply IH].
Qed.

(** X8.  In a text in which '[' opens markers only, the indices parsed are
    the numbers of the markers, in the order of the text, each as often as
    it is cited. *)
Theorem X8_parse_citation_indices (toks : list token) :
  cited toks = true ->
  parse_citation_indices (render marker toks) = marks toks.
Proof.
  intros H. unfold parse_citation_indices.
  rewrite findall_tokens by assumption.
  apply marks_indices. now apply cited_marks.
Qed.

Lemma X8_parse_citation_indices_witness :
  parse_citation_indices (str "a[2]b[10][2].") = [2; 10; 2]%Z.
Proof.
  apply (X8_parse_citation_indices
           [Char "a"; Mark 2; Char "b"; Mark 10; Mark 2; Char "."]).
  reflexivity.
Defined.

Lemma sub_go_skip (r : regex) (repl : text -> text) (total : nat)
  (x y : text) :
  sub_go r repl total (length x) (x ++ y) = sub_go r repl total 0 y.
Proof. induction x as [|c x IH]; simpl; [reflexivity | exact IH]. Qed.

Lemma sub_go_match (r : regex) (repl : text -> text) (total : nat)
  (x y : text) :
  x <> [] ->
  match_at total r (x ++ y) = Some (length x) ->
  sub_go r repl total 0 (x ++ y) = repl x ++ sub_go r repl total 0 y.
Proof.
  intros Hne H. destruct x as [|c x]; [congruence|].
  cbn [app length] in *. cbn [sub_go]. rewrite H.
  rewrite sub_go_skip. f_equal.
  change (c :: x ++ y) with ((c :: x) ++ y).
  change (S (length x)) with (length (c :: x)).
  rewrite firstn_app, Nat.sub_diag, firstn_O, app_nil_r. now rewrite firstn_all.
Qed.

Lemma bt_citation_list_bracket {A} (total : nat) (d rest : text)
  (k : text -> option A) :
  digits d ->
  bt total citation_list (bracket d ++ rest) k = k rest.
Proof.
  intros [Hne Hd]. destruct d as [|c d]; [congruence|].
  inversion Hd as [|? ? Hc Hd']; subst.
  unfold citation_list, bracket, Plus, digit. simpl str. simpl app.
  unfold Lit at 1.
  rewrite !bt_Seq, bt_Chr_cons, Ascii.eqb_refl, !bt_Seq, bt_Chr_cons, Hc.
  rewrite <- app_assoc. simpl app.
  rewrite bt_star_run with (tail := "]"%char :: rest); try assumption.
  - rewrite bt_Seq, bt_Star_unfold, !bt_Seq. unfold Lit at 1.
    rewrite bt_Chr_cons. cbn [Ascii.eqb Bool.eqb or_else].
    unfold Lit. now rewrite bt_Chr_cons, Ascii.eqb_refl.
  - intros c' t Hc'. rewrite bt_Seq, bt_Star_unfold, !bt_Seq.
    unfold Lit. rewrite !bt_Chr_cons.
    destruct (Ascii.eqb "," c') eqn:E1.
    { apply Ascii.eqb_eq in E1. subst c'. discriminate. }
    destruct (Ascii.eqb "]" c') eqn:E2; [|reflexivity].
    apply Ascii.eqb_eq in E2. subst c'. discriminate.
  - reflexivity.
Qed.

Lemma match_at_citation_list_bracket (total : nat) (d rest : text) :
  digits d ->
  match_at total citation_list (bracket d ++ rest)
  = Some (length (bracket d)).
Proof.
  intros H. unfold match_at. rewrite bt_citation_list_bracket by assumption.
  f_equal. rewrite length_app. lia.
Qed.

Lemma match_at_citation_list_plain (total : nat) (c : ascii) (s : text) :
  Ascii.eqb "[" c = false -> match_at total citation_list (c :: s) = None.
Proof.
  intros H. unfold match_at, citation_list, Lit.
  now rewrite bt_Seq, bt_Chr_cons, H.
Qed.

Lemma remove_citations_go (total : nat) (toks : list token) :
  cited toks = true ->
  sub_go citation_list (fun _ => []) total 0 (render marker toks)
  = chars toks.
Proof.
  induction toks as [|[c|k] toks IH]; intros Hc; [reflexivity|..];
    apply cited_cons in Hc; destruct Hc as [Ht Hc].
  - rewrite render_cons_char. cbn [sub_go].
    rewrite match_at_citation_list_plain by assumption.
    cbn [chars flat_map app]. f_equal. apply (IH Hc).
  - rewrite render_cons_mark. cbn [chars flat_map app].
    destruct (int_of_str k Ht) as [_ Hd].
    rewrite sub_go_match.
    + apply (IH Hc).
    + unfold marker. discriminate.
    + rewrite marker_bracket. now apply match_at_citation_list_bracket.
Qed.

(** X9.  In a text in which '[' opens markers only, removing the citations
    leaves the characters between the markers, all of them and nothing
    else. *)
Theorem X9_remove_citations (toks : list token) :
  cited toks = true ->
  remove_citations (render marker toks) = chars toks.
Proof. intros H. now apply remove_citations_go. Qed.

Lemma X9_remove_citations_witness :
  remove_citations (str "a[2] b[10][2].") = str "a b.".
Proof.
  apply (X9_remove_citations
           [Char "a"; Mark 2; Char " "; Char "b"; Mark 10; Mark 2; Char "."]).
  reflexivity.
Defined.

(** ** Renumbering the citations of a text *)

Lemma plain_chars_cons (t : token) (toks : list token) :
  plain_chars (t :: toks) = true ->
  match t with
  | Char c => Ascii.eqb "[" c = false
  | Mark _ => True
  end /\ plain_chars toks = true.
Proof.
  unfold plain_chars. cbn [forallb]. intros H. apply andb_true_iff in H.
  destruct H as [Ht H]. split; [|exact H].
  destruct t; [now apply negb_true_iff | exact I].
Qed.

Lemma cited_plain_chars (toks : list token) :
  cited toks = true -> plain_chars toks = true.
Proof.
  induction toks as [|[c|k] toks IH]; intros H; [reflexivity|..];
    apply cited_cons in H; destruct H as [Ht H];
    unfold plain_chars; cbn [forallb]; fold (plain_chars toks);
    rewrite (IH H); [now rewrite Ht | reflexivity].
Qed.

Lemma covers_cons_char (m : list (Z * Z)) (c : ascii) (toks : list token) :
  covers m (Char c :: toks) = covers m toks.
Proof. reflexivity. Qed.

Lemma covers_cons_mark (m : list (Z * Z)) (k : Z) (toks : list token) :
  covers m (Mark k :: toks) = true ->
  In k (map fst m) /\ covers m toks = true.
Proof.
  unfold covers. cbn [marks flat_map app forallb]. intros H.
  apply andb_true_iff in H. destruct H as [Hk H]. split; [|exact H].
  unfold mem in Hk. apply existsb_exists in Hk.
  destruct Hk as (x & Hx & E). apply Z.eqb_eq in E. now subst.
Qed.

Lemma contains_skip (x : ascii) (p w s : text) :
  Forall (fun c => Ascii.eqb x c = false) w ->
  contains (x :: p) (w ++ s) = contains (x :: p) s.
Proof.
  induction 1 as [|c w Hc Hw IH]; [reflexivity|].
  cbn [app contains]. rewrite startswith_cons, Hc. exact IH.
Qed.

Lemma marker_no (x : ascii) (k : Z) :
  num_char x = false -> Ascii.eqb x "[" = false -> Ascii.eqb x "]" = false ->
  Forall (fun c => Ascii.eqb x c = false) (marker k).
Proof.
  intros H1 H2 H3. rewrite marker_shape. constructor; [assumption|].
  apply Forall_app. split; [now apply str_of_int_no|].
  constructor; [assumption | constructor].
Qed.

Lemma contains_marker (k : Z) (s : text) :
  contains (str "PLACEHOLDER_") (marker k ++ s)
  = contains (str "PLACEHOLDER_") s.
Proof. apply contains_skip. now apply marker_no. Qed.

Lemma tokens_ok_of (m : list (Z * Z)) (toks : list token) :
  plain_chars toks = true ->
  covers m toks = true ->
  contains (str "PLACEHOLDER_") (render marker toks) = false ->
  tokens_ok (map fst m) toks.
Proof.
  induction toks as [|[c|k] toks IH]; intros Hp Hc Hn.
  - simpl. auto.
  - apply plain_chars_cons in Hp. destruct Hp as [Hb Hp].
    cbn [tokens_ok]. split; [now apply contains_head|]. split.
    + intros k _. now apply marker_not_at.
    + apply IH; try assumption.
      rewrite render_cons_char in Hn.
      now apply (contains_suffix _ [c]) in Hn.
  - apply plain_chars_cons in Hp. destruct Hp as [_ Hp].
    apply covers_cons_mark in Hc. destruct Hc as [Hk Hc].
    cbn [tokens_ok]. split; [now apply contains_head|]. split; [assumption|].
    apply IH; try assumption.
    rewrite render_cons_mark in Hn. now apply contains_suffix in Hn.
Qed.

Lemma released_retarget (m : list (Z * Z)) (toks : list token) :
  covers m toks = true ->
  render (released m) toks = render marker (map (retarget m) toks).
Proof.
  induction toks as [|[c|k] toks IH]; intros Hc; [reflexivity|..].
  - cbn [map retarget]. rewrite !render_cons_char. f_equal. now apply IH.
  - apply covers_cons_mark in Hc. destruct Hc as [Hk Hc].
    cbn [map retarget]. rewrite !render_cons_mark. rewrite (IH Hc). f_equal.
    unfold released, renumber.
    destruct (lookup_in k m Hk) as [v ->]. reflexivity.
Qed.

Lemma lookup_some_in (k v : Z) (m : list (Z * Z)) :
  lookup k m = Some v -> In (k, v) m.
Proof.
  induction m as [|[k' v'] m IH]; simpl; [discriminate|].
  destruct (k =? k')%Z eqn:E.
  - apply Z.eqb_eq in E. subst k'. intros [= ->]. now left.
  - intros H. right. now apply IH.
Qed.

Lemma marks_retarget (m : list (Z * Z)) (toks : list token) :
  marks (map (retarget m) toks) = map (renumber m) (marks toks).
Proof.
  induction toks as [|[c|k] toks IH]; [reflexivity|..];
    cbn [map retarget marks flat_map app]; fold (marks toks);
    fold (marks (map (retarget m) toks)); now rewrite IH.
Qed.

Lemma cited_retarget (m : list (Z * Z)) (toks : list token) :
  cited toks = true ->
  covers m toks = true ->
  nonneg_values m = true ->
  cited (map (retarget m) toks) = true.
Proof.
  intros Ht Hc Hm.
  induction toks as [|[c|k] toks IH]; [reflexivity|..];
    apply cited_cons in Ht; destruct Ht as [Ht0 Ht].
  - cbn [map retarget]. unfold cited. cbn [forallb].
    rewrite Ht0. now apply IH.
  - apply covers_cons_mark in Hc. destruct Hc as [Hk Hc].
    cbn [map retarget]. unfold cited. cbn [forallb].
    fold (cited (map (retarget m) toks)). rewrite (IH Ht Hc).
    rewrite andb_true_r. unfold renumber.
    destruct (lookup_in k m Hk) as [v Hv]. rewrite Hv.
    apply lookup_some_in in Hv.
    unfold nonneg_values in Hm. rewrite forallb_forall in Hm.
    apply (Hm (k, v) Hv).
Qed.

Lemma update_retarget (m : list (Z * Z)) (toks : list token) :
  plain_chars toks = true ->
  covers m toks = true ->
  contains (str "PLACEHOLDER_") (render marker toks) = false ->
  update_citation_index (render marker toks) m
  = render marker (map (retarget m) toks).
Proof.
  intros Hp Hc Hn.
  rewrite update_citation_index_tokens by now apply tokens_ok_of.
  now apply released_retarget.
Qed.

Lemma indices_after_update (toks : list token) (m : list (Z * Z)) :
  cited toks = true ->
  covers m toks = true ->
  contains (str "PLACEHOLDER_") (render marker toks) = false ->
  nonneg_values m = true ->
  parse_citation_indices (update_citation_index (render marker toks) m)
  = map (renumber m) (parse_citation_indices (render marker toks)).
Proof.
  intros Ht Hc Hn Hm.
  rewrite update_retarget; try assumption; [|now apply cited_plain_chars].
  unfold parse_citation_indices.
  rewrite !findall_tokens; try assumption; [|now apply cited_retarget].
  rewrite !marks_indices.
  - apply marks_retarget.
  - now apply cited_marks.
  - apply cited_marks. now apply cited_retarget.
Qed.

(** X10.  Take a text without the word of the placeholders in which '['
    opens markers only, each written as [str] writes its number, which is
    not negative (no sign, no zero before the number), and a map that has
    every number cited as a key and no negative value.  After the update
    the indices parsed are the values of the map at the indices parsed
    before, in the same order.  The way the markers are written matters:
    in "a[03]" the index parsed is 3, but the update of 3 to 7 looks for
    "[3]" and leaves the text as it is; and "[-1]" is no citation for the
    parser, but the update of -1 to 5 makes it one. *)
Theorem X10_indices_after_update :
  (forall (toks : list token) (m : list (Z * Z)),
      cited toks = true ->
      covers m toks = true ->
      contains (str "PLACEHOLDER_") (render marker toks) = false ->
      nonneg_values m = true ->
      parse_citation_indices (update_citation_index (render marker toks) m)
      = map (renumber m) (parse_citation_indices (render marker toks)))
  /\ parse_citation_indices (str "a[03]") = [3%Z]
  /\ parse_citation_indices
       (update_citation_index (str "a[03]") [(3, 7)]%Z) = [3%Z]
  /\ parse_citation_indices (str "a[-1]") = []
  /\ parse_citation_indices
       (update_citation_index (str "a[-1]") [(-1, 5)]%Z) = [5%Z].
Proof.
  split; [exact indices_after_update|].
  refine (conj _ (conj _ (conj _ _))); vm_compute; reflexivity.
Qed.

Lemma X10_indices_after_update_witness :
  parse_citation_indices
    (update_citation_index (str "a[2]b[10][2].") [(2, 1); (10, 2)]%Z)
  = map (renumber [(2, 1); (10, 2)]%Z)
      (parse_citation_indices (str "a[2]b[10][2].")).
Proof.
  apply (proj1 X10_indices_after_update
           [Char "a"; Mark 2; Char "b"; Mark 10; Mark 2; Char "."]);
    reflexivity.
Defined.

Lemma startswith_retarget (m : list (Z * Z)) (toks : list token) :
  forall p : text,
    Forall (fun c => Ascii.eqb c "[" = false) p ->
    startswith p (render marker (map (retarget m) toks))
    = startswith p (render marker toks).
Proof.
  induction toks as [|[c|k] toks IH]; intros p Hp; [reflexivity|..].
  - cbn [map retarget]. rewrite !render_cons_char.
    destruct Hp as [|x p Hx Hp]; [reflexivity|].
    rewrite !startswith_cons. now rewrite IH.
  - cbn [map retarget]. rewrite !render_cons_mark, !marker_shape.
    destruct Hp as [|x p Hx Hp]; [reflexivity|].
    cbn [app]. rewrite !startswith_cons. now rewrite Hx.
Qed.

Lemma contains_retarget (m : list (Z * Z)) (toks : list token) :
  contains (str "PLACEHOLDER_") (render marker (map (retarget m) toks))
  = contains (str "PLACEHOLDER_") (render marker toks).
Proof.
  induction toks as [|[c|k] toks IH]; [reflexivity|..].
  - cbn [map retarget]. rewrite !render_cons_char.
    cbn [contains]. rewrite IH. f_equal.
    change (c :: render marker (map (retarget m) toks))
      with (render marker (map (retarget m) (Char c :: toks))).
    change (c :: render marker toks) with (render marker (Char c :: toks)).
    apply startswith_retarget. repeat constructor.
  - cbn [map retarget]. rewrite !render_cons_mark.
    now rewrite !contains_marker.
Qed.

Lemma lookup_swap (m : list (Z * Z)) :
  NoDup (map snd m) ->
  forall k v, lookup k m = Some v -> lookup v (swap_items m) = Some k.
Proof.
  induction m as [|[k0 v0] m IH]; intros Hd k v H; [discriminate|].
  inversion Hd as [|? ? Hn Hd']; subst.
  cbn [swap_items map fst snd lookup] in *. fold (swap_items m).
  destruct (k =? k0)%Z eqn:E.
  - apply Z.eqb_eq in E. subst k0. injection H as ->.
    now rewrite Z.eqb_refl.
  - destruct (v =? v0)%Z eqn:Ev.
    + apply Z.eqb_eq in Ev. subst v0. exfalso. apply Hn.
      apply lookup_some_in in H.
      apply (in_map snd) in H. exact H.
    + now apply IH.
Qed.

Lemma covers_swap (m : list (Z * Z)) (toks : list token) :
  covers m toks = true ->
  covers (swap_items m) (map (retarget m) toks) = true.
Proof.
  induction toks as [|[c|k] toks IH]; intros Hc; [reflexivity|..].
  - cbn [map retarget]. rewrite covers_cons_char. now apply IH.
  - apply covers_cons_mark in Hc. destruct Hc as [Hk Hc].
    cbn [map retarget]. unfold covers. cbn [marks flat_map app forallb].
    fold (marks (map (retarget m) toks)).
    fold (covers (swap_items m) (map (retarget m) toks)).
    rewrite (IH Hc), andb_true_r. apply mem_in.
    unfold renumber. destruct (lookup_in k m Hk) as [v Hv]. rewrite Hv.
    apply lookup_some_in in Hv. unfold swap_items. rewrite map_map.
    cbn [fst]. apply (in_map snd) in Hv. exact Hv.
Qed.

Lemma plain_chars_retarget (m : list (Z * Z)) (toks : list token) :
  plain_chars (map (retarget m) toks) = plain_chars toks.
Proof.
  induction toks as [|[c|k] toks IH]; [reflexivity|..];
    cbn [map retarget]; unfold plain_chars; cbn [forallb];
    fold (plain_chars toks); fold (plain_chars (map (retarget m) toks));
    now rewrite IH.
Qed.

Lemma retarget_swap (m : list (Z * Z)) (toks : list token) :
  NoDup (map snd m) ->
  covers m toks = true ->
  map (retarget (swap_items m)) (map (retarget m) toks) = toks.
Proof.
  intros Hd. induction toks as [|[c|k] toks IH]; intros Hc; [reflexivity|..].
  - cbn [map retarget]. f_equal. now apply IH.
  - apply covers_cons_mark in Hc. destruct Hc as [Hk Hc].
    cbn [map retarget]. rewrite (IH Hc). f_equal. f_equal.
    unfold renumber at 2. destruct (lookup_in k m Hk) as [v Hv]. rewrite Hv.
    unfold renumber. now rewrite (lookup_swap m Hd k v Hv).
Qed.

(** X11.  A renumbering with distinct new numbers is undone by the update
    with the map read backwards: the text comes back as it was. *)
Theorem X11_update_round_trip (toks : list token) (m : list (Z * Z)) :
  plain_chars toks = true ->
  covers m toks = true ->
  contains (str "PLACEHOLDER_") (render marker toks) = false ->
  NoDup (map snd m) ->
  update_citation_index
    (update_citation_index (render marker toks) m) (swap_items m)
  = render marker toks.
Proof.
  intros Hp Hc Hn Hd.
  rewrite update_retarget by assumption.
  rewrite update_retarget.
  - now rewrite retarget_swap.
  - now rewrite plain_chars_retarget.
  - now apply covers_swap.
  - now rewrite contains_retarget.
Qed.

Lemma X11_update_round_trip_witness :
  update_citation_index
    (update_citation_index (str "a[1]b[2][1].") [(1, 2); (2, 1)]%Z)
    (swap_items [(1, 2); (2, 1)]%Z)
  = str "a[1]b[2][1].".
Proof.
  apply (X11_update_round_trip
           [Char "a"; Mark 1; Char "b"; Mark 2; Mark 1; Char "."]);
    try reflexivity.
  repeat constructor; simpl; intuition discriminate.
Defined.

(** ** The paragraphs of a cleaned section *)

Lemma section_paragraphs_clean (set_order : list text -> list text)
  (paragraphs : list text) :
  forall summary_sec_flag,
    Forall (fun p =>
              startswith (str "Overall") p = false
              /\ startswith (str "In summary") p = false
              /\ startswith (str "In conclusion") p = false
              /\ contains (str "# Summary") p = false
              /\ contains (str "# Conclusion") p = false)
      (section_paragraphs set_order paragraphs summary_sec_flag).
Proof.
  induction paragraphs as [|p rest IH]; intros flag; [constructor|].
  cbn [section_paragraphs].
  destruct (Nat.eqb (length (strip p)) 0); [apply IH|].
  set (q := if negb (startswith (str "#") (strip p))
            then remove_uncompleted_sentences_with_citations set_order
                   (strip p)
            else strip p).
  destruct (flag && negb (startswith (str "#") q)); [apply IH|].
  destruct (startswith (str "Overall") q) eqn:E1; [apply IH|].
  destruct (startswith (str "In summary") q) eqn:E2; [apply IH|].
  destruct (startswith (str "In conclusion") q) eqn:E3; [apply IH|].
  cbn [orb].
  destruct (contains (str "# Summary") q) eqn:E4; [apply IH|].
  destruct (contains (str "# Conclusion") q) eqn:E5; [apply IH|].
  cbn [orb]. constructor; [auto | apply IH].
Qed.

Lemma section_paragraphs_summary (set_order : list text -> list text)
  (ps rest : list text) :
  Forall (fun p =>
            strip p = []
            \/ (startswith (str "#") (strip p) = false
                /\ startswith (str "#")
                     (remove_uncompleted_sentences_with_citations set_order
                        (strip p)) = false)) ps ->
  section_paragraphs set_order (ps ++ rest) true
  = section_paragraphs set_order rest true.
Proof.
  induction 1 as [|p ps Hp Hps IH]; [reflexivity|].
  cbn [app section_paragraphs].
  destruct Hp as [Hp|[H1 H2]].
  - rewrite Hp. exact IH.
  - destruct (Nat.eqb (length (strip p)) 0); [exact IH|].
    rewrite H1. cbn [negb]. rewrite H2. exact IH.
Qed.

(** X12.  No paragraph of a cleaned section starts with "Overall",
    "In summary" or "In conclusion", and none holds "# Summary" or
    "# Conclusion"; and after a heading that holds one of the two, the
    paragraphs up to the next heading are dropped with it. *)
Theorem X12_summary_removed (set_order : list text -> list text) :
  (forall text0 : text,
      Forall (fun p =>
                startswith (str "Overall") p = false
                /\ startswith (str "In summary") p = false
                /\ startswith (str "In conclusion") p = false
                /\ contains (str "# Summary") p = false
                /\ contains (str "# Conclusion") p = false)
        (section_paragraphs set_order (PyStr.split [nl] text0) false))
  /\ (forall (heading : text) (ps rest : list text),
         startswith (str "#") (strip heading) = true ->
         contains (str "# Summary") (strip heading)
         || contains (str "# Conclusion") (strip heading) = true ->
         Forall (fun p =>
                   strip p = []
                   \/ (startswith (str "#") (strip p) = false
                       /\ startswith (str "#")
                            (remove_uncompleted_sentences_with_citations
                               set_order (strip p)) = false)) ps ->
         section_paragraphs set_order (heading :: ps ++ rest) false
         = section_paragraphs set_order rest true).
Proof.
  split; [intros; apply section_paragraphs_clean|].
  intros heading ps rest Hh Hs Hps.
  cbn [section_paragraphs].
  destruct (strip heading) as [|c h] eqn:E; [discriminate|].
  cbn [length Nat.eqb]. rewrite Hh. cbn [negb andb].
  change (str "#") with ["#"%char] in Hh. rewrite startswith_cons in Hh.
  apply andb_true_iff in Hh. destruct Hh as [Hc _].
  apply Ascii.eqb_eq in Hc. subst c.
  replace (startswith (str "Overall") ("#"%char :: h)) with false
    by reflexivity.
  replace (startswith (str "In summary") ("#"%char :: h)) with false
    by reflexivity.
  replace (startswith (str "In conclusion") ("#"%char :: h)) with false
    by reflexivity.
  cbn [orb]. rewrite Hs.
  now apply section_paragraphs_summary.
Qed.

Lemma X12_summary_removed_witness :
  section_paragraphs fromkeys
    (str "## Summary" :: [str "All was said."; []] ++ [str "# Next"]) false
  = section_paragraphs fromkeys [str "# Next"] true.
Proof.
  apply (proj2 (X12_summary_removed fromkeys)).
  - vm_compute. reflexivity.
  - vm_compute. reflexivity.
  - constructor; [right; split; vm_compute; reflexivity|].
    constructor; [left; reflexivity | constructor].
Defined.

(** ** The citations beyond the search results *)

Lemma plain_chars_filter (f : token -> bool) (toks : list token) :
  plain_chars toks = true -> plain_chars (filter f toks) = true.
Proof.
  unfold plain_chars. rewrite !forallb_forall. intros H t Ht.
  apply filter_In in Ht. now apply H.
Qed.

Lemma drop_marker (i : Z) (toks : list token) :
  plain_chars toks = true ->
  replace (marker i) [] (render marker toks)
  = render marker (without [i] toks).
Proof.
  induction toks as [|[c|k] toks IH]; intros Hp.
  - rewrite replace_nonempty by apply marker_nonempty. reflexivity.
  - apply plain_chars_cons in Hp. destruct Hp as [Hc Hp].
    unfold without. cbn [filter]. fold (without [i] toks).
    rewrite !render_cons_char.
    rewrite replace_pass;
      [now rewrite IH | apply marker_nonempty | now apply marker_not_at].
  - apply plain_chars_cons in Hp. destruct Hp as [_ Hp].
    unfold without. cbn [filter]. fold (without [i] toks).
    rewrite render_cons_mark, mem_cons.
    change (mem k []) with false. rewrite orb_false_r.
    destruct (k =? i)%Z eqn:E.
    + apply Z.eqb_eq in E. subst k. cbn [negb].
      rewrite replace_match by apply marker_nonempty. now rewrite IH.
    + apply Z.eqb_neq in E. cbn [negb]. rewrite render_cons_mark.
      rewrite marker_over_marker by congruence. now rewrite IH.
Qed.

Lemma without_cons (i : Z) (ks : list Z) (toks : list token) :
  without ks (without [i] toks) = without (i :: ks) toks.
Proof.
  unfold without. induction toks as [|[c|k] toks IH]; [reflexivity|..].
  - cbn [filter]. now rewrite IH.
  - cbn [filter]. rewrite !mem_cons.
    change (mem k []) with false. rewrite orb_false_r.
    destruct (k =? i)%Z; cbn [negb orb]; [exact IH|].
    cbn [filter]. now rewrite IH.
Qed.

Lemma without_nil (toks : list token) : without [] toks = toks.
Proof.
  unfold without. induction toks as [|[c|k] toks IH]; [reflexivity|..];
    cbn [filter]; [|change (mem k []) with false; cbn [negb]];
    now rewrite IH.
Qed.

Lemma drop_markers (ks : list Z) :
  forall toks : list token,
    plain_chars toks = true ->
    fold_left (fun u i => replace (marker i) [] u) ks (render marker toks)
    = render marker (without ks toks).
Proof.
  induction ks as [|i ks IH]; intros toks Hp.
  - cbn [fold_left]. now rewrite without_nil.
  - cbn [fold_left]. rewrite drop_marker by assumption.
    rewrite IH by now apply plain_chars_filter.
    now rewrite without_cons.
Qed.

Lemma mem_range (k a b : Z) :
  mem k (range a b) = ((a <=? k) && (k <? b))%Z.
Proof.
  unfold mem, range.
  destruct ((a <=? k) && (k <? b))%Z eqn:E.
  - apply andb_true_iff in E. destruct E as [E1 E2].
    apply Z.leb_le in E1. apply Z.ltb_lt in E2.
    apply existsb_exists. exists k. split; [|apply Z.eqb_refl].
    apply in_map_iff. exists (Z.to_nat (k - a)). split; [lia|].
    apply in_seq. lia.
  - destruct (existsb (Z.eqb k) _) eqn:Ex; [|reflexivity].
    apply existsb_exists in Ex. destruct Ex as (x & Hx & Ek).
    apply Z.eqb_eq in Ek. subst x.
    apply in_map_iff in Hx. destruct Hx as (j & Hj & Hin).
    apply in_seq in Hin.
    apply andb_false_iff in E.
    destruct E as [E|E]; [apply Z.leb_gt in E | apply Z.ltb_ge in E]; lia.
Qed.

Lemma fold_max_le (l : list Z) :
  forall x, (x <= fold_left Z.max l x)%Z
            /\ Forall (fun k => (k <= fold_left Z.max l x)%Z) l.
Proof.
  induction l as [|y l IH]; intros x; cbn [fold_left].
  - split; [lia | constructor].
  - destruct (IH (Z.max x y)) as [H1 H2]. split; [lia|].
    constructor; [lia | assumption].
Qed.

Lemma fold_max_in (l : list Z) :
  forall x, fold_left Z.max l x = x \/ In (fold_left Z.max l x) l.
Proof.
  induction l as [|y l IH]; intros x; cbn [fold_left]; [now left|].
  destruct (IH (Z.max x y)) as [H|H].
  - rewrite H. destruct (Z.max_spec x y) as [[_ ->]|[_ ->]]; simpl; auto.
  - right. now right.
Qed.

Lemma max_or_zero_le (l : list Z) :
  Forall (fun k => (k <= max_or_zero l)%Z) l.
Proof.
  destruct l as [|x l]; [constructor|]. cbn [max_or_zero].
  destruct (fold_max_le l x) as [H1 H2]. now constructor.
Qed.

Lemma max_or_zero_beyond (n : Z) (l : list Z) :
  (0 <= n)%Z ->
  (max_or_zero l >? n)%Z = existsb (fun k => (n <? k)%Z) l.
Proof.
  intros Hn. destruct (existsb (fun k => (n <? k)%Z) l) eqn:E.
  - apply existsb_exists in E. destruct E as (k & Hk & E).
    apply Z.ltb_lt in E. pose proof (max_or_zero_le l) as H.
    rewrite Forall_forall in H. specialize (H k Hk).
    apply Z.gtb_lt. lia.
  - destruct (max_or_zero l >? n)%Z eqn:Em; [|reflexivity].
    apply Z.gtb_lt in Em. exfalso.
    destruct l as [|x l]; [simpl in Em; lia|]. cbn [max_or_zero] in Em.
    assert (Hin : In (fold_left Z.max l x) (x :: l)).
    { destruct (fold_max_in l x) as [->|H]; [now left | now right]. }
    assert (Hex : existsb (fun k => (n <? k)%Z) (x :: l) = true).
    { apply existsb_exists. exists (fold_left Z.max l x).
      split; [assumption | now apply Z.ltb_lt]. }
    congruence.
Qed.

Lemma max_ref_num_tokens (toks : list token) :
  cited toks = true ->
  max_ref_num (render marker toks) = max_or_zero (marks toks).
Proof.
  intros H. unfold max_ref_num. rewrite findall_tokens by assumption.
  rewrite (map_map inner (fun x => int_of_digits x)).
  rewrite marks_indices; [reflexivity | now apply cited_marks].
Qed.

Lemma without_range (n : Z) (toks : list token) :
  without (range n (max_or_zero (marks toks) + 1)) toks = below n toks.
Proof.
  pose proof (max_or_zero_le (marks toks)) as H.
  remember (max_or_zero (marks toks)) as top eqn:Et. clear Et.
  unfold without, below.
  induction toks as [|[c|k] toks IH]; [reflexivity|..].
  - cbn [filter]. f_equal. apply IH. exact H.
  - cbn [marks flat_map app] in H. fold (marks toks) in H.
    inversion H as [|? ? Hk H']; subst.
    cbn [filter]. rewrite mem_range.
    replace (k <? top + 1)%Z with true by (symmetry; apply Z.ltb_lt; lia).
    rewrite andb_true_r.
    replace (negb (n <=? k)%Z) with (k <? n)%Z
      by (rewrite Z.leb_antisym; now rewrite negb_involutive).
    destruct (k <? n)%Z; [f_equal|]; now apply IH.
Qed.

Lemma drop_beyond_tokens (toks : list token) (n : Z) :
  cited toks = true ->
  (0 <= n)%Z ->
  drop_beyond n (render marker toks)
  = if existsb (fun k => (n <? k)%Z) (marks toks)
    then render marker (below n toks)
    else render marker toks.
Proof.
  intros Hc Hn. unfold drop_beyond.
  rewrite max_ref_num_tokens by assumption.
  rewrite max_or_zero_beyond by assumption.
  destruct (existsb (fun k => (n <? k)%Z) (marks toks)); [|reflexivity].
  rewrite drop_markers by now apply cited_plain_chars.
  now rewrite without_range.
Qed.

(** X13.  The step of [clean_up_citation] that takes out the citations
    beyond the number [n] of the search results, on a text in which '['
    opens markers only, each written as [str] writes its number, which is
    not negative (no sign, no zero before the number): when no citation
    is beyond [n] the step leaves the text as it is; when one is, every
    citation from [n] on is taken out, that of the last result, [[n]],
    with those beyond it.  The way the markers are written matters: "[03]"
    counts as citation 3 for the greatest number, but the step looks for
    "[3]" and leaves it in. *)
Theorem X13_drop_beyond :
  (forall (toks : list token) (n : Z),
      cited toks = true ->
      (0 <= n)%Z ->
      drop_beyond n (render marker toks)
      = if existsb (fun k => (n <? k)%Z) (marks toks)
        then render marker (below n toks)
        else render marker toks)
  /\ drop_beyond 1 (str "a[03]b[5]") = str "a[03]b".
Proof.
  split; [exact drop_beyond_tokens | vm_compute; reflexivity].
Qed.

Lemma X13_drop_beyond_witness :
  drop_beyond 2 (str "a[1]b[2]c[3].") = str "a[1]bc.".
Proof.
  apply (proj1 X13_drop_beyond
           [Char "a"; Mark 1; Char "b"; Mark 2; Char "c"; Mark 3; Char "."]).
  - reflexivity.
  - lia.
Defined.

(** ** What is cut off an utterance *)

Lemma startswith_prefix (p a b : text) :
  startswith p a = true -> startswith p (a ++ b) = true.
Proof.
  revert a. induction p as [|c p IH]; intros a H; [reflexivity|].
  destruct a as [|d a]; [discriminate|].
  cbn [app]. rewrite startswith_cons in *.
  apply andb_true_iff in H. destruct H as [-> H]. now apply IH.
Qed.

Lemma contains_prefix (p a b : text) :
  contains p (a ++ b) = false -> contains p a = false.
Proof.
  induction a as [|c a IH]; intros H.
  - cbn [contains]. rewrite orb_false_r.
    destruct (startswith p []) eqn:E; [|reflexivity].
    apply (startswith_prefix p [] b) in E. apply contains_head in H.
    congruence.
  - cbn [app contains] in *. apply orb_false_iff in H. destruct H as [H1 H2].
    rewrite (IH H2), orb_false_r.
    destruct (startswith p (c :: a)) eqn:E; [|reflexivity].
    apply (startswith_prefix p _ b) in E. simpl app in E. congruence.
Qed.

Lemma find_go_absent (word s : text) :
  contains word s = false -> forall i, find_go word s i = (-1)%Z.
Proof.
  induction s as [|c s IH]; intros H i.
  - cbn [find_go]. apply contains_head in H. now rewrite H.
  - pose proof (contains_head _ _ H) as Hh. cbn [find_go]. rewrite Hh.
    cbn [contains] in H. apply orb_false_iff in H. now apply IH.
Qed.

Lemma find_go_present (word : text) :
  word <> [] ->
  forall (s : text) (i : nat),
    contains word s = true ->
    exists (j : nat) (rest : text),
      find_go word s i = Z.of_nat (i + j)
      /\ s = firstn j s ++ word ++ rest
      /\ contains word (firstn j s) = false.
Proof.
  intros Hne. induction s as [|c s IH]; intros i H.
  - cbn [contains] in H. rewrite orb_false_r in H.
    destruct word; [congruence | discriminate].
  - cbn [find_go]. destruct (startswith word (c :: s)) eqn:E.
    + exists 0. apply startswith_split in E. destruct E as [rest E].
      exists rest. rewrite Nat.add_0_r. cbn [firstn app].
      split; [reflexivity|]. split; [assumption|].
      destruct word; [congruence | reflexivity].
    + cbn [contains] in H. rewrite E in H. cbn [orb] in H.
      destruct (IH (S i) H) as (j & rest & E1 & E2 & E3).
      exists (S j), rest. split; [rewrite E1; f_equal; lia|].
      cbn [firstn app]. split; [now rewrite <- E2|].
      cbn [contains]. rewrite E3, orb_false_r.
      destruct (startswith word (c :: firstn j s)) eqn:E4; [|reflexivity].
      apply (startswith_prefix _ _ (word ++ rest)) in E4.
      cbn [app] in E4. rewrite <- E2 in E4. congruence.
Qed.

Lemma cut_before_absent (word s : text) :
  contains word s = false -> cut_before word s = removelast s.
Proof.
  intros H. unfold cut_before, find. rewrite find_go_absent by assumption.
  unfold slice_to. cbn [Z.leb Z.compare Z.opp Z.to_nat Pos.to_nat
                        Pos.iter_op].
  rewrite removelast_firstn_len. f_equal. lia.
Qed.

Lemma removelast_absent (word s : text) :
  contains word s = false -> contains word (removelast s) = false.
Proof.
  intros H. destruct s as [|c s] using rev_ind; [exact H|].
  rewrite removelast_last. now apply contains_prefix in H.
Qed.

(** X14.  [s[:s.find(word)]] keeps what is before the first occurrence of
    the word; with no occurrence, [find] gives -1 and the last character
    of the text is cut off.  So an utterance without "References:" and
    without "Sources:" loses its last two characters, whatever they are:
    two utterances that differ in them only are cleaned to the same. *)
Theorem X14_cut_before :
  (forall word s : text,
      word <> [] -> contains word s = true ->
      contains word (cut_before word s) = false
      /\ exists rest, s = cut_before word s ++ word ++ rest)
  /\ (forall word s : text,
         contains word s = false -> cut_before word s = removelast s)
  /\ (forall (R : Type) (set_order : list text -> list text)
             (u1 u2 : text) (results : list R),
         contains (str "References:") u1 = false ->
         contains (str "Sources:") u1 = false ->
         contains (str "References:") u2 = false ->
         contains (str "Sources:") u2 = false ->
         removelast (removelast u1) = removelast (removelast u2) ->
         clean_up_turn set_order (mk_turn u1 results)
         = clean_up_turn set_order (mk_turn u2 results)).
Proof.
  refine (conj _ (conj _ _)).
  - intros word s Hne H.
    destruct (find_go_present word Hne s 0 H) as (j & rest & E1 & E2 & E3).
    unfold cut_before, find, slice_to. rewrite E1. cbn [Nat.add].
    replace (0 <=? Z.of_nat j)%Z with true by (symmetry; apply Z.leb_le; lia).
    rewrite Nat2Z.id. split; [assumption | now exists rest].
  - exact cut_before_absent.
  - intros R set_order u1 u2 results H1 H2 H3 H4 E.
    unfold clean_up_turn. cbn [agent_utterance search_results].
    rewrite !(cut_before_absent (str "References:")) by assumption.
    rewrite !(cut_before_absent (str "Sources:"))
      by now apply removelast_absent.
    now rewrite E.
Qed.

Lemma X14_cut_before_witness :
  clean_up_turn fromkeys (mk_turn (str "It is so.[1]") [tt])
  = clean_up_turn fromkeys (mk_turn (str "It is so.[9]") [tt]).
Proof.
  apply (proj2 (proj2 X14_cut_before)); vm_compute; reflexivity.
Defined.

(** ** The sections of several files *)

Lemma reify_keys (h : store) :
  forall (fuel : nat) (d : Dict.dict nat) (t : list (text * tree)),
    reify fuel h d = Some t -> map fst t = Dict.keys d.
Proof.
  intros fuel. destruct fuel as [|fuel].
  - intros d t H. destruct d; [|discriminate]. simpl in H.
    now injection H as <-.
  - induction d as [|[k r] d IH]; intros t H.
    + simpl in H. now injection H as <-.
    + rewrite reify_cons in H.
      destruct (nth_error h r) as [o|]; [|discriminate].
      destruct (reify (S fuel) h d) as [rest|] eqn:Er; [|discriminate].
      destruct (reify fuel h (subsections o)); [|discriminate].
      injection H as <-. cbn [map fst Dict.keys]. f_equal.
      now apply IH.
Qed.

Lemma parse_tree_keys (input_string : text) (t : list (text * tree)) :
  parse_tree input_string = Some t -> NoDup (map fst t).
Proof.
  unfold parse_tree, parse_article_into_dict.
  destruct (run_wf (preprocess_content input_string) initial wf_initial)
    as (st & E & Hwf).
  rewrite E. cbn [bind].
  destruct Hwf as [[rest Hr] Hp Hobjs].
  assert (Hroot : root < length (objects st)).
  { rewrite Forall_forall in Hp. apply (Hp (root, (-1)%Z)).
    rewrite Hr. apply in_or_app. right. now left. }
  destruct (deref_below _ _ Hroot) as (o & Ho & Hn). rewrite Ho.
  cbn [bind]. intros H. apply reify_keys in H. rewrite H.
  rewrite Forall_forall in Hobjs.
  now destruct (Hobjs o (nth_error_In _ _ Hn)) as (Hk & _).
Qed.

Lemma parse_markdown_file_keys (content : text) :
  NoDup (Dict.keys (parse_markdown_file content)).
Proof.
  unfold parse_markdown_file.
  destruct (parse_tree content) as [t|] eqn:E; [|constructor].
  now apply parse_tree_keys in E.
Qed.

Lemma dict_set_fresh {V} (k : text) (v : V) (d : Dict.dict V) :
  ~ In k (Dict.keys d) -> Dict.set k v d = d ++ [(k, v)].
Proof.
  induction d as [|[k' v'] d IH]; intros H; [reflexivity|].
  cbn [Dict.set app]. cbn [Dict.keys map fst] in H.
  destruct (text_eqb k k') eqn:E.
  - apply text_eqb_eq in E. subst k'. exfalso. apply H. now left.
  - f_equal. apply IH. intros Hin. apply H. now right.
Qed.

Lemma dict_update_fresh {V} (other : Dict.dict V) :
  forall d : Dict.dict V,
    NoDup (Dict.keys other) ->
    (forall k, In k (Dict.keys other) -> ~ In k (Dict.keys d)) ->
    dict_update d other = d ++ other.
Proof.
  unfold dict_update.
  induction other as [|[k v] other IH]; intros d Hn Hd.
  - cbn [fold_left]. now rewrite app_nil_r.
  - cbn [fold_left fst snd]. cbn [Dict.keys map fst] in Hn, Hd.
    inversion Hn as [|? ? Hk Hn']; subst.
    rewrite dict_set_fresh by (apply Hd; now left).
    rewrite IH.
    + now rewrite <- app_assoc.
    + assumption.
    + intros k' Hk' Hin. unfold Dict.keys in Hin.
      rewrite map_app in Hin. apply in_app_or in Hin.
      destruct Hin as [Hin|[<-|[]]].
      * apply (Hd k'); [now right | assumption].
      * now apply Hk.
Qed.

Lemma startswith_refl (p : text) : startswith p p = true.
Proof.
  induction p as [|c p IH]; [reflexivity|].
  rewrite startswith_cons, Ascii.eqb_refl. exact IH.
Qed.

Lemma prefixed_inj (i j : Z) (k k' : text) :
  prefixed i k = prefixed j k' -> i = j /\ k = k'.
Proof.
  unfold prefixed. simpl str. cbn [app]. intros H.
  assert (E : str_of_int i = str_of_int j).
  { apply (startswith_number "." _ _ (" "%char :: k) (" "%char :: k')).
    - now apply str_of_int_no.
    - now apply str_of_int_no.
    - rewrite H. apply startswith_refl. }
  split; [now apply str_of_int_inj|].
  rewrite E in H. apply app_inv_head in H. now injection H.
Qed.

Lemma prefixed_keys (counter : Z) (d : Dict.dict tree) :
  Dict.keys (map (fun kv => (prefixed counter (fst kv), snd kv)) d)
  = map (prefixed counter) (Dict.keys d).
Proof. unfold Dict.keys. now rewrite !map_map. Qed.

Lemma prefixed_nodup (counter : Z) (l : list text) :
  NoDup l -> NoDup (map (prefixed counter) l).
Proof.
  induction 1 as [|k l Hk Hl IH]; cbn [map]; constructor; [|assumption].
  intros Hin. apply in_map_iff in Hin. destruct Hin as (k' & E & Hin).
  apply prefixed_inj in E. destruct E as [_ ->]. contradiction.
Qed.

Lemma all_sections_keys (markdown_files : list text) :
  forall (counter : Z) (k : text),
    In k (Dict.keys (all_sections markdown_files counter)) ->
    exists j key, (counter <= j)%Z /\ k = prefixed j key.
Proof.
  induction markdown_files as [|file rest IH]; intros counter k H;
    [contradiction|].
  cbn [all_sections] in H. unfold Dict.keys in H. rewrite map_app in H.
  apply in_app_or in H. destruct H as [H|H].
  - fold (Dict.keys (map (fun kv => (prefixed counter (fst kv), snd kv))
                       (parse_markdown_file file))) in H.
    rewrite prefixed_keys in H. apply in_map_iff in H.
    destruct H as (key & <- & _). exists counter, key. split; [lia|auto].
  - destruct (IH (counter + 1)%Z k H) as (j & key & Hj & E).
    exists j, key. split; [lia | assumption].
Qed.

Lemma combine_loop_spec (markdown_files : list text) :
  forall (counter : Z) (combined_content : Dict.dict tree),
    (forall k, In k (Dict.keys combined_content) ->
               exists j key, (j < counter)%Z /\ k = prefixed j key) ->
    combine_loop markdown_files counter combined_content
    = combined_content ++ all_sections markdown_files counter.
Proof.
  induction markdown_files as [|file rest IH]; intros counter acc Hacc.
  - cbn [combine_loop all_sections]. now rewrite app_nil_r.
  - cbn [combine_loop all_sections].
    set (new := map (fun kv => (prefixed counter (fst kv), snd kv))
                  (parse_markdown_file file)).
    assert (Hnew : NoDup (Dict.keys new)).
    { unfold new. rewrite prefixed_keys.
      apply prefixed_nodup, parse_markdown_file_keys. }
    assert (E0 : dict_update [] new = new).
    { rewrite dict_update_fresh; [reflexivity | assumption|].
      intros k _ []. }
    rewrite E0.
    rewrite dict_update_fresh; [|assumption|].
    + rewrite IH; [now rewrite <- app_assoc|].
      intros k Hk. unfold Dict.keys in Hk. rewrite map_app in Hk.
      apply in_app_or in Hk. destruct Hk as [Hk|Hk].
      * destruct (Hacc k Hk) as (j & key & Hj & E).
        exists j, key. split; [lia | assumption].
      * fold (Dict.keys new) in Hk. unfold new in Hk.
        rewrite prefixed_keys in Hk. apply in_map_iff in Hk.
        destruct Hk as (key & <- & _). exists counter, key.
        split; [lia | reflexivity].
    + intros k Hk Hin. unfold new in Hk. rewrite prefixed_keys in Hk.
      apply in_map_iff in Hk. destruct Hk as (key & <- & _).
      destruct (Hacc _ Hin) as (j & key' & Hj & E).
      apply prefixed_inj in E. lia.
Qed.

(** X15.  The keys that the files get are all distinct, so that no section
    of a file replaces a section of another: the combined mapping holds
    the sections of all the files, in the order of the files, each under
    the number of its file and its title. *)
Theorem X15_combine_keeps_all (markdown_files : list text) :
  combine_markdown_contents markdown_files = all_sections markdown_files 1
  /\ NoDup (Dict.keys (combine_markdown_contents markdown_files)).
Proof.
  assert (E : combine_markdown_contents markdown_files
              = all_sections markdown_files 1).
  { unfold combine_markdown_contents.
    rewrite combine_loop_spec; [reflexivity|]. intros k []. }
  split; [exact E|]. rewrite E. clear E.
  generalize 1%Z as counter.
  induction markdown_files as [|file rest IH]; intros counter;
    [constructor|].
  cbn [all_sections]. unfold Dict.keys. rewrite map_app.
  fold (Dict.keys (map (fun kv => (prefixed counter (fst kv), snd kv))
                     (parse_markdown_file file))).
  fold (Dict.keys (all_sections rest (counter + 1))).
  rewrite prefixed_keys. apply NoDup_app.
  - apply prefixed_nodup, parse_markdown_file_keys.
  - apply IH.
  - intros k Hk Hin. apply in_map_iff in Hk. destruct Hk as (key & <- & _).
    destruct (all_sections_keys rest _ _ Hin) as (j & key' & Hj & E).
    apply prefixed_inj in E. lia.
Qed.

(** ** Grouped citations *)

Lemma sub_go_total (r : regex) (repl : text -> text) (t1 t2 : nat) :
  positionless r = true ->
  forall (s : text) (skip : nat),
    sub_go r repl t1 skip s = sub_go r repl t2 skip s.
Proof.
  intros Hr. induction s as [|c s IH]; intros skip; [reflexivity|].
  simpl. destruct skip; [|apply IH].
  rewrite (match_at_total r t1 t2) by assumption.
  destruct (match_at t2 r (c :: s)) as [[|n]|]; now rewrite ?IH.
Qed.

Lemma split_go_piece (d : text) :
  Forall (fun c => Ascii.eqb "," c = false) d ->
  forall cur : text,
    PyStr.split_go (str ", ") 0 cur d = [rev cur ++ d].
Proof.
  induction 1 as [|c d Hc Hd IH]; intros cur.
  - simpl. now rewrite app_nil_r.
  - cbn [PyStr.split_go]. simpl str. rewrite startswith_cons, Hc.
    cbn [andb]. rewrite IH. simpl. now rewrite <- app_assoc.
Qed.

Lemma split_go_pieces (d rest : text) :
  Forall (fun c => Ascii.eqb "," c = false) d ->
  forall cur : text,
    PyStr.split_go (str ", ") 0 cur (d ++ str ", " ++ rest)
    = (rev cur ++ d) :: PyStr.split_go (str ", ") 0 [] rest.
Proof.
  induction 1 as [|c d Hc Hd IH]; intros cur.
  - simpl. now rewrite app_nil_r.
  - cbn [app PyStr.split_go]. simpl str. rewrite startswith_cons, Hc.
    cbn [andb]. simpl str in IH. rewrite IH. simpl.
    now rewrite <- app_assoc.
Qed.

Lemma digits_no_comma (d : text) :
  digits d -> Forall (fun c => Ascii.eqb "," c = false) d.
Proof.
  intros [_ H]. eapply Forall_impl; [|exact H].
  intros c Hc. destruct (Ascii.eqb "," c) eqn:E; [|reflexivity].
  apply Ascii.eqb_eq in E. subst c. discriminate.
Qed.

Lemma split_join (ds : list text) :
  ds <> [] -> Forall digits ds ->
  PyStr.split (str ", ") (join (str ", ") ds) = ds.
Proof.
  intros Hne H. unfold PyStr.split.
  induction H as [|d ds Hd Hds IH]; [congruence|].
  destruct ds as [|d' ds].
  - cbn [join]. rewrite split_go_piece by now apply digits_no_comma.
    reflexivity.
  - change (join (str ", ") (d :: d' :: ds))
      with (d ++ str ", " ++ join (str ", ") (d' :: ds)).
    rewrite split_go_pieces by now apply digits_no_comma.
    rewrite IH by discriminate. reflexivity.
Qed.

Lemma join_number_list (ds : list text) :
  Forall digits ds ->
  Forall (fun c => number_list_char c = true) (join (str ", ") ds).
Proof.
  intros H. apply Forall_join; [repeat constructor|].
  eapply Forall_impl; [|exact H].
  intros d [_ Hd]. eapply Forall_impl; [|exact Hd].
  intros c Hc. unfold number_list_char.
  unfold isdecimal in Hc. now rewrite Hc.
Qed.

Lemma join_nonempty (sep : text) (ds : list text) :
  ds <> [] -> Forall digits ds -> join sep ds <> [].
Proof.
  intros Hne H. destruct H as [|d ds [Hd _] Hds]; [congruence|].
  destruct d as [|c d]; [congruence|].
  cbn [join]. destruct ds; discriminate.
Qed.

Lemma bt_grouped {A} (total : nat) (g rest : text) (k : text -> option A) :
  g <> [] ->
  Forall (fun c => number_list_char c = true) g ->
  bt total grouped_citation (bracket g ++ rest) k = k rest.
Proof.
  intros Hne Hg. destruct g as [|c g]; [congruence|].
  inversion Hg as [|? ? Hc Hg']; subst.
  unfold grouped_citation, bracket, Plus. simpl str. simpl app.
  unfold Lit at 1.
  rewrite !bt_Seq, bt_Chr_cons, Ascii.eqb_refl, !bt_Seq, bt_Chr_cons, Hc.
  rewrite <- app_assoc. simpl app.
  rewrite bt_star_run with (tail := "]"%char :: rest); try assumption.
  - unfold Lit. now rewrite bt_Chr_cons, Ascii.eqb_refl.
  - intros c' t Hc'. unfold Lit. rewrite bt_Chr_cons.
    destruct (Ascii.eqb "]" c') eqn:E; [|reflexivity].
    apply Ascii.eqb_eq in E. subst c'. discriminate.
  - reflexivity.
Qed.

Lemma match_at_grouped (total : nat) (g rest : text) :
  g <> [] ->
  Forall (fun c => number_list_char c = true) g ->
  match_at total grouped_citation (bracket g ++ rest)
  = Some (length (bracket g)).
Proof.
  intros Hne Hg. unfold match_at. rewrite bt_grouped by assumption.
  f_equal. rewrite length_app. lia.
Qed.

Lemma group1_bracket (g : text) : group1 (bracket g) = g.
Proof. unfold group1, bracket. simpl. apply removelast_last. Qed.

(** X16.  A group "[a, b, c]" of numbers separated by a comma and a space
    is rewritten to the markers of its numbers, in their order, with a
    space between them; what follows the group is rewritten on its own. *)
Theorem X16_split_groups (ds : list text) (rest : text) :
  ds <> [] -> Forall digits ds ->
  split_groups (bracket (join (str ", ") ds) ++ rest)
  = join (str " ") (map bracket ds) ++ split_groups rest.
Proof.
  intros Hne Hd. unfold split_groups, Re.sub.
  rewrite sub_go_match.
  - unfold replace_with_individual_brackets.
    rewrite group1_bracket, split_join by assumption.
    f_equal. now apply sub_go_total.
  - unfold bracket. discriminate.
  - apply match_at_grouped; [now apply join_nonempty|].
    now apply join_number_list.
Qed.

Lemma X16_split_groups_witness :
  split_groups (str "[12, 3, 12] and [4, 5].")
  = str "[12] [3] [12]" ++ split_groups (str " and [4, 5].").
Proof.
  apply (X16_split_groups [str "12"; str "3"; str "12"]).
  - discriminate.
  - repeat constructor; discriminate.
Defined.

(** ** A flat article *)

Lemma update_at_last {A} (f : A -> A) (l : list A) (x : A) (n : nat) :
  n = length l -> update_at n f (l ++ [x]) = l ++ [f x].
Proof.
  intros ->. induction l as [|y l IH]; simpl; [reflexivity | now rewrite IH].
Qed.

Lemma deref_last (h : store) (o : section) (n : nat) :
  n = length h -> deref (h ++ [o]) n = Ok o.
Proof.
  intros ->. apply deref_nth. rewrite nth_error_app2 by lia.
  now rewrite Nat.sub_diag.
Qed.

Lemma combine_snoc {A B} (l : list A) (l' : list B) (x : A) (y : B) :
  length l = length l' ->
  combine (l ++ [x]) (l' ++ [y]) = combine l l' ++ [(x, y)].
Proof.
  revert l'. induction l as [|a l IH]; intros [|b l'] H;
    try discriminate; [reflexivity|].
  simpl. f_equal. apply IH. simpl in H. lia.
Qed.

Lemma combine_keys {A B} (l : list A) (l' : list B) :
  length l = length l' -> map fst (combine l l') = l.
Proof.
  revert l'. induction l as [|a l IH]; intros [|b l'] H;
    try discriminate; [reflexivity|].
  simpl. f_equal. apply IH. simpl in H. lia.
Qed.

Lemma flat_state_snoc (done : list (text * text)) (t c : text) :
  flat_state (done ++ [(t, c)])
  = {| objects :=
         ({| content := [];
             subsections :=
               combine (map fst done ++ [t]) (seq 1 (S (length done))) |}
          :: map leaf done) ++ [leaf (t, c)];
       current_path := [(S (length done), 1%Z); (root, (-1)%Z)] |}.
Proof.
  unfold flat_state.
  assert (Hl : length (done ++ [(t, c)]) = S (length done))
    by (rewrite length_app; simpl; lia).
  rewrite Hl. f_equal.
  - rewrite (map_app fst), (map_app leaf). reflexivity.
  - destruct (done ++ [(t, c)]) eqn:E; [now destruct done | reflexivity].
Qed.

(** The paragraphs of a section go to the section opened last. *)
Lemma run_paragraphs (ps : list text) :
  no_heading ps = true ->
  forall (done : list (text * text)) (t c : text),
    run ps (flat_state (done ++ [(t, c)]))
    = Ok (flat_state (done ++ [(t, c ++ body ps)])).
Proof.
  induction ps as [|p ps IH]; intros Hp done t c.
  - unfold body. cbn [map concat]. now rewrite app_nil_r.
  - unfold no_heading in Hp. cbn [forallb] in Hp.
    apply andb_true_iff in Hp. destruct Hp as [Hp Hps].
    apply negb_true_iff in Hp.
    cbn [run]. unfold step. rewrite Hp. unfold text_step.
    rewrite flat_state_snoc. cbn [current_path objects top bind].
    rewrite deref_last by (cbn [length]; now rewrite length_map).
    cbn [bind].
    rewrite update_at_last by (cbn [length]; now rewrite length_map).
    specialize (IH Hps done t (c ++ p ++ [nl; nl])).
    replace (c ++ body (p :: ps)) with ((c ++ p ++ [nl; nl]) ++ body ps)
      by (unfold body; cbn [map concat]; now rewrite <- !app_assoc).
    rewrite <- IH. rewrite flat_state_snoc. reflexivity.
Qed.

Lemma flat_title_spec (t : text) :
  flat_title t = true ->
  heading_title (str "# " ++ t) = t
  /\ heading_level (str "# " ++ t) = 1%Z.
Proof.
  unfold flat_title. intros H. apply andb_true_iff in H.
  destruct H as [H1 H2]. split; [now apply text_eqb_eq | now apply Z.eqb_eq].
Qed.

(** A heading of level 1 closes the section before it and opens the
    next. *)
Lemma step_flat_heading (done : list (text * text)) (t : text) :
  flat_title t = true ->
  ~ In t (map fst done) ->
  step (flat_state done) (str "# " ++ t)
  = Ok (flat_state (done ++ [(t, [])])).
Proof.
  intros Ht Hn. apply flat_title_spec in Ht. destruct Ht as [Ht Hl].
  unfold step.
  replace (startswith (str "#") (str "# " ++ t)) with true by reflexivity.
  unfold heading_step. rewrite Ht, Hl.
  assert (Hp : pop_while 1 (current_path (flat_state done))
               = [(root, (-1)%Z)]).
  { unfold flat_state. cbn [current_path]. destruct done; reflexivity. }
  rewrite Hp. cbn [top bind].
  unfold flat_state at 1 2 3. cbn [objects app deref nth_error root bind
                                   update_at content subsections length].
  rewrite length_map. rewrite flat_state_snoc.
  assert (Hs : Dict.set t (S (length done))
                 (combine (map fst done) (seq 1 (length done)))
               = combine (map fst done ++ [t]) (seq 1 (S (length done)))).
  { rewrite dict_set_fresh.
    - rewrite seq_S.
      rewrite combine_snoc by now rewrite length_map, length_seq.
      reflexivity.
    - unfold Dict.keys. rewrite combine_keys; [assumption|].
      now rewrite length_map, length_seq. }
  rewrite Hs. unfold flat_state. cbn [objects length].
  rewrite length_map. reflexivity.
Qed.

Lemma run_flat (secs : list (text * list text)) :
  forall done : list (text * text),
    NoDup (map fst done ++ map fst secs) ->
    Forall (fun s => flat_title (fst s) = true
                     /\ no_heading (snd s) = true) secs ->
    run (flat_lines secs) (flat_state done)
    = Ok (flat_state
            (done ++ map (fun s => (fst s, body (snd s))) secs)).
Proof.
  induction secs as [|[t ps] secs IH]; intros done Hd Hs.
  - cbn [flat_lines flat_map run map]. now rewrite app_nil_r.
  - inversion Hs as [|? ? [Ht Hp] Hs']; subst. cbn [fst snd] in *.
    cbn [map fst] in Hd.
    change (flat_lines ((t, ps) :: secs))
      with ((str "# " ++ t) :: ps ++ flat_lines secs).
    cbn [run]. rewrite step_flat_heading; [|assumption|].
    + cbn [bind]. rewrite run_app, run_paragraphs by assumption.
      cbn [bind app]. rewrite IH; [|now rewrite map_app, <- app_assoc
                                   |assumption].
      cbn [map fst snd]. now rewrite <- app_assoc.
    + apply NoDup_remove_2 in Hd. intros Hin. apply Hd.
      apply in_or_app. now left.
Qed.

Lemma reify_leaves (fuel : nat) (all : list (text * text)) :
  forall pre : store,
    reify (S fuel) (pre ++ map leaf all)
      (combine (map fst all) (seq (length pre) (length all)))
    = Some (map (fun d => (fst d, Section (snd d) [])) all).
Proof.
  induction all as [|[t c] all IH]; intros pre; [reflexivity|].
  cbn [map fst length seq combine]. rewrite reify_cons.
  rewrite nth_error_app2 by lia. rewrite Nat.sub_diag.
  cbn [nth_error leaf subsections content snd fst].
  replace (pre ++ leaf (t, c) :: map leaf all)
    with ((pre ++ [leaf (t, c)]) ++ map leaf all)
    by (now rewrite <- app_assoc).
  replace (S (length pre)) with (length (pre ++ [leaf (t, c)]))
    by (rewrite length_app; simpl; lia).
  rewrite IH.
  replace (reify fuel ((pre ++ [leaf (t, c)]) ++ map leaf all) [])
    with (Some (@nil (text * tree))) by (now destruct fuel).
  reflexivity.
Qed.

Lemma tree_of_flat_lines (secs : list (text * list text)) :
  NoDup (map fst secs) ->
  Forall (fun s => flat_title (fst s) = true
                   /\ no_heading (snd s) = true) secs ->
  tree_of_lines (flat_lines secs) = Some (flat_tree secs).
Proof.
  intros Hd Hs. unfold tree_of_lines.
  change initial with (flat_state []).
  rewrite run_flat by assumption. cbn [app].
  replace (flat_tree secs)
    with (map (fun d : text * text => (fst d, Section (snd d) []))
            (map (fun s => (fst s, body (snd s))) secs))
    by (unfold flat_tree; now rewrite map_map).
  remember (map (fun s => (fst s, body (snd s))) secs) as all eqn:Ea.
  clear Ea. unfold flat_state.
  cbn [objects deref root nth_error subsections length].
  exact (reify_leaves _ all
           [{| content := [];
               subsections :=
                 combine (map fst all) (seq 1 (length all)) |}]).
Qed.

(** X17.  A flat article is read back as it is written: when the
    paragraphs cleaned are those of sections of level 1 with distinct
    titles, the mapping returned holds the sections in their order, each
    under its title, with its paragraphs as content, two line feeds after
    each, and no subsection. *)
Theorem X17_flat_article (input_string : text)
  (secs : list (text * list text)) :
  preprocess_content input_string = flat_lines secs ->
  NoDup (map fst secs) ->
  Forall (fun s => flat_title (fst s) = true
                   /\ no_heading (snd s) = true) secs ->
  parse_tree input_string = Some (flat_tree secs).
Proof.
  intros E Hd Hs. rewrite parse_tree_lines, E.
  now apply tree_of_flat_lines.
Qed.

Lemma X17_flat_article_witness :
  parse_tree (str "# A" ++ [nl; nl] ++ str "one" ++ [nl; nl] ++ str "two"
              ++ [nl; nl] ++ str "# B" ++ [nl; nl] ++ str "three")
  = Some [(str "A", Section (str "one" ++ [nl; nl] ++ str "two" ++ [nl; nl])
                      []);
          (str "B", Section (str "three" ++ [nl; nl]) [])].
Proof.
  apply (X17_flat_article _
           [(str "A", [str "one"; str "two"]); (str "B", [str "three"])]).
  - vm_compute. reflexivity.
  - repeat constructor; simpl; intuition discriminate.
  - repeat constructor.
Defined.

(** * The deduplication of adjacent citations, in the trimmer *)

Lemma digits_ok (d : text) :
  truthy d && forallb isdecimal d = true <-> digits d.
Proof.
  unfold digits. rewrite andb_true_iff, forallb_forall, Forall_forall.
  split; intros [H1 H2]; (split; [|exact H2]).
  - intros ->. discriminate.
  - destruct d; [congruence | reflexivity].
Qed.

Lemma bracket_inj (a b : text) : bracket a = bracket b -> a = b.
Proof.
  unfold bracket. simpl. intros H. injection H as H.
  now apply app_inv_tail in H.
Qed.

Lemma strip_chars_bracket (d : text) :
  digits d -> strip_chars (str "[]") (bracket d) = d.
Proof.
  intros [Hne Hd]. unfold strip_chars, strip_by, bracket. simpl str.
  cbn [app dropwhile].
  replace (contains_char "[" ["["%char; "]"%char]) with true by reflexivity.
  assert (Hp : forall c, isdecimal c = true ->
                         contains_char c ["["%char; "]"%char] = false).
  { intros c Hc. destruct c as [b0 b1 b2 b3 b4 b5 b6 b7].
    destruct b0, b1, b2, b3, b4, b5, b6, b7; vm_compute in Hc |- *;
      congruence. }
  destruct d as [|c d]; [congruence|].
  inversion Hd as [|? ? Hc Hd']; subst.
  cbn [app dropwhile]. rewrite (Hp c Hc).
  change (c :: d ++ ["]"%char]) with ((c :: d) ++ ["]"%char]).
  rewrite rev_app_distr. cbn [rev app dropwhile].
  replace (contains_char "]" ["["%char; "]"%char]) with true by reflexivity.
  rewrite dropwhile_id; [apply (rev_involutive (c :: d))|].
  assert (Hr : Forall (fun c => isdecimal c = true) (rev d ++ [c])).
  { apply Forall_app. split; [now apply Forall_rev | now constructor]. }
  destruct (rev d ++ [c]) as [|x r] eqn:E; [exact I|].
  inversion Hr; subst. cbn [not_at_head]. now apply Hp.
Qed.

Lemma citation_key_bracket (d : text) :
  digits d -> citation_key (bracket d) = int_of_digits d.
Proof. intros H. unfold citation_key. now rewrite strip_chars_bracket. Qed.

(** *** The splitting of groups leaves single citations as they are *)

Lemma individual_bracket (d : text) :
  digits d -> replace_with_individual_brackets (bracket d) = bracket d.
Proof.
  intros Hd. unfold replace_with_individual_brackets.
  rewrite group1_bracket. unfold PyStr.split.
  rewrite split_go_piece by now apply digits_no_comma.
  cbn [rev app map join]. reflexivity.
Qed.

Lemma digits_number_list (d : text) :
  digits d -> Forall (fun c => number_list_char c = true) d.
Proof.
  intros [_ Hd]. eapply Forall_impl; [|exact Hd].
  intros c Hc. unfold number_list_char.
  unfold isdecimal in Hc. now rewrite Hc.
Qed.

Lemma pieces_ok_cons (p : piece) (ps : list piece) :
  pieces_ok (p :: ps) = true ->
  match p with
  | Gap c => marker_char c = false /\ terminator c = false
  | Cite d => digits d
  end /\ pieces_ok ps = true.
Proof.
  unfold pieces_ok. cbn [forallb]. intros H. apply andb_true_iff in H.
  destruct H as [Hp H]. split; [|exact H]. destruct p as [c|d].
  - cbn [piece_ok] in Hp. apply andb_true_iff in Hp.
    destruct Hp as [H1 H2]. now rewrite !negb_true_iff in *.
  - now apply digits_ok.
Qed.

Lemma pieces_ok_app (ps qs : list piece) :
  pieces_ok (ps ++ qs) = pieces_ok ps && pieces_ok qs.
Proof. unfold pieces_ok. apply forallb_app. Qed.

Lemma pieces_text_app (ps qs : list piece) :
  pieces_text (ps ++ qs) = pieces_text ps ++ pieces_text qs.
Proof. unfold pieces_text. apply flat_map_app. Qed.

Lemma marker_char_open (c : ascii) :
  marker_char c = false -> Ascii.eqb "[" c = false.
Proof.
  unfold marker_char. intros H. apply orb_false_iff in H.
  destruct H as [H _]. apply orb_false_iff in H. tauto.
Qed.

Lemma split_groups_go_pieces (total : nat) (ps : list piece) :
  pieces_ok ps = true ->
  sub_go grouped_citation replace_with_individual_brackets total 0
    (pieces_text ps)
  = pieces_text ps.
Proof.
  induction ps as [|[c|d] ps IH]; intros H; [reflexivity|..];
    apply pieces_ok_cons in H; destruct H as [Hp H].
  - destruct Hp as [Hc _]. apply marker_char_open in Hc.
    change (pieces_text (Gap c :: ps)) with (c :: pieces_text ps).
    cbn [sub_go]. unfold match_at, grouped_citation, Lit at 1.
    rewrite bt_Seq, bt_Chr_cons, Hc. fold grouped_citation.
    f_equal. now apply IH.
  - change (pieces_text (Cite d :: ps)) with (bracket d ++ pieces_text ps).
    rewrite sub_go_match.
    + rewrite individual_bracket by assumption. f_equal. now apply IH.
    + unfold bracket. discriminate.
    + apply match_at_grouped; [apply Hp | now apply digits_number_list].
Qed.

Lemma split_groups_pieces (ps : list piece) :
  pieces_ok ps = true -> split_groups (pieces_text ps) = pieces_text ps.
Proof. intros H. now apply split_groups_go_pieces. Qed.

Lemma pieces_no_terminator (ps : list piece) :
  pieces_ok ps = true -> no_terminator (pieces_text ps) = true.
Proof.
  intros H. apply no_terminator_Forall.
  induction ps as [|[c|d] ps IH]; [constructor|..];
    apply pieces_ok_cons in H; destruct H as [Hp H].
  - constructor; [apply Hp | now apply IH].
  - change (pieces_text (Cite d :: ps)) with (bracket d ++ pieces_text ps).
    apply Forall_app. split; [now apply bracket_no_terminator | now apply IH].
Qed.

(** On a text of citations the trimmer is the deduplication. *)
Lemma trimmer_pieces (set_order : list text -> list text)
  (ps : list piece) :
  set_order_ok set_order ->
  pieces_ok ps = true ->
  remove_uncompleted_sentences_with_citations set_order (pieces_text ps)
  = dedupe_adjacent set_order (pieces_text ps).
Proof.
  intros Hok H.
  destruct (no_terminator_no_truncation set_order (pieces_text ps) Hok
              (pieces_no_terminator ps H)) as [E _].
  rewrite E. now rewrite split_groups_pieces.
Qed.

Lemma pieces_of_run (ds : list text) :
  pieces_text (map Cite ds) = concat (map bracket ds).
Proof.
  induction ds as [|d ds IH]; [reflexivity|].
  cbn [map concat]. rewrite <- IH. reflexivity.
Qed.

Lemma pieces_ok_run (ds : list text) :
  Forall digits ds -> pieces_ok (map Cite ds) = true.
Proof.
  induction 1 as [|d ds Hd Hds IH]; [reflexivity|].
  cbn [map]. unfold pieces_ok. cbn [forallb piece_ok].
  fold (pieces_ok (map Cite ds)). rewrite IH, andb_true_r.
  now apply digits_ok.
Qed.

(** *** A run of citations *)

Lemma brackets_of (l : list text) (ds : list text) :
  Forall digits ds ->
  (forall x, In x l -> In x (map bracket ds)) ->
  exists l', l = map bracket l' /\ Forall digits l'
             /\ (forall d, In d l' -> In d ds).
Proof.
  intros Hd. rewrite Forall_forall in Hd.
  induction l as [|x l IH]; intros H.
  - exists []. split; [reflexivity|]. split; [constructor|]. intros d [].
  - destruct IH as (l' & -> & Hl' & Hin); [intros y Hy; apply H; now right|].
    assert (Hx : In x (map bracket ds)) by (apply H; now left).
    apply in_map_iff in Hx. destruct Hx as (d & <- & Hdin).
    exists (d :: l'). split; [reflexivity|]. split.
    + constructor; [now apply Hd | assumption].
    + intros d' [<-|Hd']; [assumption | now apply Hin].
Qed.

Lemma sorted_brackets (l : list text) :
  Forall digits l ->
  StronglySorted key_le (map bracket l) -> ascending l.
Proof.
  unfold ascending. induction 1 as [|d l Hd Hl IH]; intros H; [constructor|].
  cbn [map] in H. apply StronglySorted_inv in H. destruct H as [H1 H2].
  constructor; [now apply IH|].
  rewrite Forall_forall in *. intros x Hx.
  specialize (H2 (bracket x) (in_map bracket _ _ Hx)).
  unfold key_le in H2.
  now rewrite !citation_key_bracket in H2 by auto.
Qed.

Lemma run_collapsed (set_order : list text -> list text) (ds : list text) :
  set_order_ok set_order ->
  ds <> [] -> Forall digits ds ->
  exists out,
    dedupe_adjacent set_order (concat (map bracket ds))
    = concat (map bracket out)
    /\ NoDup out
    /\ (forall d, In d out <-> In d ds)
    /\ Forall digits out
    /\ ascending out.
Proof.
  intros Hok Hne Hd.
  set (l := sorted citation_key (set_order (map bracket ds))).
  assert (Hp : Permutation l (fromkeys (map bracket ds))).
  { unfold l. rewrite sorted_perm. apply Hok. }
  assert (Hin : forall x, In x l <-> In x (map bracket ds)).
  { intros x. rewrite <- (fromkeys_in x (map bracket ds)).
    split; apply Permutation_in; [exact Hp | symmetry; exact Hp]. }
  destruct (brackets_of l ds Hd (fun x => proj1 (Hin x)))
    as (out & El & Hout & Hsub).
  exists out. refine (conj _ (conj _ (conj _ (conj _ _)))).
  - rewrite deduplicate_run by assumption. fold l. now rewrite El.
  - apply (NoDup_map_inv bracket). rewrite <- El.
    eapply Permutation_NoDup; [symmetry; exact Hp|].
    apply fromkeys_go_nodup.
  - intros d. split; [apply Hsub|]. intros Hdin.
    assert (H : In (bracket d) l) by (apply Hin; now apply in_map).
    rewrite El in H. apply in_map_iff in H.
    destruct H as (d' & E & Hd'). apply bracket_inj in E. now subst.
  - assumption.
  - apply sorted_brackets; [assumption|]. rewrite <- El. apply sorted_sorted.
Qed.

Lemma sorted_strict (l : list Z) :
  StronglySorted Z.le l -> NoDup l -> StronglySorted Z.lt l.
Proof.
  induction 1 as [|x l Hl IH Hx]; intros Hn; [constructor|].
  inversion Hn as [|? ? Hnx Hn']; subst.
  constructor; [now apply IH|].
  rewrite Forall_forall in *. intros y Hy. specialize (Hx y Hy).
  assert (x <> y) by (intros ->; contradiction). lia.
Qed.

Lemma numbers_of (out : list text) (ks : list Z) :
  Forall (fun k => (0 <= k)%Z) ks ->
  (forall d, In d out -> In d (map str_of_int ks)) ->
  map str_of_int (map int_of_digits out) = out
  /\ (forall k, In k (map int_of_digits out) ->
                In k ks /\ In (str_of_int k) out).
Proof.
  intros Hk. rewrite Forall_forall in Hk.
  induction out as [|d out IH]; intros H.
  - split; [reflexivity | intros k []].
  - destruct IH as [E Hin]; [intros y Hy; apply H; now right|].
    assert (Hd : In d (map str_of_int ks)) by (apply H; now left).
    apply in_map_iff in Hd. destruct Hd as (k & <- & Hkin).
    destruct (int_of_str k (Hk k Hkin)) as [Ek _].
    cbn [map]. rewrite Ek, E. split; [reflexivity|].
    intros k' [<-|Hk']; [split; [assumption | now left]|].
    destruct (Hin k' Hk') as [H1 H2]. split; [assumption | now right].
Qed.

Lemma run_collapsed_numbers (set_order : list text -> list text)
  (ks : list Z) :
  set_order_ok set_order ->
  ks <> [] -> Forall (fun k => (0 <= k)%Z) ks ->
  exists out,
    dedupe_adjacent set_order (concat (map marker ks))
    = concat (map marker out)
    /\ StronglySorted Z.lt out
    /\ (forall k, In k out <-> In k ks).
Proof.
  intros Hok Hne Hk.
  assert (Hd : Forall digits (map str_of_int ks)).
  { apply Forall_map. eapply Forall_impl; [|exact Hk].
    intros k Hk0. now apply int_of_str. }
  assert (Em : forall l, map marker l = map bracket (map str_of_int l)).
  { intros l. rewrite map_map. apply map_ext. intros k.
    apply marker_bracket. }
  destruct (run_collapsed set_order (map str_of_int ks) Hok)
    as (out & E & Hn & Hin & Hout & Hs);
    [destruct ks; [congruence | discriminate] | assumption|].
  destruct (numbers_of out ks Hk (fun d => proj1 (Hin d))) as [Eo Hno].
  exists (map int_of_digits out). refine (conj _ (conj _ _)).
  - rewrite !Em, Eo. exact E.
  - apply sorted_strict.
    + unfold ascending in Hs. clear - Hs.
      induction Hs as [|d l Hl IH Hx]; cbn [map]; constructor;
        [assumption|].
      rewrite Forall_forall in *. intros y Hy. apply in_map_iff in Hy.
      destruct Hy as (x & <- & Hx'). now apply Hx.
    + apply (NoDup_map_inv str_of_int). now rewrite Eo.
  - intros k. split; [apply Hno|]. intros Hkin.
    assert (H : In (str_of_int k) out)
      by (apply Hin; now apply in_map).
    apply (in_map int_of_digits) in H.
    rewrite Forall_forall in Hk.
    now rewrite (proj1 (int_of_str k (Hk k Hkin))) in H.
Qed.

(** *** Citations kept apart *)

Lemma dedupe_adjacent_apart (set_order : list text -> list text)
  (u v : text) (w : ascii) :
  marker_char w = false ->
  dedupe_adjacent set_order (u ++ w :: v)
  = dedupe_adjacent set_order u ++ w :: dedupe_adjacent set_order v.
Proof.
  intros Hw. unfold dedupe_adjacent.
  apply sub_app_reject. now apply marker_char_rejects.
Qed.

Lemma dedupe_adjacent_nil (set_order : list text -> list text) :
  dedupe_adjacent set_order [] = [].
Proof. reflexivity. Qed.

Lemma dedupe_adjacent_single (set_order : list text -> list text)
  (d : text) :
  set_order_ok set_order ->
  digits d ->
  dedupe_adjacent set_order (bracket d) = bracket d.
Proof.
  intros Hok Hd.
  pose proof (deduplicate_run set_order [d]) as H.
  cbn [map concat] in H. rewrite app_nil_r in H.
  rewrite H; [|discriminate | now constructor].
  pose proof (Hok [bracket d]) as Hp.
  change (fromkeys [bracket d]) with [bracket d] in Hp.
  apply Permutation_sym, Permutation_length_1_inv in Hp. rewrite Hp.
  cbn [sorted fold_right insert_by concat]. apply app_nil_r.
Qed.

Lemma apart_tail (p : piece) (ps : list piece) :
  apart (p :: ps) = true -> apart ps = true.
Proof.
  cbn [apart]. destruct p as [c|d]; [auto|].
  destruct ps as [|[c|d'] ps]; auto. discriminate.
Qed.

Lemma dedupe_adjacent_pieces (set_order : list text -> list text)
  (ps : list piece) :
  set_order_ok set_order ->
  pieces_ok ps = true ->
  apart ps = true ->
  dedupe_adjacent set_order (pieces_text ps) = pieces_text ps.
Proof.
  intros Hok. induction ps as [|p ps IH]; intros H Ha; [reflexivity|].
  pose proof (apart_tail _ _ Ha) as Ha'.
  apply pieces_ok_cons in H. destruct H as [Hp H].
  destruct p as [c|d].
  - destruct Hp as [Hc _].
    change (pieces_text (Gap c :: ps)) with ([] ++ c :: pieces_text ps).
    rewrite dedupe_adjacent_apart by assumption.
    now rewrite dedupe_adjacent_nil, IH.
  - destruct ps as [|[c|d'] ps].
    + change (pieces_text [Cite d]) with (bracket d ++ []).
      rewrite app_nil_r. now apply dedupe_adjacent_single.
    + pose proof H as H0. apply pieces_ok_cons in H0.
      destruct H0 as [[Hc _] _].
      change (pieces_text (Cite d :: Gap c :: ps))
        with (bracket d ++ c :: pieces_text ps).
      rewrite dedupe_adjacent_apart by assumption.
      rewrite dedupe_adjacent_single by assumption. f_equal.
      specialize (IH H Ha').
      change (pieces_text (Gap c :: ps)) with ([] ++ c :: pieces_text ps)
        in IH.
      rewrite dedupe_adjacent_apart in IH by assumption.
      rewrite dedupe_adjacent_nil in IH. cbn [app] in IH.
      now injection IH as ->.
    + discriminate.
Qed.

Lemma gap_ok_space (w : ascii) :
  isspace w = true -> piece_ok (Gap w) = true.
Proof.
  intros H. cbn [piece_ok].
  now rewrite (isspace_not_marker_char w H), (isspace_not_terminator w H).
Qed.

(** C10.  Whatever the order of the set of citations, the trimmer turns
    "[3][1][3]" into "[1][3]", also inside a sentence.  A run of
    citations with nothing between them becomes the run of its distinct
    citations, each once, in ascending order of the values of their
    digits; the run of the markers of numbers becomes the markers of the
    same numbers, each once, in strictly ascending order.  A character
    that is no part of a marker and no sentence end, such as any
    whitespace, keeps the citations before it and those after it apart,
    each side rewritten on its own, and a text in which no citation
    follows another at once comes back as it is.  "[1, 2, 1]" is split
    into "[1] [2] [1]", which the deduplication and the trimmer leave as
    it is.  The same holds of the deduplication alone, for every text on
    the two sides of such a character. *)
Theorem C10_adjacent_citations (set_order : list text -> list text) :
  set_order_ok set_order ->
  remove_uncompleted_sentences_with_citations set_order (str "[3][1][3]")
  = str "[1][3]"
  /\ remove_uncompleted_sentences_with_citations set_order
       (str "It is so [3][1][3] [2][2].")
     = str "It is so [1][3] [2]."
  /\ (forall ds : list text,
        ds <> [] -> Forall digits ds ->
        exists out,
          remove_uncompleted_sentences_with_citations set_order
            (concat (map bracket ds))
          = concat (map bracket out)
          /\ NoDup out
          /\ (forall d, In d out <-> In d ds)
          /\ ascending out)
  /\ (forall ks : list Z,
        ks <> [] -> Forall (fun k => (0 <= k)%Z) ks ->
        exists out,
          remove_uncompleted_sentences_with_citations set_order
            (concat (map marker ks))
          = concat (map marker out)
          /\ StronglySorted Z.lt out
          /\ (forall k, In k out <-> In k ks))
  /\ (forall (ps qs : list piece) (w : ascii),
        pieces_ok ps = true -> pieces_ok qs = true ->
        piece_ok (Gap w) = true ->
        remove_uncompleted_sentences_with_citations set_order
          (pieces_text ps ++ w :: pieces_text qs)
        = remove_uncompleted_sentences_with_citations set_order
            (pieces_text ps)
          ++ w :: remove_uncompleted_sentences_with_citations set_order
                    (pieces_text qs))
  /\ (forall ps : list piece,
        pieces_ok ps = true -> apart ps = true ->
        remove_uncompleted_sentences_with_citations set_order
          (pieces_text ps)
        = pieces_text ps)
  /\ (forall w, isspace w = true -> piece_ok (Gap w) = true)
  /\ split_groups (str "[1, 2, 1]") = str "[1] [2] [1]"
  /\ remove_uncompleted_sentences_with_citations set_order (str "[1, 2, 1]")
     = str "[1] [2] [1]"
  /\ dedupe_adjacent set_order (str "[3][1][3]") = str "[1][3]"
  /\ (forall ds : list text,
        ds <> [] -> Forall digits ds ->
        exists out,
          dedupe_adjacent set_order (concat (map bracket ds)) = concat out
          /\ NoDup out
          /\ (forall x, In x out <-> In x (map bracket ds))
          /\ StronglySorted key_le out)
  /\ (forall (u v : text) (w : ascii),
        marker_char w = false ->
        dedupe_adjacent set_order (u ++ w :: v)
        = dedupe_adjacent set_order u ++ w :: dedupe_adjacent set_order v)
  /\ (forall w, isspace w = true -> marker_char w = false)
  /\ dedupe_adjacent set_order (str "[1] [2] [1]") = str "[1] [2] [1]".
Proof.
  intros Hok.
  refine (conj _ (conj _ (conj _ (conj _ (conj _ (conj _ (conj _
         (conj _ (conj _ (conj _ (conj _ (conj _ (conj _ _))))))))))))).
  - rewrite trimmer_canon by (assumption || (vm_compute; reflexivity)).
    vm_compute. reflexivity.
  - rewrite trimmer_canon by (assumption || (vm_compute; reflexivity)).
    vm_compute. reflexivity.
  - intros ds Hne Hd.
    destruct (run_collapsed set_order ds Hok Hne Hd)
      as (out & E & Hn & Hin & _ & Hs).
    exists out. rewrite <- pieces_of_run.
    rewrite trimmer_pieces by (assumption || now apply pieces_ok_run).
    rewrite pieces_of_run. auto.
  - intros ks Hne Hk.
    destruct (run_collapsed_numbers set_order ks Hok Hne Hk)
      as (out & E & Hs & Hin).
    exists out. split; [|split; assumption]. rewrite <- E.
    assert (Em : map marker ks = map bracket (map str_of_int ks)).
    { rewrite map_map. apply map_ext. intros k. apply marker_bracket. }
    rewrite Em, <- pieces_of_run.
    apply trimmer_pieces; [assumption|]. apply pieces_ok_run.
    apply Forall_map. eapply Forall_impl; [|exact Hk].
    intros k Hk0. now apply int_of_str.
  - intros ps qs w Hp Hq Hw.
    change (pieces_text ps ++ w :: pieces_text qs)
      with (pieces_text ps ++ pieces_text (Gap w :: qs)).
    rewrite <- pieces_text_app.
    rewrite !trimmer_pieces; try assumption.
    + rewrite pieces_text_app.
      change (pieces_text (Gap w :: qs)) with (w :: pieces_text qs).
      apply dedupe_adjacent_apart.
      cbn [piece_ok] in Hw. apply andb_true_iff in Hw.
      destruct Hw as [Hw _]. now apply negb_true_iff in Hw.
    + rewrite pieces_ok_app, Hp. unfold pieces_ok. cbn [forallb].
      fold (pieces_ok qs). now rewrite Hw, Hq.
  - intros ps Hp Ha. rewrite trimmer_pieces by assumption.
    now apply dedupe_adjacent_pieces.
  - exact gap_ok_space.
  - vm_compute. reflexivity.
  - rewrite trimmer_canon by (assumption || (vm_compute; reflexivity)).
    vm_compute. reflexivity.
  - rewrite dedupe_adjacent_canon by (assumption || (vm_compute; reflexivity)).
    vm_compute. reflexivity.
  - intros ds Hne Hd.
    exists (sorted citation_key (set_order (map bracket ds))).
    assert (Hp : Permutation (sorted citation_key (set_order (map bracket ds)))
                   (fromkeys (map bracket ds))).
    { rewrite sorted_perm. apply Hok. }
    split; [now apply deduplicate_run|]. split; [|split].
    + eapply Permutation_NoDup; [symmetry; exact Hp|].
      apply fromkeys_go_nodup.
    + intros x. rewrite <- (fromkeys_in x (map bracket ds)).
      split; apply Permutation_in; [exact Hp | symmetry; exact Hp].
    + apply sorted_sorted.
  - intros u v w Hw. now apply dedupe_adjacent_apart.
  - exact isspace_not_marker_char.
  - rewrite dedupe_adjacent_canon by (assumption || (vm_compute; reflexivity)).
    vm_compute. reflexivity.
Qed.

Lemma C10_adjacent_citations_witness :
  remove_uncompleted_sentences_with_citations fromkeys (str "[3][1][3]")
  = str "[1][3]"
  /\ remove_uncompleted_sentences_with_citations fromkeys
       (str "It is so [3][1][3] [2][2].")
     = str "It is so [1][3] [2].".
Proof.
  destruct (C10_adjacent_citations fromkeys fromkeys_order_ok)
    as (H1 & H2 & _).
  split; assumption.
Defined.
